(** * durable-kv-store: storage engine, wire protocol and role management

    A shallow embedding of the Python sources
    - [kv_store/indexes.py]  (module [indexes]),
    - [kv_store/store.py]    (module [store]),
    - [protocol.py], [server.py] (modules [protocol], [server]),
    - [cluster_node.py]      (module [cluster_node]),
    - [replication.py]       (module [replication]),
    - [masterless_node.py]   (module [masterless_node]),
    - [client.py], [cluster_client.py] (modules [client], [cluster_client]),
    followed by the properties proved about them.

    Conventions.  A Python [dict] used as a map is a [gmap]; a [set] is a
    [gset].  A method that mutates [self] and may raise is a function from
    the object's state to a [result] and the state it leaves behind (the
    mutation performed before the exception is kept, as in Python).  What
    the operating system decides (whether a write completes, what
    [random.random()] returns, what a peer answers, what [recv] returns)
    is an explicit argument of the function that asks for it, and so is
    what [json.loads] makes of the bytes of a line. *)

From Stdlib Require Import ZArith Ascii String List Bool Lia.
From stdpp Require Import base option list gmap sets strings pretty.

Local Open Scope string_scope.
Local Open Scope list_scope.
Local Open Scope Z_scope.
#[local] Set Warnings "-clear-no-such-hyp".

(** ** Decoded JSON values

    The Python object [json.loads] returns.  Numbers are Python integers
    (floating-point payloads are outside the model); [JObj] lists the items
    of a [dict] in insertion order, names distinct. *)

#[warnings="-register-all"]
Inductive json :=
| JNull
| JBool (b : bool)
| JNum (n : Z)
| JStr (s : string)
| JArr (xs : list json)
| JObj (fields : list (string * json)).

(** [x is None] *)
Definition is_None (v : json) : bool :=
  match v with JNull => true | _ => false end.

(** ** Exceptions and results *)

Inductive exn :=
| JSONDecodeError
| UnicodeDecodeError
| OSError (msg : string)
| AttributeError (msg : string)
| RuntimeError (msg : string).

(** [str(e)] for the exceptions whose text reaches a client. *)
Definition str_exn (e : exn) : string :=
  match e with
  | JSONDecodeError => "Expecting value"
  | UnicodeDecodeError => "'utf-8' codec can't decode byte"
  | OSError msg | AttributeError msg | RuntimeError msg => msg
  end.

Inductive result (A : Type) :=
| Ok (a : A)
| Raise (e : exn).
Arguments Ok {A} a.
Arguments Raise {A} e.

(** A method of an object with state [S]: its outcome and the state it leaves. *)
Definition M (S A : Type) : Type := S → result A * S.

Definition ret {S A} (a : A) : M S A := λ s, (Ok a, s).
Definition raise {S A} (e : exn) : M S A := λ s, (Raise e, s).
Definition bind {S A B} (c : M S A) (k : A → M S B) : M S B :=
  λ s, match c s with
       | (Ok a, s') => k a s'
       | (Raise e, s') => (Raise e, s')
       end.
Definition modify {S} (f : S → S) : M S unit := λ s, (Ok tt, f s).

Notation "c1 ;; c2" := (bind c1 (λ _, c2))
  (at level 100, c2 at level 200, right associativity).

(** ** Byte strings, lines and sockets

    A [bytes] object is a [string]: a sequence of 8-bit characters. *)

Definition newline : ascii := ascii_of_nat 10.

(** [b"\n" in buf] *)
Fixpoint has_newline (buf : string) : bool :=
  match buf with
  | EmptyString => false
  | String c rest => if Ascii.eqb c newline then true else has_newline rest
  end.

(** [buf.split(b"\n", 1)] for a [buf] that holds a newline: the bytes before
    the first newline and the bytes after it. *)
Fixpoint split_newline (buf : string) : string * string :=
  match buf with
  | EmptyString => (EmptyString, EmptyString)
  | String c rest =>
      if Ascii.eqb c newline then (EmptyString, rest)
      else let '(line, tail) := split_newline rest in (String c line, tail)
  end.

(** The loop
    [while b"\n" in buffer: line, buffer = buffer.split(b"\n", 1); ...]
    of the three [handle_client]; [handle] is the rest of its body and the
    value returned is the buffer the loop leaves.  Every turn takes a byte
    off the buffer, so its length bounds the number of turns. *)
Fixpoint take_lines {S} (turns : nat) (handle : string → M S unit) (buffer : string)
  : M S string :=
  match turns with
  | O => ret buffer
  | Datatypes.S turns =>
      if has_newline buffer
      then let '(line, rest) := split_newline buffer in
           handle line ;; take_lines turns handle rest
      else ret buffer
  end.

Definition drain {S} (handle : string → M S unit) (buffer : string) : M S string :=
  take_lines (String.length buffer) handle buffer.

(** The loop [while True: data = conn.recv(4096); if not data: break;
    buffer += data; ...] around it; [chunks] are the values [recv] returns,
    one after the other ([b""], or the end of the list: the peer has shut
    the connection down). *)
Fixpoint recv_loop {S} (handle : string → M S unit) (chunks : list string)
    (buffer : string) : M S unit :=
  match chunks with
  | [] => ret tt
  | data :: rest =>
      if bool_decide (data = EmptyString) then ret tt
      else bind (drain handle (buffer +:+ data)) (λ buffer', recv_loop handle rest buffer')
  end.

(** What one call of [sock.recv(4096)] on a socket with a timeout does:
    it returns bytes ([b""]: the peer has closed), or raises
    [socket.timeout].  A socket with no event left is closed. *)
Inductive recv_event :=
| Data (chunk : string)
| TimedOut.

(** [_recv_line(sock, timeout)], which cluster_node.py, replication.py and
    masterless_node.py each define with the same text; [buf] is its local
    buffer.  [ConnectionError] and [socket.timeout] are subclasses of
    [OSError], and every caller catches them as such. *)
Fixpoint _recv_line_from (buf : string) (sock : list recv_event)
  : result string * list recv_event :=
  if has_newline buf then (Ok (split_newline buf).1, sock)
  else match sock with
       | [] => (Raise (OSError "closed"), [])
       | TimedOut :: rest => (Raise (OSError "timed out"), rest)
       | Data chunk :: rest =>
           if bool_decide (chunk = EmptyString) then (Raise (OSError "closed"), rest)
           else _recv_line_from (buf +:+ chunk) rest
       end.

Definition _recv_line : M (list recv_event) string := _recv_line_from EmptyString.

(** * kv_store/indexes.py *)

Module indexes.

(** Texts are ASCII: a character code above 127 stands for no Python
    character and counts as a non-word character. *)

Definition is_upper (c : ascii) : bool :=
  let n := nat_of_ascii c in (65 <=? n)%nat && (n <=? 90)%nat.

Definition lower_char (c : ascii) : ascii :=
  if is_upper c then ascii_of_nat (nat_of_ascii c + 32) else c.

(** [text.lower()] *)
Fixpoint lower (text : string) : string :=
  match text with
  | EmptyString => EmptyString
  | String c rest => String (lower_char c) (lower rest)
  end.

(** [\w] *)
Definition is_word_char (c : ascii) : bool :=
  let n := nat_of_ascii c in
  ((48 <=? n)%nat && (n <=? 57)%nat)
  || ((65 <=? n)%nat && (n <=? 90)%nat)
  || ((97 <=? n)%nat && (n <=? 122)%nat)
  || (n =? 95)%nat.

Definition flush_word (cur : string) : list string :=
  match cur with EmptyString => [] | _ => [cur] end.

(** [re.findall(r"\b\w+\b", text)]: the maximal runs of word characters,
    left to right; [cur] is the run being read. *)
Fixpoint findall_words (cur : string) (text : string) : list string :=
  match text with
  | EmptyString => flush_word cur
  | String c rest =>
      if is_word_char c
      then findall_words (cur +:+ String c EmptyString) rest
      else flush_word cur ++ findall_words EmptyString rest
  end.

(** [_tokenize(text)] for a [str] argument. *)
Definition _tokenize (text : string) : list string :=
  findall_words EmptyString (lower text).

(** *** [str(value)] of a decoded JSON value *)

Definition quote1 : ascii := ascii_of_nat 39.
Definition quote2 : ascii := ascii_of_nat 34.
Definition backslash : ascii := ascii_of_nat 92.

Fixpoint contains_char (c : ascii) (s : string) : bool :=
  match s with
  | EmptyString => false
  | String d rest => if Ascii.eqb c d then true else contains_char c rest
  end.

Definition hex_digit (n : nat) : ascii :=
  if (n <? 10)%nat then ascii_of_nat (48 + n) else ascii_of_nat (87 + n).

(** One character of [repr(s)] inside the quotes [q]. *)
Definition repr_char (q c : ascii) : string :=
  let n := nat_of_ascii c in
  if Ascii.eqb c q || Ascii.eqb c backslash then String backslash (String c EmptyString)
  else if (n =? 9)%nat then String backslash "t"
  else if (n =? 10)%nat then String backslash "n"
  else if (n =? 13)%nat then String backslash "r"
  else if (n <? 32)%nat || (n =? 127)%nat
       then String backslash (String "x" (String (hex_digit (n / 16)) (String (hex_digit (n mod 16)) EmptyString)))
  else String c EmptyString.

Fixpoint repr_chars (q : ascii) (s : string) : string :=
  match s with
  | EmptyString => EmptyString
  | String c rest => repr_char q c +:+ repr_chars q rest
  end.

(** [repr(s)] of a [str]: double quotes only when [s] holds a single quote
    and no double quote. *)
Definition repr_str (s : string) : string :=
  let q := if contains_char quote1 s && negb (contains_char quote2 s)
           then quote2 else quote1 in
  String q (repr_chars q s +:+ String q EmptyString).

Fixpoint join (sep : string) (parts : list string) : string :=
  match parts with
  | [] => EmptyString
  | [p] => p
  | p :: rest => p +:+ sep +:+ join sep rest
  end.

Fixpoint py_repr (v : json) : string :=
  match v with
  | JNull => "None"
  | JBool true => "True"
  | JBool false => "False"
  | JNum n => pretty n
  | JStr s => repr_str s
  | JArr xs => "[" +:+ join ", " (map py_repr xs) +:+ "]"
  | JObj fields =>
      "{" +:+ join ", " (map (λ kv, repr_str (fst kv) +:+ ": " +:+ py_repr (snd kv)) fields) +:+ "}"
  end.

(** [str(value)] *)
Definition py_str (v : json) : string :=
  match v with
  | JStr s => s
  | _ => py_repr v
  end.

(** *** class FullTextIndex *)

Record FullTextIndex := mkFullTextIndex {
  _word_to_keys : gmap string (gset string)
}.

(** [FullTextIndex()] *)
Definition new : FullTextIndex := mkFullTextIndex ∅.

(** [for keys in self._word_to_keys.values(): keys.discard(key)] *)
Definition discard_key (key : string) (m : gmap string (gset string))
  : gmap string (gset string) :=
  (λ keys, keys ∖ {[key]}) <$> m.

(** [self._word_to_keys.setdefault(w, set()).add(key)] *)
Definition add_posting (key : string) (m : gmap string (gset string)) (w : string)
  : gmap string (gset string) :=
  <[w := default ∅ (m !! w) ∪ {[key]}]> m.

Definition index_value (key : string) (value : json) (ix : FullTextIndex)
  : FullTextIndex :=
  let words := _tokenize (py_str value) in
  mkFullTextIndex (foldl (add_posting key) (discard_key key (_word_to_keys ix)) words).

Definition remove_key (key : string) (ix : FullTextIndex) : FullTextIndex :=
  mkFullTextIndex
    (filter (λ wk, wk.2 ≠ ∅) (discard_key key (_word_to_keys ix))).

(** [search]: the result is [list(result)], the members of a set in an
    order Python does not specify; the model lists them with [elements]. *)
Definition search (query : string) (ix : FullTextIndex) : list string :=
  match _tokenize query with
  | [] => []
  | w :: ws =>
      let sets := map (λ w, default ∅ (_word_to_keys ix !! w)) (w :: ws) in
      match sets with
      | [] => []
      | s0 :: rest => elements (foldl (λ result s, result ∩ s) s0 rest)
      end
  end.

End indexes.

(** * kv_store/store.py *)

Module store.

(** ** The two files of a data directory

    A log entry, as [_append_wal] receives it: the dict
    [{"op": "set", "key": k, "value": v}], [{"op": "delete", "key": k}] or
    [{"op": "bulk", "items": items}]. *)
Inductive entry :=
| ESet (key : string) (value : json)
| EDelete (key : string)
| EBulk (items : list (string * json)).

(** What one step of [for line in f] over [wal.jsonl] is to [_recover],
    which opens the file as text, strips each line and hands it to
    [json.loads]:
    - [LNotText]: the reader raises [UnicodeDecodeError] instead of
      delivering a line: the block of the file it has to decode next holds
      bytes that are no text in the encoding of [open] (UTF-8).  The error
      comes when the block is read, so [LNotText] stands where the first
      line begins that the blocks before it do not hold whole; nothing the
      program writes is such bytes ([json.dumps] writes ASCII);
    - [LBlank]: nothing is left after [strip()];
    - [LNotJson]: [json.loads] raises [JSONDecodeError] (a torn fragment of
      an entry, or text glued onto one);
    - [LNotObject]: [json.loads] returns a value that is no [dict] (a
      number, a string, a list, ...);
    - [LOtherOp]: a [dict] whose ["op"] is none of set, delete and bulk;
    - [LEntry e]: the object [json.dumps] writes for the entry [e].
    Objects that name one of the three operations with fields of another
    type than section 4.2 of the specification gives them are outside the
    model, and so is a read that fails with [OSError] (it ends the replay
    as a [JSONDecodeError] does). *)
Inductive wal_line :=
| LNotText
| LBlank
| LNotJson
| LNotObject
| LOtherOp
| LEntry (e : entry).

(** The file: its newline-terminated lines, and the text after the last
    newline when there is some ([wal_tail]). *)
Record wal_file := mkWal {
  wal_lines : list wal_line;
  wal_tail : option wal_line
}.

Definition empty_wal : wal_file := mkWal [] None.

(** [for line in f]: the terminated lines, then the unterminated rest. *)
Definition read_lines (f : wal_file) : list wal_line :=
  wal_lines f ++ option_list (wal_tail f).

(** Text written right after an unterminated [tail].  After whitespace the
    new text reads as it is.  After bytes that are no text the reader still
    raises.  After anything else the line is no JSON document: the text of
    an object follows a document that is complete (extra data) or one that
    still has a bracket or a string open, which the appended text cannot
    close. *)
Definition glue (tail : option wal_line) (l : wal_line) : wal_line :=
  match tail with
  | None | Some LBlank => l
  | Some LNotText => LNotText
  | Some _ => LNotJson
  end.

(** How much of [json.dumps(entry) + "\n"] reached the file when the write
    stopped: nothing, a strict non-empty prefix of the object's text, all of
    it but the newline, or everything. *)
Inductive reached := NoBytes | SomeBytes | AllButNewline | AllBytes.

(** The file opened in mode ["a"] after such a write. *)
Definition write_line (e : entry) (r : reached) (f : wal_file) : wal_file :=
  match r with
  | NoBytes => f
  | SomeBytes => mkWal (wal_lines f) (Some (glue (wal_tail f) LNotJson))
  | AllButNewline => mkWal (wal_lines f) (Some (glue (wal_tail f) (LEntry e)))
  | AllBytes => mkWal (wal_lines f ++ [glue (wal_tail f) (LEntry e)]) None
  end.

(** [snapshot.json]: the dump of a map, or text [json.load] rejects (an
    empty or partly written file).  These are the files the program leaves.
    A file that parses to a value that is no object, or that is no UTF-8
    text, is outside the model: [_data] would be no [dict] with the first,
    and [json.load] raises [UnicodeDecodeError], which [_recover] does not
    catch, with the second. *)
Inductive snapshot_text :=
| SnapDump (m : gmap string json)
| SnapNotJson.

(** How far a snapshot write got: the file was not opened, it was truncated
    and partly written, or the whole dump is there. *)
Inductive snap_reached := SnapUntouched | SnapPartial | SnapWhole.

(** The file opened in mode ["w"] after such a write. *)
Definition write_snapshot (m : gmap string json) (r : snap_reached)
    (old : option snapshot_text) : option snapshot_text :=
  match r with
  | SnapUntouched => old
  | SnapPartial => Some SnapNotJson
  | SnapWhole => Some (SnapDump m)
  end.

(** ** What the environment decides during one mutation

    Whether the append (open, write, flush, fsync) returns or raises
    [OSError] and what it leaves in the file; whether
    [random.random() < self._debug_random_fail_chance]; whether the snapshot
    write returns or raises. *)
Inductive append_outcome :=
| AppendDone
| AppendRaises (msg : string) (r : reached).

Inductive snapshot_outcome :=
| SnapDone
| SnapRaises (msg : string) (r : snap_reached).

Record io := mkIO {
  on_append : append_outcome;
  random_lt_chance : bool;
  on_snapshot : snapshot_outcome
}.

(** An environment in which every write completes and nothing is skipped. *)
Definition io_ok : io := mkIO AppendDone false SnapDone.

(** ** class KVStore

    [_wal] and [_snapshot] are the files at [_wal_path] and
    [_snapshot_path] ([None]: the file does not exist).  [_emb_index] (a
    floating-point structure keyed by Python's per-process [hash]) is not
    modelled; it exists exactly when [_ft_index] does. *)
Record KVStore := mkKVStore {
  _data : gmap string json;
  _wal : option wal_file;
  _snapshot : option snapshot_text;
  _ft_index : option indexes.FullTextIndex
}.

Definition set_data (d : gmap string json) (s : KVStore) : KVStore :=
  mkKVStore d (_wal s) (_snapshot s) (_ft_index s).
Definition set_wal (w : option wal_file) (s : KVStore) : KVStore :=
  mkKVStore (_data s) w (_snapshot s) (_ft_index s).
Definition set_snapshot (p : option snapshot_text) (s : KVStore) : KVStore :=
  mkKVStore (_data s) (_wal s) p (_ft_index s).
Definition set_ft_index (ix : option indexes.FullTextIndex) (s : KVStore) : KVStore :=
  mkKVStore (_data s) (_wal s) (_snapshot s) ix.

(** *** Recovery *)

(** The first half of [_recover]: the snapshot, or the empty map when the
    file is missing or does not parse. *)
Definition load_snapshot (snap : option snapshot_text) : gmap string json :=
  match snap with
  | Some (SnapDump m) => m
  | Some SnapNotJson => ∅
  | None => ∅
  end.

(** [for k, v in items: data[k] = v] *)
Definition apply_items (items : list (string * json)) (data : gmap string json)
  : gmap string json :=
  foldl (λ d kv, <[kv.1 := kv.2]> d) data items.

Definition apply_entry (e : entry) (data : gmap string json) : gmap string json :=
  match e with
  | ESet k v => <[k := v]> data
  | EDelete k => base.delete k data
  | EBulk items => apply_items items data
  end.

(** The body of the replay loop for one line. *)
Definition replay_line (line : wal_line) : M (gmap string json) unit :=
  match line with
  | LNotText => raise UnicodeDecodeError
  | LBlank => ret tt
  | LNotJson => raise JSONDecodeError
  | LNotObject => raise (AttributeError "object has no attribute 'get'")
  | LOtherOp => ret tt
  | LEntry e => modify (apply_entry e)
  end.

Fixpoint replay_lines (lines : list wal_line) : M (gmap string json) unit :=
  match lines with
  | [] => ret tt
  | line :: rest => replay_line line ;; replay_lines rest
  end.

(** [try: ... except (json.JSONDecodeError, OSError): pass] around the
    loop: [UnicodeDecodeError] (a [ValueError]) and [AttributeError] are
    not caught and leave [_recover]. *)
Definition replay_wal (wal : option wal_file) : M (gmap string json) unit :=
  match wal with
  | None => ret tt
  | Some f =>
      λ data,
        match replay_lines (read_lines f) data with
        | (Raise JSONDecodeError, d) => (Ok tt, d)
        | (Raise (OSError _), d) => (Ok tt, d)
        | other => other
        end
  end.

(** [for k, v in self._data.items(): self._ft_index.index_value(k, v)] *)
Definition build_index (data : gmap string json) : indexes.FullTextIndex :=
  map_fold (λ k v ix, indexes.index_value k v ix) indexes.new data.

(** [_recover], run by the constructor on the files of the data directory. *)
Definition _recover (enable_indexes : bool) (wal : option wal_file)
    (snap : option snapshot_text) : result KVStore :=
  match replay_wal wal (load_snapshot snap) with
  | (Raise e, _) => Raise e
  | (Ok _, data) =>
      Ok (mkKVStore data wal snap
            (if enable_indexes then Some (build_index data) else None))
  end.

(** [KVStore(data_dir, enable_indexes=...)] *)
Definition __init__ (wal : option wal_file) (snap : option snapshot_text)
    (enable_indexes : bool) : result KVStore :=
  _recover enable_indexes wal snap.

(** *** Persistence *)

Definition _append_wal (e : entry) (o : append_outcome) : M KVStore unit :=
  λ s,
    match o with
    | AppendDone =>
        (Ok tt, set_wal (Some (write_line e AllBytes (default empty_wal (_wal s)))) s)
    | AppendRaises msg NoBytes => (Raise (OSError msg), s)
    | AppendRaises msg r =>
        (Raise (OSError msg),
         set_wal (Some (write_line e r (default empty_wal (_wal s)))) s)
    end.

Definition _save_snapshot (debug_simulate_fail : bool) (o : io) : M KVStore unit :=
  λ s,
    if debug_simulate_fail && random_lt_chance o then (Ok tt, s)
    else match on_snapshot o with
         | SnapDone => (Ok tt, set_snapshot (Some (SnapDump (_data s))) s)
         | SnapRaises msg r =>
             (Raise (OSError msg),
              set_snapshot (write_snapshot (_data s) r (_snapshot s)) s)
         end.

(** *** The public methods *)

(** [self._data.get(key)]: [None] for a missing key. *)
Definition get (key : string) (s : KVStore) : json :=
  default JNull (_data s !! key).

(** The first lines of [set] and of the loop of [bulk_set]. *)
Definition store_pair (key : string) (value : json) : M KVStore unit :=
  modify (λ s, set_data (<[key := value]> (_data s)) s) ;;
  modify (λ s, set_ft_index (indexes.index_value key value <$> _ft_index s) s).

Definition set (key : string) (value : json) (debug_simulate_fail : bool) (o : io)
  : M KVStore unit :=
  store_pair key value ;;
  _append_wal (ESet key value) (on_append o) ;;
  _save_snapshot debug_simulate_fail o.

Definition delete (key : string) (debug_simulate_fail : bool) (o : io)
  : M KVStore unit :=
  modify (λ s, set_data (base.delete key (_data s)) s) ;;
  modify (λ s, set_ft_index (indexes.remove_key key <$> _ft_index s) s) ;;
  _append_wal (EDelete key) (on_append o) ;;
  _save_snapshot debug_simulate_fail o.

Fixpoint store_pairs (items : list (string * json)) : M KVStore unit :=
  match items with
  | [] => ret tt
  | (key, value) :: rest => store_pair key value ;; store_pairs rest
  end.

Definition bulk_set (items : list (string * json)) (debug_simulate_fail : bool)
    (o : io) : M KVStore unit :=
  match items with
  | [] => ret tt
  | _ =>
      store_pairs items ;;
      _append_wal (EBulk items) (on_append o) ;;
      _save_snapshot debug_simulate_fail o
  end.

Definition search_fulltext (query : string) (s : KVStore) : list string :=
  match _ft_index s with
  | None => []
  | Some ix => indexes.search query ix
  end.

(** [search_similar]: [scores] stands for what
    [WordEmbeddingIndex.search_similar] computes. *)
Definition search_similar (scores : list json) (s : KVStore) : list json :=
  match _ft_index s with
  | None => []
  | Some _ => scores
  end.

(** ** Runs of mutations, and the process being killed *)

Inductive op :=
| Set_ (key : string) (value : json) (debug_simulate_fail : bool)
| Delete_ (key : string) (debug_simulate_fail : bool)
| BulkSet_ (items : list (string * json)) (debug_simulate_fail : bool).

Definition run_op (c : op) (o : io) : M KVStore unit :=
  match c with
  | Set_ k v dbg => set k v dbg o
  | Delete_ k dbg => delete k dbg o
  | BulkSet_ items dbg => bulk_set items dbg o
  end.

(** The calls are made one after the other, whatever each returns (each
    request of a connection is answered before the next is read). *)
Fixpoint run_ops (calls : list (op * io)) (s : KVStore) : KVStore :=
  match calls with
  | [] => s
  | (c, o) :: rest => run_ops rest (run_op c o s).2
  end.

(** The entry a call logs, if it logs one. *)
Definition entry_of (c : op) : option entry :=
  match c with
  | Set_ k v _ => Some (ESet k v)
  | Delete_ k _ => Some (EDelete k)
  | BulkSet_ [] _ => None
  | BulkSet_ items _ => Some (EBulk items)
  end.

(** Restarting the process: the memory is lost, the two files stay. *)
Definition restart (enable_indexes : bool) (s : KVStore) : result KVStore :=
  __init__ (_wal s) (_snapshot s) enable_indexes.

(** The process is killed while [_append_wal] writes [e], after [r] of the
    line reached the file: what the files hold then. *)
Definition killed_in_append (e : entry) (r : reached) (s : KVStore) : KVStore :=
  set_wal (match r with
           | NoBytes => _wal s
           | _ => Some (write_line e r (default empty_wal (_wal s)))
           end) s.

(** Where a kill finds a call: inside the append, with [r] of the line in
    the file, or past it, inside the snapshot write. *)
Inductive kill_point :=
| InAppend (r : reached)
| InSnapshot (r : snap_reached).

(** The files a kill leaves of the call [c] made on [s] (its memory is lost
    at the restart). *)
Definition killed_during (c : op) (kp : kill_point) (s : KVStore) : KVStore :=
  match entry_of c with
  | None => s
  | Some e =>
      match kp with
      | InAppend r => killed_in_append e r s
      | InSnapshot r =>
          set_snapshot (write_snapshot (apply_entry e (_data s)) r (_snapshot s))
            (killed_in_append e AllBytes s)
      end
  end.

End store.

(** * protocol.py *)

Module protocol.

(** A response: the dict [msg], whose [json.dumps] followed by a newline is
    the line sent; the fields are listed in insertion order. *)
Definition response : Type := list (string * json).

(** [encode_response(ok, value=None, error=None)] *)
Definition encode_response (ok : bool) (value : json) (error : option string)
  : response :=
  [("ok", JBool ok)]
  ++ (if is_None value then [] else [("value", value)])
  ++ (match error with Some e => [("error", JStr e)] | None => [] end).

(** [msg.get(name)] on the decoded line: [None] when the field is absent. *)
Fixpoint field (name : string) (msg : response) : option json :=
  match msg with
  | [] => None
  | (n, v) :: rest => if String.eqb n name then Some v else field name rest
  end.

(** A decoded request, read the way every handler reads it, with
    [req.get]: [method] and [key] are [None] when absent (or null),
    [value] is [JNull] when absent, [items] is [[]] when absent,
    [debug_simulate_fail] is [False] and [query] is [""] when absent. *)
Record request := mkRequest {
  method : option string;
  key : option string;
  value : json;
  items : list (string * json);
  debug_simulate_fail : bool;
  query : string
}.

(** A line of a client connection: empty, undecodable, or a request. *)
Inductive line :=
| LineEmpty
| LineInvalid
| LineRequest (req : request).

Definition method_is (name : string) (req : request) : bool :=
  bool_decide (method req = Some name).

(** [f"unknown method: {method}"] *)
Definition unknown_method (req : request) : string :=
  "unknown method: " +:+ default "None" (method req).

(** What a role probe of the election obtains from a peer: an exception
    (connection refused, timeout, undecodable answer), or the decoded reply
    with [r.get("primary")] and [r.get("node_id")]. *)
Inductive probe_result :=
| ProbeFailed
| RoleReply (primary : bool) (node_id : option Z).

(** What [decode_request(line)] does with the bytes of a line: [json.loads]
    raises [JSONDecodeError] (or the bytes are no UTF-8 text and [decode]
    raises [UnicodeDecodeError]), it returns a value that is no [dict], or
    it returns the request. *)
Inductive decoded :=
| NotJson
| NotObject
| Decoded (req : request).

End protocol.

(** * server.py *)

Module server.
Import protocol.

(** The [if]/[elif] chain of [handle_client] for one request; [scores]
    stands for the result of the similarity search. *)
Definition dispatch (req : request) (o : store.io) (scores : list json)
  : M store.KVStore response :=
  if method_is "get" req then
    match key req with
    | None => ret (encode_response false JNull (Some "missing key"))
    | Some k => λ s, (Ok (encode_response true (store.get k s) None), s)
    end
  else if method_is "set" req then
    match key req with
    | None => ret (encode_response false JNull (Some "missing key"))
    | Some k =>
        store.set k (value req) (debug_simulate_fail req) o ;;
        ret (encode_response true JNull None)
    end
  else if method_is "delete" req then
    match key req with
    | None => ret (encode_response false JNull (Some "missing key"))
    | Some k =>
        store.delete k (debug_simulate_fail req) o ;;
        ret (encode_response true JNull None)
    end
  else if method_is "bulk_set" req then
    store.bulk_set (items req) (debug_simulate_fail req) o ;;
    ret (encode_response true JNull None)
  else if method_is "search" req then
    λ s, (Ok (encode_response true
                (JArr (JStr <$> store.search_fulltext (query req) s)) None), s)
  else if method_is "search_similar" req then
    λ s, (Ok (encode_response true (JArr (store.search_similar scores s)) None), s)
  else ret (encode_response false JNull (Some (unknown_method req))).

(** [try: ... except Exception as e: conn.sendall(encode_response(False, error=str(e)))] *)
Definition handle_request (req : request) (o : store.io) (scores : list json)
    (s : store.KVStore) : response * store.KVStore :=
  match dispatch req o scores s with
  | (Ok resp, s') => (resp, s')
  | (Raise e, s') => (encode_response false JNull (Some (str_exn e)), s')
  end.

(** One line of the connection: the response sent, if any. *)
Definition handle_line (l : line) (o : store.io) (scores : list json)
    (s : store.KVStore) : option response * store.KVStore :=
  match l with
  | LineEmpty => (None, s)
  | LineInvalid => (Some (encode_response false JNull (Some "invalid request")), s)
  | LineRequest req =>
      let '(resp, s') := handle_request req o scores s in (Some resp, s')
  end.

(** One connection: the store the handler was given and the responses sent
    on the connection so far (every [sendall] completes). *)
Record connection := mkConnection {
  store_ : store.KVStore;
  sent : list response
}.

(** The body of the inner loop of [handle_client] for the bytes of one line.
    [decode_request] tells what the function of that name does with them;
    [env n] is what the environment decides while the response number [n]
    of the connection is computed.  A line that decodes to a value that is
    no [dict] makes [req.get] raise [AttributeError] outside the inner
    [try]: the handler ends there. *)
Definition handle_bytes (decode_request : string → decoded)
    (env : nat → store.io * list json) (bytes : string) : M connection unit :=
  λ c,
    if bool_decide (bytes = EmptyString) then (Ok tt, c)
    else match decode_request bytes with
         | NotJson =>
             (Ok tt, mkConnection (store_ c)
                       (sent c ++ [encode_response false JNull (Some "invalid request")]))
         | NotObject => (Raise (AttributeError "object has no attribute 'get'"), c)
         | Decoded req =>
             let '(o, scores) := env (length (sent c)) in
             let '(resp, s') := handle_request req o scores (store_ c) in
             (Ok tt, mkConnection s' (sent c ++ [resp]))
         end.

(** [handle_client(conn, store)], for the chunks [conn.recv] returns. *)
Definition handle_client (decode_request : string → decoded)
    (env : nat → store.io * list json) (chunks : list string) (s : store.KVStore)
  : result unit * connection :=
  recv_loop (handle_bytes decode_request env) chunks EmptyString (mkConnection s []).

End server.

(** * cluster_node.py *)

Module cluster_node.
Import protocol.

(** [ReplicationSender]: the live connections, by peer port. *)
Record ReplicationSender := mkSender {
  _peers : list Z;
  _conns : list Z
}.

(** [connect()]: [connects p] tells whether dialling port [p] succeeds. *)
Definition connect (connects : Z → bool) (snd : ReplicationSender)
  : ReplicationSender :=
  mkSender (_peers snd) (_conns snd ++ filter (λ p, connects p = true) (_peers snd)).

(** [send(entry)]: a connection whose [sendall] fails is closed and dropped. *)
Definition send (delivers : Z → bool) (snd : ReplicationSender) : ReplicationSender :=
  mkSender (_peers snd) (filter (λ p, delivers p = true) (_conns snd)).

(** The variables of [run_cluster_node] its inner functions share.
    [receiver] is the running [ReplicationReceiver], by its port. *)
Record node := mkNode {
  node_id : Z;
  kv_port : Z;
  repl_port : Z;
  secondary_repl_ports : list Z;
  other_kv_ports : list Z;
  store_ : store.KVStore;
  is_primary : bool;
  receiver : option Z;
  sender : option ReplicationSender
}.

Definition set_store (s : store.KVStore) (n : node) : node :=
  mkNode (node_id n) (kv_port n) (repl_port n) (secondary_repl_ports n)
    (other_kv_ports n) s (is_primary n) (receiver n) (sender n).
Definition set_sender (snd : option ReplicationSender) (n : node) : node :=
  mkNode (node_id n) (kv_port n) (repl_port n) (secondary_repl_ports n)
    (other_kv_ports n) (store_ n) (is_primary n) (receiver n) snd.

(** The start of [run_cluster_node], up to the accept loop. *)
Definition run_cluster_node (node_id kv_port repl_port : Z)
    (secondary_repl_ports : list Z) (wal : option store.wal_file)
    (snap : option store.snapshot_text) (other_kv_ports : list Z)
    (connects : Z → bool) : result node :=
  match store.__init__ wal snap false with
  | Raise e => Raise e
  | Ok st =>
      let is_primary := bool_decide (node_id = 0) in
      Ok (mkNode node_id kv_port repl_port secondary_repl_ports other_kv_ports st
            is_primary
            (if is_primary then None else Some repl_port)
            (if is_primary
             then Some (connect connects (mkSender secondary_repl_ports []))
             else None))
  end.

(** [ReplicationReceiver.run] applying one entry received from the primary:
    the map changes, the log and the snapshot do not. *)
Definition receive_entry (e : store.entry) (n : node) : node :=
  match receiver n with
  | None => n
  | Some _ =>
      set_store (store.set_data (store.apply_entry e (store._data (store_ n))) (store_ n)) n
  end.

(** [apply_and_replicate(entry)] *)
Definition apply_and_replicate (e : store.entry) (o : store.io) (delivers : Z → bool)
  : M node unit :=
  λ n,
    let locked :=
      (modify (λ s, store.set_data (store.apply_entry e (store._data s)) s) ;;
       store._append_wal e (store.on_append o) ;;
       store._save_snapshot false o) in
    match locked (store_ n) with
    | (Raise e', s') => (Raise e', set_store s' n)
    | (Ok _, s') =>
        (Ok tt, set_sender (send delivers <$> sender n) (set_store s' n))
    end.

(** The methods of [handle_client] behind the role check. *)
Definition dispatch (req : request) (o : store.io) (delivers : Z → bool)
  : M node response :=
  if method_is "get" req then
    match key req with
    | None => ret (encode_response false JNull (Some "missing key"))
    | Some k => λ n, (Ok (encode_response true (store.get k (store_ n)) None), n)
    end
  else if method_is "set" req then
    match key req with
    | None => ret (encode_response false JNull (Some "missing key"))
    | Some k =>
        apply_and_replicate (store.ESet k (value req)) o delivers ;;
        ret (encode_response true JNull None)
    end
  else if method_is "delete" req then
    match key req with
    | None => ret (encode_response false JNull (Some "missing key"))
    | Some k =>
        apply_and_replicate (store.EDelete k) o delivers ;;
        ret (encode_response true JNull None)
    end
  else if method_is "bulk_set" req then
    match items req with
    | [] => ret (encode_response true JNull None)
    | its =>
        apply_and_replicate (store.EBulk its) o delivers ;;
        ret (encode_response true JNull None)
    end
  else ret (encode_response false JNull (Some (unknown_method req))).

(** [handle_client] for one decoded request. *)
Definition handle_request (req : request) (o : store.io) (delivers : Z → bool)
    (n : node) : response * node :=
  if method_is "role" req then
    ([("ok", JBool true); ("primary", JBool (is_primary n)); ("node_id", JNum (node_id n))], n)
  else if negb (is_primary n) then
    (encode_response false JNull (Some "not primary"), n)
  else
    match dispatch req o delivers n with
    | (Ok resp, n') => (resp, n')
    | (Raise e, n') => (encode_response false JNull (Some (str_exn e)), n')
    end.

(** [r.get("primary") and r.get("node_id", 999) < node_id] *)
Definition lower_primary (my_id : Z) (r : probe_result) : bool :=
  match r with
  | ProbeFailed => false
  | RoleReply primary peer_id => primary && bool_decide (default 999 peer_id < my_id)
  end.

(** The probing loop of [election_loop]: [other_primary] when it ends. *)
Fixpoint probe_peers (my_id my_port : Z) (probe : Z → probe_result) (ports : list Z)
  : bool :=
  match ports with
  | [] => false
  | p :: rest =>
      if bool_decide (p = my_port) then probe_peers my_id my_port probe rest
      else if lower_primary my_id (probe p) then true
      else probe_peers my_id my_port probe rest
  end.

(** One turn of the [while True] of [election_loop]. *)
Definition election_round (probe : Z → probe_result) (connects : Z → bool)
    (n : node) : node :=
  if is_primary n then n
  else if is_primary n then n
  else if probe_peers (node_id n) (kv_port n) probe (other_kv_ports n) then n
  else if is_primary n then n
  else
    mkNode (node_id n) (kv_port n) (repl_port n) (secondary_repl_ports n)
      (other_kv_ports n) (store_ n)
      true
      None
      (Some (connect connects (mkSender (secondary_repl_ports n) []))).

(** What a running node does next. *)
Inductive step :=
| Request (req : request) (o : store.io) (delivers : Z → bool)
| Election (probe : Z → probe_result) (connects : Z → bool)
| Replicated (e : store.entry).

Definition do_step (st : step) (n : node) : node :=
  match st with
  | Request req o delivers => (handle_request req o delivers n).2
  | Election probe connects => election_round probe connects n
  | Replicated e => receive_entry e n
  end.

Definition run (steps : list step) (n : node) : node :=
  foldl (λ n st, do_step st n) n steps.

(** The inner loop of [ReplicationReceiver.run], for one accepted
    connection and a receiver that is not stopped meanwhile, on the map of
    the store.  [loads] tells what [json.loads(line.decode("utf-8"))] makes
    of a line ([LNotText]: [decode] raises [UnicodeDecodeError]; [LBlank]:
    nothing but whitespace, which [json.loads] rejects like any other text
    that is no JSON).  The exceptions of the [except] clause end the loop;
    [UnicodeDecodeError] and [AttributeError] are not among them.  Every
    call of [_recv_line] that returns takes an event off the socket, which
    bounds the turns. *)
Fixpoint receive_lines (turns : nat) (loads : string → store.wal_line)
    (sock : list recv_event) (data : gmap string json)
  : result unit * gmap string json :=
  match turns with
  | O => (Ok tt, data)
  | S turns =>
      match _recv_line sock with
      | (Raise _, _) => (Ok tt, data)
      | (Ok line, sock') =>
          match loads line with
          | store.LNotText => (Raise UnicodeDecodeError, data)
          | store.LBlank | store.LNotJson => (Ok tt, data)
          | store.LNotObject =>
              (Raise (AttributeError "object has no attribute 'get'"), data)
          | store.LOtherOp => receive_lines turns loads sock' data
          | store.LEntry e => receive_lines turns loads sock' (store.apply_entry e data)
          end
      end
  end.

(** A connection to the receiver of the node, from the accept to the close. *)
Definition serve_connection (loads : string → store.wal_line) (sock : list recv_event)
    (n : node) : result unit * node :=
  match receiver n with
  | None => (Ok tt, n)
  | Some _ =>
      let '(r, data) :=
        receive_lines (S (length sock)) loads sock (store._data (store_ n)) in
      (r, set_store (store.set_data data (store_ n)) n)
  end.

End cluster_node.

(** * replication.py *)

Module replication.
Import protocol.

Record ReplicationReceiver := mkReceiver {
  _port : Z;
  _stopped : bool
}.

Record ReplicationSender := mkSender {
  _peers : list Z;
  _connections : list Z
}.

Definition connect_to_peers (connects : Z → bool) (snd : ReplicationSender)
  : ReplicationSender :=
  mkSender (_peers snd)
    (_connections snd ++ filter (λ p, connects p = true) (_peers snd)).

Definition replicate (delivers : Z → bool) (snd : ReplicationSender)
  : ReplicationSender :=
  mkSender (_peers snd) (filter (λ p, delivers p = true) (_connections snd)).

Definition close (snd : ReplicationSender) : ReplicationSender :=
  mkSender (_peers snd) [].

Record ClusterNode := mkClusterNode {
  node_id : Z;
  kv_port : Z;
  repl_port : Z;
  peer_repl_ports : list Z;
  peer_kv_ports : list Z;
  _store : store.KVStore;
  _is_primary : bool;
  _receiver : option ReplicationReceiver;
  _sender : option ReplicationSender;
  _stop : bool
}.

Definition set_store (s : store.KVStore) (n : ClusterNode) : ClusterNode :=
  mkClusterNode (node_id n) (kv_port n) (repl_port n) (peer_repl_ports n)
    (peer_kv_ports n) s (_is_primary n) (_receiver n) (_sender n) (_stop n).
Definition set_receiver (r : option ReplicationReceiver) (n : ClusterNode) : ClusterNode :=
  mkClusterNode (node_id n) (kv_port n) (repl_port n) (peer_repl_ports n)
    (peer_kv_ports n) (_store n) (_is_primary n) r (_sender n) (_stop n).
Definition set_sender (snd : option ReplicationSender) (n : ClusterNode) : ClusterNode :=
  mkClusterNode (node_id n) (kv_port n) (repl_port n) (peer_repl_ports n)
    (peer_kv_ports n) (_store n) (_is_primary n) (_receiver n) snd (_stop n).
Definition set_is_primary (b : bool) (n : ClusterNode) : ClusterNode :=
  mkClusterNode (node_id n) (kv_port n) (repl_port n) (peer_repl_ports n)
    (peer_kv_ports n) (_store n) b (_receiver n) (_sender n) (_stop n).
Definition set_stop (b : bool) (n : ClusterNode) : ClusterNode :=
  mkClusterNode (node_id n) (kv_port n) (repl_port n) (peer_repl_ports n)
    (peer_kv_ports n) (_store n) (_is_primary n) (_receiver n) (_sender n) b.

(** [ClusterNode(node_id, kv_port, repl_port, peer_repl_ports, data_dir, peer_kv_ports)] *)
Definition __init__ (node_id kv_port repl_port : Z) (peer_repl_ports : list Z)
    (wal : option store.wal_file) (snap : option store.snapshot_text)
    (peer_kv_ports : list Z) : result ClusterNode :=
  match store.__init__ wal snap false with
  | Raise e => Raise e
  | Ok st =>
      Ok (mkClusterNode node_id kv_port repl_port peer_repl_ports peer_kv_ports st
            (bool_decide (node_id = 0)) None None false)
  end.

Definition _start_primary (connects : Z → bool) (n : ClusterNode) : ClusterNode :=
  set_sender (Some (connect_to_peers connects (mkSender (peer_repl_ports n) []))) n.

Definition _start_secondary (n : ClusterNode) : ClusterNode :=
  set_receiver (Some (mkReceiver (repl_port n) false)) n.

(** [ReplicationReceiver.stop()] *)
Definition stop_receiver (r : ReplicationReceiver) : ReplicationReceiver :=
  mkReceiver (_port r) true.

Definition _become_primary (connects : Z → bool) (n : ClusterNode) : ClusterNode :=
  _start_primary connects (set_is_primary true (set_receiver None n)).

(** The probing loop of [_run_election]: [true] when it returns from inside
    the loop, leaving the node as it is. *)
Fixpoint gives_up (my_id my_port : Z) (probe : Z → probe_result) (ports : list Z)
  : bool :=
  match ports with
  | [] => false
  | p :: rest =>
      if bool_decide (p = my_port) then gives_up my_id my_port probe rest
      else match probe p with
           | ProbeFailed => gives_up my_id my_port probe rest
           | RoleReply primary peer_id =>
               if primary then true
               else if bool_decide (default 999 peer_id < my_id) then true
               else gives_up my_id my_port probe rest
           end
  end.

Definition _run_election (probe : Z → probe_result) (connects : Z → bool)
    (n : ClusterNode) : ClusterNode :=
  if _is_primary n then n
  else if gives_up (node_id n) (kv_port n) probe (peer_kv_ports n) then n
  else if _is_primary n then n
  else _become_primary connects n.

Definition start (connects : Z → bool) (n : ClusterNode) : ClusterNode :=
  if _is_primary n then _start_primary connects n else _start_secondary n.

(** One turn of the [while] of [_election_loop]. *)
Definition _election_loop (probe : Z → probe_result) (connects : Z → bool)
    (n : ClusterNode) : ClusterNode :=
  if _stop n then n
  else if _is_primary n then n
  else _run_election probe connects n.

Definition stop (n : ClusterNode) : ClusterNode :=
  set_receiver (stop_receiver <$> _receiver n)
    (set_sender (close <$> _sender n) (set_stop true n)).

Definition is_primary (n : ClusterNode) : bool := _is_primary n.

(** [ReplicationReceiver._apply_entry], run by the accept loop while the
    receiver is not stopped. *)
Definition _apply_entry (e : store.entry) (n : ClusterNode) : ClusterNode :=
  match _receiver n with
  | Some r =>
      if _stopped r then n
      else set_store (store.set_data (store.apply_entry e (store._data (_store n))) (_store n)) n
  | None => n
  end.

Definition apply_and_replicate (e : store.entry) (delivers : Z → bool)
  : M ClusterNode unit :=
  λ n,
    if negb (_is_primary n) then (Raise (RuntimeError "not primary"), n)
    else
      (Ok tt,
       set_sender (replicate delivers <$> _sender n)
         (set_store (store.set_data (store.apply_entry e (store._data (_store n))) (_store n)) n)).

(** What is done to a [ClusterNode] next. *)
Inductive step :=
| Start (connects : Z → bool)
| Stop
| ElectionTurn (probe : Z → probe_result) (connects : Z → bool)
| RunElection (probe : Z → probe_result) (connects : Z → bool)
| BecomePrimary (connects : Z → bool)
| ApplyEntry (e : store.entry)
| ApplyAndReplicate (e : store.entry) (delivers : Z → bool).

Definition do_step (st : step) (n : ClusterNode) : ClusterNode :=
  match st with
  | Start connects => start connects n
  | Stop => stop n
  | ElectionTurn probe connects => _election_loop probe connects n
  | RunElection probe connects => _run_election probe connects n
  | BecomePrimary connects => _become_primary connects n
  | ApplyEntry e => _apply_entry e n
  | ApplyAndReplicate e delivers => (apply_and_replicate e delivers n).2
  end.

Definition run (steps : list step) (n : ClusterNode) : ClusterNode :=
  foldl (λ n st, do_step st n) n steps.

End replication.

(** * masterless_node.py *)

Module masterless_node.
Import protocol.

(** [ReplicationBroadcaster]: the peers, and the open connections, each by
    the port it was opened to. *)
Record ReplicationBroadcaster := mkBroadcaster {
  _peers : list Z;
  _conns : list Z
}.

(** [ReplicationBroadcaster(peer_repl_ports)] *)
Definition new_broadcaster (peer_repl_ports : list Z) : ReplicationBroadcaster :=
  mkBroadcaster peer_repl_ports [].

(** [connect()]: [connects p] tells whether dialling port [p] succeeds. *)
Definition connect (connects : Z → bool) (b : ReplicationBroadcaster)
  : ReplicationBroadcaster :=
  mkBroadcaster (_peers b) (_conns b ++ filter (λ p, connects p = true) (_peers b)).

(** The first loop of [broadcast]: the list [dead] of the indices of the
    connections whose [sendall] raised [OSError]; [sendall i] tells whether
    the send on connection number [i] completes. *)
Definition dead_conns (sendall : nat → bool) (conns : list Z) : list nat :=
  filter (λ i, sendall i = false) (seq 0 (length conns)).

(** [broadcast(entry)]; its second loop is
    [for i in reversed(dead): ...; del self._conns[i]]. *)
Definition broadcast (sendall : nat → bool) (b : ReplicationBroadcaster)
  : ReplicationBroadcaster :=
  mkBroadcaster (_peers b)
    (foldl (λ conns i, base.delete i conns) (_conns b)
       (reverse (dead_conns sendall (_conns b)))).

Definition close (b : ReplicationBroadcaster) : ReplicationBroadcaster :=
  mkBroadcaster (_peers b) [].

(** The variables of [run_masterless_node] its inner functions share. *)
Record node := mkNode {
  store_ : store.KVStore;
  broadcaster : ReplicationBroadcaster
}.

(** The start of [run_masterless_node], up to the accept loop. *)
Definition run_masterless_node (peer_repl_ports : list Z)
    (wal : option store.wal_file) (snap : option store.snapshot_text)
    (connects : Z → bool) : result node :=
  match store.__init__ wal snap false with
  | Raise e => Raise e
  | Ok st => Ok (mkNode st (connect connects (new_broadcaster peer_repl_ports)))
  end.

(** [apply_and_broadcast(entry)]: the broadcast comes after the [with]
    block, and is not reached when the block raises. *)
Definition apply_and_broadcast (e : store.entry) (o : store.io) (sendall : nat → bool)
  : M node unit :=
  λ n,
    let locked :=
      (modify (λ s, store.set_data (store.apply_entry e (store._data s)) s) ;;
       store._append_wal e (store.on_append o) ;;
       store._save_snapshot false o) in
    match locked (store_ n) with
    | (Raise e', s') => (Raise e', mkNode s' (broadcaster n))
    | (Ok _, s') => (Ok tt, mkNode s' (broadcast sendall (broadcaster n)))
    end.

(** [handle_client] for one decoded request.  No [try] surrounds the
    methods here: an exception leaves [handle_client], which closes the
    connection without a response. *)
Definition handle_request (req : request) (o : store.io) (sendall : nat → bool)
  : M node response :=
  if method_is "get" req then
    match key req with
    | None => ret (encode_response false JNull (Some "missing key"))
    | Some k => λ n, (Ok (encode_response true (store.get k (store_ n)) None), n)
    end
  else if method_is "set" req then
    match key req with
    | None => ret (encode_response false JNull (Some "missing key"))
    | Some k =>
        apply_and_broadcast (store.ESet k (value req)) o sendall ;;
        ret (encode_response true JNull None)
    end
  else if method_is "delete" req then
    match key req with
    | None => ret (encode_response false JNull (Some "missing key"))
    | Some k =>
        apply_and_broadcast (store.EDelete k) o sendall ;;
        ret (encode_response true JNull None)
    end
  else if method_is "bulk_set" req then
    match items req with
    | [] => ret (encode_response true JNull None)
    | its =>
        apply_and_broadcast (store.EBulk its) o sendall ;;
        ret (encode_response true JNull None)
    end
  else ret (encode_response false JNull (Some (unknown_method req))).

(** The body of the loop of [ReplicationReceiver._handle] for an entry a
    peer sent: it is applied to the map and appended to the log; no
    snapshot is written. *)
Definition receive_entry (e : store.entry) (a : store.append_outcome)
  : M store.KVStore unit :=
  modify (λ s, store.set_data (store.apply_entry e (store._data s)) s) ;;
  store._append_wal e a.

(** The entries of one connection, each with what becomes of its append:
    the [OSError] of an append ends the loop. *)
Fixpoint receive_entries (es : list (store.entry * store.append_outcome))
  : M store.KVStore unit :=
  match es with
  | [] => ret tt
  | (e, a) :: rest => receive_entry e a ;; receive_entries rest
  end.

End masterless_node.

(** * client.py *)

Module client.
Import protocol.

(** The truth value of a decoded JSON value, as [not x] takes it. *)
Definition truthy (v : json) : bool :=
  match v with
  | JNull => false
  | JBool b => b
  | JNum n => negb (n =? 0)
  | JStr s => negb (bool_decide (s = EmptyString))
  | JArr xs => negb (bool_decide (xs = []))
  | JObj fields => negb (bool_decide (fields = []))
  end.

(** [KVClient._request(method, **kwargs)]: one connection, one request
    line, one response line.  [exchange] is the server at the other end:
    the response it sends to the request and the state it is left in; the
    text of the two lines is decoded to what was encoded. *)
Definition _request {S} (exchange : request → S → response * S) (req : request)
  : M S response :=
  λ s, let '(resp, s') := exchange req s in (Ok resp, s').

(** [if not resp.get("ok"): raise RuntimeError(resp.get("error", fallback))] *)
Definition check (fallback : string) (resp : response) : result unit :=
  if negb (truthy (default JNull (field "ok" resp)))
  then Raise (RuntimeError
                (indexes.py_str (default (JStr fallback) (field "error" resp))))
  else Ok tt.

Definition Get {S} (exchange : request → S → response * S) (key : string) : M S json :=
  bind (_request exchange (mkRequest (Some "get") (Some key) JNull [] false EmptyString))
    (λ resp s, match check "get failed" resp with
               | Raise e => (Raise e, s)
               | Ok _ => (Ok (default JNull (field "value" resp)), s)
               end).

(** [KVClient.Set] ([Set] is a reserved word here). *)
Definition Set_ {S} (exchange : request → S → response * S) (key : string)
    (value : json) (debug_simulate_fail : bool) : M S unit :=
  bind (_request exchange
          (mkRequest (Some "set") (Some key) value [] debug_simulate_fail EmptyString))
    (λ resp s, (check "set failed" resp, s)).

Definition Delete {S} (exchange : request → S → response * S) (key : string)
    (debug_simulate_fail : bool) : M S unit :=
  bind (_request exchange
          (mkRequest (Some "delete") (Some key) JNull [] debug_simulate_fail EmptyString))
    (λ resp s, (check "delete failed" resp, s)).

Definition BulkSet {S} (exchange : request → S → response * S)
    (items : list (string * json)) (debug_simulate_fail : bool) : M S unit :=
  match items with
  | [] => ret tt
  | _ =>
      bind (_request exchange
              (mkRequest (Some "bulk_set") None JNull items debug_simulate_fail EmptyString))
        (λ resp s, (check "bulk_set failed" resp, s))
  end.

Definition Search {S} (exchange : request → S → response * S) (query : string)
  : M S json :=
  bind (_request exchange (mkRequest (Some "search") None JNull [] false query))
    (λ resp s, match check "search failed" resp with
               | Raise e => (Raise e, s)
               | Ok _ => (Ok (default (JArr []) (field "value" resp)), s)
               end).

End client.

(** * cluster_client.py *)

Module cluster_client.
Import protocol.

(** What the probe of a port meets: the connection (or the send of the role
    request) fails, or [recv] returns these events one after the other. *)
Inductive probe :=
| ConnectFails
| Connected (sock : list recv_event).

(** How the loop
    [while b"\n" not in buf: buf += s.recv(4096); if not buf: break]
    ends: with [buf], with the exception of a [recv], or not at all. *)
Inductive read_outcome :=
| ReadEnds (buf : string)
| ReadRaises
| ReadSpins.

(** That loop.  Once the peer has closed, every [recv] returns [b""] at
    once: the [break] is taken when [buf] is empty, and with bytes in [buf]
    that hold no newline the loop goes round for ever. *)
Fixpoint read_reply (buf : string) (sock : list recv_event) : read_outcome :=
  if has_newline buf then ReadEnds buf
  else match sock with
       | [] => if bool_decide (buf = EmptyString) then ReadEnds buf else ReadSpins
       | TimedOut :: _ => ReadRaises
       | Data chunk :: rest =>
           if bool_decide (chunk = EmptyString)
           then (if bool_decide (buf = EmptyString) then ReadEnds buf else ReadSpins)
           else read_reply (buf +:+ chunk) rest
       end.

(** What becomes of the probe of one port. *)
Inductive probe_outcome :=
| IsPrimary
| NotPrimary
| NeverEnds.

(** The body of the inner loop of [_discover_primary] for one port.
    [loads] tells what [json.loads] and [r.get("primary")] make of the
    reply line ([ProbeFailed]: an exception); every exception is caught and
    the next port is tried. *)
Definition probe_port (loads : string → probe_result) (p : probe) : probe_outcome :=
  match p with
  | ConnectFails => NotPrimary
  | Connected sock =>
      match read_reply EmptyString sock with
      | ReadSpins => NeverEnds
      | ReadRaises => NotPrimary
      | ReadEnds buf =>
          if has_newline buf
          then match loads (split_newline buf).1 with
               | RoleReply true _ => IsPrimary
               | _ => NotPrimary
               end
          else NotPrimary
      end
  end.

(** How [for port in self._kv_ports] ends. *)
Inductive scan :=
| Found (port : Z)
| NoPrimary
| Hangs.

Fixpoint scan_ports (loads : string → probe_result) (probes : Z → probe)
    (ports : list Z) : scan :=
  match ports with
  | [] => NoPrimary
  | port :: rest =>
      match probe_port loads (probes port) with
      | IsPrimary => Found port
      | NotPrimary => scan_ports loads probes rest
      | NeverEnds => Hangs
      end
  end.

(** [for attempt in range(...)]: [n] attempts are left, [attempt] is the
    next; [probes attempt port] is what the probe of [port] meets then.
    [None]: the call never returns. *)
Fixpoint attempts (n : nat) (attempt : nat) (loads : string → probe_result)
    (probes : nat → Z → probe) (ports : list Z) : option (result Z) :=
  match n with
  | O => Some (Raise (RuntimeError "No primary found in cluster"))
  | S n =>
      match scan_ports loads (probes attempt) ports with
      | Found port => Some (Ok port)
      | Hangs => None
      | NoPrimary => attempts n (S attempt) loads probes ports
      end
  end.

(** [ClusterKVClient._discover_primary()] *)
Definition _discover_primary (loads : string → probe_result)
    (probes : nat → Z → probe) (kv_ports : list Z) : option (result Z) :=
  attempts 10 0 loads probes kv_ports.

End cluster_client.

(** * Vocabulary of the properties *)

Import protocol.

(** A request with a method, a key and a value, the other fields at their
    [req.get] defaults. *)
Definition request_of (m : string) (k : option string) (v : json)
    (its : list (string * json)) (dbg : bool) : request :=
  mkRequest (Some m) k v its dbg "".

(** A secondary of a three-node cluster, its store holding one pair. *)
Definition secondary1 : cluster_node.node :=
  cluster_node.mkNode 1 7001 8001 [8000; 8002] [7000; 7002]
    (store.mkKVStore {["k" := JStr "v"]} None None None)
    false (Some 8001) None.

(** Node 2 of a three-node cluster, a secondary, as [replication.py] holds it. *)
Definition cluster_node2 : replication.ClusterNode :=
  replication.mkClusterNode 2 7002 8002 [8000; 8001] [7000; 7001]
    (store.mkKVStore ∅ None None None) false
    (Some (replication.mkReceiver 8002 false)) None false.

(** Node 0 is down; node 1 answers that it is a secondary. *)
Definition node1_is_secondary (p : Z) : probe_result :=
  if bool_decide (p = 7001) then RoleReply false (Some 1) else ProbeFailed.

(** The environment makes a mutation fail with the message [msg]: the
    append raises, or it completes and the snapshot write, not skipped,
    raises. *)
Definition raises_with (dbg : bool) (o : store.io) (msg : string) : Prop :=
  (∃ r, store.on_append o = store.AppendRaises msg r)
  ∨ (store.on_append o = store.AppendDone
     ∧ dbg && store.random_lt_chance o = false
     ∧ ∃ r, store.on_snapshot o = store.SnapRaises msg r).

(** The index after [index_value] was called for each pair in turn. *)
Definition index_items (items : list (string * json)) (ix : indexes.FullTextIndex)
  : indexes.FullTextIndex :=
  foldl (λ ix kv, indexes.index_value kv.1 kv.2 ix) ix items.

Definition persist (e : store.entry) (dbg : bool) (o : store.io)
  : M store.KVStore unit :=
  store._append_wal e (store.on_append o) ;; store._save_snapshot dbg o.

(** [self._word_to_keys.get(w, set())] *)
Definition postings (m : gmap string (gset string)) (w : string) : gset string :=
  default ∅ (m !! w).

(** The index holds, for each word, the keys of the map whose value has it
    among its tokens. *)
Definition indexed (ix : indexes.FullTextIndex) (data : gmap string json) : Prop :=
  ∀ w k, k ∈ postings (indexes._word_to_keys ix) w
         ↔ ∃ v, data !! k = Some v ∧ w ∈ indexes._tokenize (indexes.py_str v).

Definition store_indexed (s : store.KVStore) : Prop :=
  match store._ft_index s with
  | Some ix => indexed ix (store._data s)
  | None => True
  end.

(** The keys the specification asks [search] for: those of the map whose
    value has every token of the query. *)
Definition matches (data : gmap string json) (query : string) (k : string) : Prop :=
  ∃ v, data !! k = Some v
       ∧ ∀ w, w ∈ indexes._tokenize query → w ∈ indexes._tokenize (indexes.py_str v).

(** The map after the entries [es] were applied, in order, to [data]. *)
Definition replay (es : list store.entry) (data : gmap string json) : gmap string json :=
  foldl (λ d e, store.apply_entry e d) data es.

(** A log of whole lines, one per entry, and nothing after the last newline. *)
Definition wal_of (es : list store.entry) : store.wal_file :=
  store.mkWal (store.LEntry <$> es) None.

(** The file at [_wal_path] is such a log of [es] (or is missing, and [es]
    is empty). *)
Definition clean_log (w : option store.wal_file) (es : list store.entry) : Prop :=
  (w = None ∧ es = []) ∨ w = Some (wal_of es).

(** The entry writes the key [k]. *)
Definition touches (k : string) (e : store.entry) : Prop :=
  match e with
  | store.ESet k' _ | store.EDelete k' => k = k'
  | store.EBulk items => k ∈ items.*1
  end.

#[local] Instance touches_dec k e : Decision (touches k e).
Proof. destruct e; cbn; apply _. Defined.

(** The store's files and memory agree: the log holds whole entry lines,
    the map is their replay, and the snapshot, if it loads, is the replay of
    the first [j] of them. *)
Definition consistent (s : store.KVStore) : Prop :=
  ∃ es, clean_log (store._wal s) es
        ∧ store._data s = replay es ∅
        ∧ ∃ j, store.load_snapshot (store._snapshot s) = replay (take j es) ∅.

Definition debug_of (c : store.op) : bool :=
  match c with
  | store.Set_ _ _ dbg | store.Delete_ _ dbg | store.BulkSet_ _ dbg => dbg
  end.

(** Every append of the run completes or raises before a byte is written. *)
Definition atomic_appends (calls : list (store.op * store.io)) : Prop :=
  Forall (λ co, store.on_append co.2 = store.AppendDone
                ∨ ∃ msg, store.on_append co.2 = store.AppendRaises msg store.NoBytes)
    calls.

(** The entry of a call, when its append completed. *)
Definition logged_entry (co : store.op * store.io) : option store.entry :=
  match store.on_append co.2 with
  | store.AppendDone => store.entry_of co.1
  | store.AppendRaises _ _ => None
  end.

Definition logged (calls : list (store.op * store.io)) : list store.entry :=
  omap logged_entry calls.

(** The log of [es] cut by a crash: its first [n] lines, and of the next
    line what [r] says. *)
Definition byte_prefix (es : list store.entry) (n : nat) (r : store.reached)
  : store.wal_file :=
  match es !! n with
  | Some e => store.write_line e r (wal_of (take n es))
  | None => wal_of es
  end.

(** The bulk record [items], at position [i] of the log, is in [data] whole
    or not at all, where [data] is what the first [m] records give. *)
Definition whole_or_absent (es : list store.entry) (m i : nat)
    (items : list (string * json)) (data : gmap string json) : Prop :=
  ((i < m)%nat
   ∧ ∀ k v, store.apply_items items ∅ !! k = Some v →
            data !! k = Some v ∨ Exists (touches k) (drop (S i) (take m es)))
  ∨ ((m ≤ i)%nat
     ∧ ∀ k, k ∈ items.*1 → Forall (λ e, ¬ touches k e) (take i es) → data !! k = None).

(** The store after [set("a", 1)] on a fresh data directory, killed while
    it appends the entry of a second call, part of which reached the file. *)
Definition torn_store : store.KVStore :=
  store.killed_in_append (store.ESet "a" (JNum 5)) store.SomeBytes
    (store.run_ops [(store.Set_ "a" (JNum 1) false, store.io_ok)]
       (store.mkKVStore ∅ None None None)).

(** A disk that is full at the append (before any byte is written, or after
    some), a snapshot write that fails, and one that is skipped. *)
Definition disk_full : store.io :=
  store.mkIO (store.AppendRaises "No space left on device" store.NoBytes) false
    store.SnapDone.
Definition disk_fills : store.io :=
  store.mkIO (store.AppendRaises "No space left on device" store.SomeBytes) false
    store.SnapDone.
Definition snapshot_fails : store.io :=
  store.mkIO store.AppendDone false (store.SnapRaises "Input/output error" store.SnapPartial).
Definition snapshot_skipped : store.io :=
  store.mkIO store.AppendDone true store.SnapDone.

Definition indexed_store : store.KVStore :=
  store.mkKVStore {["a" := JStr "old"]} None None
    (Some (indexes.index_value "a" (JStr "old") indexes.new)).

Definition some_calls : list (store.op * store.io) :=
  [(store.Set_ "k1" (JStr "Hello, World") true, snapshot_skipped);
   (store.BulkSet_ [("k2", JStr "hello there"); ("k3", JArr [JStr "World"; JNum 7])] false,
    store.io_ok);
   (store.Set_ "k2" (JStr "good-bye world") false, snapshot_fails);
   (store.Delete_ "k3" false, store.io_ok)].

Definition some_log : list store.entry :=
  [store.ESet "a" (JNum 0);
   store.EBulk [("a", JNum 1); ("b", JNum 2)];
   store.EDelete "a";
   store.EBulk [("c", JNum 3); ("d", JNum 4)]].

(** Every character of [s] satisfies [p]. *)
Fixpoint all_chars (p : ascii → bool) (s : string) : bool :=
  match s with
  | EmptyString => true
  | String c rest => p c && all_chars p rest
  end.

(** A character of a token: a digit, a letter from a to z, the underscore. *)
Definition is_token_char (c : ascii) : bool :=
  indexes.is_word_char c && negb (indexes.is_upper c).

(** No word of the index is left with an empty set of keys. *)
Definition no_empty_postings (ix : indexes.FullTextIndex) : Prop :=
  ∀ w, indexes._word_to_keys ix !! w ≠ Some ∅.

(** The key is in no set of the index. *)
Definition not_indexed (key : string) (ix : indexes.FullTextIndex) : Prop :=
  ∀ w, key ∉ postings (indexes._word_to_keys ix) w.

(** The terminated lines of the log (none when the file is missing). *)
Definition log_lines (s : store.KVStore) : list store.wal_line :=
  default [] (store.wal_lines <$> store._wal s).



(** One call of [set] for each pair, in order. *)
Definition sets_of (items : list (string * json)) (dbg : bool) (o : store.io)
  : list (store.op * store.io) :=
  (λ kv, (store.Set_ kv.1 kv.2 dbg, o)) <$> items.

(** The bytes of the chunks, one after the other. *)
Definition stream (chunks : list string) : string :=
  foldr (λ data rest, data +:+ rest) EmptyString chunks.

(** The request with its [debug_simulate_fail] flag taken off. *)
Definition without_debug (req : request) : request :=
  mkRequest (method req) (key req) (value req) (items req) false (query req).

(** The connections whose send completed, in the order of the list. *)
Definition survivors (sendall : nat → bool) (conns : list Z) : list Z :=
  mjoin (imap (λ i c, if sendall i then [c] else []) conns).

(** The standalone server as the other end of a client's exchange. *)
Definition standalone (o : store.io) (scores : list json) (req : request)
    (s : store.KVStore) : response * store.KVStore :=
  server.handle_request req o scores s.

(** The text [json.dumps] writes for a string with nothing to escape. *)
Definition quoted (s : string) : string :=
  String indexes.quote2 (s +:+ String indexes.quote2 EmptyString).

(** The request lines [{"method": "set", "key": "a", "value": 1}] and
    [{"method": "get", "key": "a"}] (the second cut after its brace), and
    what [decode_request] makes of them and of text that is no JSON. *)
Definition line_set_a : string :=
  "{" +:+ quoted "method" +:+ ": " +:+ quoted "set" +:+ ", " +:+ quoted "key" +:+ ": "
  +:+ quoted "a" +:+ ", " +:+ quoted "value" +:+ ": 1}".
Definition line_get_a_rest : string :=
  quoted "method" +:+ ": " +:+ quoted "get" +:+ ", " +:+ quoted "key" +:+ ": "
  +:+ quoted "a" +:+ "}".
Definition line_get_a : string := "{" +:+ line_get_a_rest.

Definition decode_two (bytes : string) : decoded :=
  if bool_decide (bytes = line_set_a)
  then Decoded (request_of "set" (Some "a") (JNum 1) [] false)
  else if bool_decide (bytes = line_get_a)
  then Decoded (request_of "get" (Some "a") JNull [] false)
  else NotJson.

(** The log entries [{"op": "set", "key": "a", "value": 1}] and
    [{"op": "delete", "key": "a"}] as the primary sends them, and what
    [json.loads] makes of them. *)
Definition entry_set_a : string :=
  "{" +:+ quoted "op" +:+ ": " +:+ quoted "set" +:+ ", " +:+ quoted "key" +:+ ": "
  +:+ quoted "a" +:+ ", " +:+ quoted "value" +:+ ": 1}".
Definition entry_delete_a : string :=
  "{" +:+ quoted "op" +:+ ": " +:+ quoted "delete" +:+ ", " +:+ quoted "key" +:+ ": "
  +:+ quoted "a" +:+ "}".

Definition loads_two (line : string) : store.wal_line :=
  if bool_decide (line = entry_set_a) then store.LEntry (store.ESet "a" (JNum 1))
  else if bool_decide (line = entry_delete_a) then store.LEntry (store.EDelete "a")
  else store.LNotJson.

(** A primary of a three-node cluster, connected to its two secondaries. *)
Definition primary0 : cluster_node.node :=
  cluster_node.mkNode 0 7000 8000 [8001; 8002] [7001; 7002]
    (store.mkKVStore {["k" := JStr "v"]} None None None)
    true None (Some (cluster_node.mkSender [8001; 8002] [8001; 8002])).

(** A response that reports a success, with a value or without, or a
    failure with its message. *)
Definition success_or_failure (resp : response) : Prop :=
  (∃ v, resp = encode_response true v None)
  ∨ (∃ msg, resp = encode_response false JNull (Some msg)).

(** What a call of the client makes of the outcome of the call the server
    made for it: an exception [e] comes back as [RuntimeError(str(e))]. *)
Definition client_outcome (r : result unit * store.KVStore) : result unit * store.KVStore :=
  match r with
  | (Ok _, s') => (Ok tt, s')
  | (Raise e, s') => (Raise (RuntimeError (str_exn e)), s')
  end.

(** A master-less node with connections to two peers. *)
Definition masterless1 : masterless_node.node :=
  masterless_node.mkNode (store.mkKVStore {["k" := JStr "v"]} None None None)
    (masterless_node.mkBroadcaster [8001; 8002] [8001; 8002]).

(** The entries the primary delivered in the course of the steps, in order. *)
Definition replicated_entries (steps : list cluster_node.step) : list store.entry :=
  omap (λ st, match st with
              | cluster_node.Replicated e => Some e
              | _ => None
              end) steps.

(** Every peer answers the role request as node 0, the primary. *)
Definition node0_is_primary (p : Z) : probe_result := RoleReply true (Some 0).

(** * Properties *)

(** ** The wire protocol of the standalone server *)

Lemma encode_response_value_field ok v err :
  field "value" (encode_response ok v err) = if is_None v then None else Some v.
Proof. unfold encode_response. destruct v, err; reflexivity. Qed.

Lemma server_get_response (k : string) v its dbg o scores (s : store.KVStore) :
  server.handle_request (request_of "get" (Some k) v its dbg) o scores s
  = (encode_response true (store.get k s) None, s).
Proof. reflexivity. Qed.

(** C5, as stated, fails: a key stored with JSON null and a key that is
    absent get the same response, [{"ok": true}], without a [value] field. *)
Lemma get_null_has_no_value_field :
  let s := store.mkKVStore {["k" := JNull]} None None None in
  let absent := store.mkKVStore ∅ None None None in
  let req := request_of "get" (Some "k") JNull [] false in
  store._data s !! "k" = Some JNull
  ∧ (server.handle_request req store.io_ok [] s).1 = [("ok", JBool true)]
  ∧ field "value" (server.handle_request req store.io_ok [] s).1 ≠ Some JNull
  ∧ (server.handle_request req store.io_ok [] s).1
    = (server.handle_request req store.io_ok [] absent).1.
Proof. vm_compute. repeat split; congruence. Qed.

(** C5, amended: the response to [get] carries a [value] field exactly when
    the key is mapped to a value other than null, and then it is that value;
    an absent key and a key stored with null both get [{"ok": true}].  The
    store is left as it was. *)
Theorem get_response_value_iff_non_null (k : string) v its dbg o scores
    (s : store.KVStore) :
  let resp := (server.handle_request (request_of "get" (Some k) v its dbg) o scores s).1 in
  field "ok" resp = Some (JBool true)
  ∧ field "value" resp
    = match store._data s !! k with
      | Some JNull | None => None
      | Some x => Some x
      end
  ∧ (server.handle_request (request_of "get" (Some k) v its dbg) o scores s).2 = s.
Proof.
  rewrite server_get_response. cbn [fst snd].
  split; [reflexivity|]. split; [|reflexivity].
  rewrite encode_response_value_field. unfold store.get.
  destruct (store._data s !! k) as [[]|]; reflexivity.
Qed.

(** ** Roles *)

Lemma method_is_false (name : string) (req : request) :
  method req ≠ Some name → method_is name req = false.
Proof. intros H. unfold method_is. by apply bool_decide_eq_false. Qed.

(** C10: on a node whose [is_primary] is false, a request for any method
    other than [role] (the read-only ones included) is answered
    [{"ok": false, "error": "not primary"}], and the node, its store
    included, is left as it was. *)
Theorem secondary_rejects_all_but_role (req : request) (o : store.io)
    (delivers : Z → bool) (n : cluster_node.node) :
  cluster_node.is_primary n = false →
  method req ≠ Some "role" →
  cluster_node.handle_request req o delivers n
  = ([("ok", JBool false); ("error", JStr "not primary")], n).
Proof.
  intros Hsec Hm. unfold cluster_node.handle_request.
  rewrite (method_is_false _ _ Hm), Hsec. reflexivity.
Qed.

Lemma secondary_rejects_get_witness :
  cluster_node.handle_request (request_of "get" (Some "k") JNull [] false)
    store.io_ok (λ _, true) secondary1
  = ([("ok", JBool false); ("error", JStr "not primary")], secondary1)
  ∧ cluster_node.handle_request (request_of "search" None JNull [] false)
      store.io_ok (λ _, true) secondary1
    = ([("ok", JBool false); ("error", JStr "not primary")], secondary1).
Proof.
  split; apply secondary_rejects_all_but_role; first [reflexivity | discriminate].
Defined.

Lemma apply_and_replicate_keeps_role e o delivers (n : cluster_node.node) :
  cluster_node.is_primary (cluster_node.apply_and_replicate e o delivers n).2
  = cluster_node.is_primary n.
Proof.
  unfold cluster_node.apply_and_replicate.
  destruct (bind _ _ (cluster_node.store_ n)) as [[[]|err] s']; reflexivity.
Qed.

Lemma bind_ret_snd {S A B} (c : M S A) (b : B) (s : S) :
  ((c ;; ret b) s).2 = (c s).2.
Proof. unfold bind, ret. destruct (c s) as [[a|e] s']; reflexivity. Qed.

Lemma cluster_dispatch_keeps_role req o delivers (n : cluster_node.node) :
  cluster_node.is_primary (cluster_node.dispatch req o delivers n).2
  = cluster_node.is_primary n.
Proof.
  unfold cluster_node.dispatch.
  destruct (method_is "get" req); [destruct (key req); reflexivity|].
  destruct (method_is "set" req).
  { destruct (key req); [|reflexivity].
    rewrite bind_ret_snd. apply apply_and_replicate_keeps_role. }
  destruct (method_is "delete" req).
  { destruct (key req); [|reflexivity].
    rewrite bind_ret_snd. apply apply_and_replicate_keeps_role. }
  destruct (method_is "bulk_set" req); [|reflexivity].
  destruct (items req); [reflexivity|].
  rewrite bind_ret_snd. apply apply_and_replicate_keeps_role.
Qed.

Lemma cluster_step_keeps_primary (st : cluster_node.step) (n : cluster_node.node) :
  cluster_node.is_primary n = true →
  cluster_node.is_primary (cluster_node.do_step st n) = true.
Proof.
  intros Hp. destruct st as [req o delivers | probe connects | e]; cbn.
  - unfold cluster_node.handle_request.
    destruct (method_is "role" req); [exact Hp|]. rewrite Hp. cbn.
    pose proof (cluster_dispatch_keeps_role req o delivers n) as Hd.
    destruct (cluster_node.dispatch req o delivers n) as [[resp|err] n']; cbn in *; congruence.
  - unfold cluster_node.election_round. rewrite Hp. exact Hp.
  - unfold cluster_node.receive_entry. destruct (cluster_node.receiver n); exact Hp.
Qed.

Lemma replication_step_keeps_primary (st : replication.step) (n : replication.ClusterNode) :
  replication._is_primary n = true →
  replication._is_primary (replication.do_step st n) = true.
Proof.
  intros Hp. destruct st; cbn.
  - unfold replication.start. rewrite Hp. exact Hp.
  - exact Hp.
  - unfold replication._election_loop. rewrite Hp. destruct (replication._stop n); exact Hp.
  - unfold replication._run_election. rewrite Hp. exact Hp.
  - reflexivity.
  - unfold replication._apply_entry.
    destruct (replication._receiver n) as [r|]; [destruct (replication._stopped r)|]; exact Hp.
  - unfold replication.apply_and_replicate. rewrite Hp. exact Hp.
Qed.

(** C7: once [is_primary] is true it stays true, through every request
    handled, election turn and replicated entry, in [cluster_node.py] and in
    the [ClusterNode] of [replication.py] alike; a step therefore either
    keeps the flag or takes it from false to true. *)
Theorem is_primary_never_cleared :
  (∀ (before after : list cluster_node.step) (n : cluster_node.node),
     cluster_node.is_primary (cluster_node.run before n) = true →
     cluster_node.is_primary (cluster_node.run (before ++ after) n) = true)
  ∧ (∀ (before after : list replication.step) (n : replication.ClusterNode),
     replication._is_primary (replication.run before n) = true →
     replication._is_primary (replication.run (before ++ after) n) = true).
Proof.
  split; intros before after n; unfold cluster_node.run, replication.run;
    rewrite foldl_app.
  - generalize (foldl (λ n st, cluster_node.do_step st n) n before).
    induction after as [|st after IH]; intros m Hp; [exact Hp|].
    cbn. apply IH. by apply cluster_step_keeps_primary.
  - generalize (foldl (λ n st, replication.do_step st n) n before).
    induction after as [|st after IH]; intros m Hp; [exact Hp|].
    cbn. apply IH. by apply replication_step_keeps_primary.
Qed.

(** ** Election *)

Lemma probe_peers_true my_id my_port probe (ports : list Z) :
  cluster_node.probe_peers my_id my_port probe ports = true
  ↔ ∃ p peer_id, p ∈ ports ∧ p ≠ my_port
      ∧ probe p = RoleReply true peer_id ∧ default 999 peer_id < my_id.
Proof.
  induction ports as [|q ports IH]; cbn.
  - split; [discriminate|]. intros (p & ? & Hin & _). by apply elem_of_nil in Hin.
  - case_bool_decide as Hq.
    + rewrite IH. split.
      * intros (p & i & Hin & ?). exists p, i. split; [by right | done].
      * intros (p & i & Hin & Hne & ?). exists p, i.
        apply elem_of_cons in Hin as [->|Hin]; [congruence | done].
    + destruct (cluster_node.lower_primary my_id (probe q)) eqn:Hl.
      * split; [intros _ | done].
        unfold cluster_node.lower_primary in Hl.
        destruct (probe q) as [|primary peer_id] eqn:Hp; [discriminate|].
        apply andb_true_iff in Hl as [-> Hlt]. apply bool_decide_eq_true in Hlt.
        exists q, peer_id. split; [by left | done].
      * rewrite IH. split.
        -- intros (p & i & Hin & ?). exists p, i. split; [by right | done].
        -- intros (p & i & Hin & Hne & Hp & Hlt). exists p, i.
           apply elem_of_cons in Hin as [->|Hin]; [|done].
           unfold cluster_node.lower_primary in Hl. rewrite Hp in Hl.
           cbn in Hl. by rewrite bool_decide_eq_true_2 in Hl.
Qed.

Lemma gives_up_true my_id my_port probe (ports : list Z) :
  replication.gives_up my_id my_port probe ports = true
  ↔ ∃ p primary peer_id, p ∈ ports ∧ p ≠ my_port
      ∧ probe p = RoleReply primary peer_id
      ∧ (primary = true ∨ default 999 peer_id < my_id).
Proof.
  induction ports as [|q ports IH]; cbn.
  - split; [discriminate|]. intros (p & ? & ? & Hin & _). by apply elem_of_nil in Hin.
  - assert (Hrest :
      (∃ p primary peer_id, p ∈ ports ∧ p ≠ my_port
         ∧ probe p = RoleReply primary peer_id
         ∧ (primary = true ∨ default 999 peer_id < my_id))
      → ∃ p primary peer_id, p ∈ q :: ports ∧ p ≠ my_port
         ∧ probe p = RoleReply primary peer_id
         ∧ (primary = true ∨ default 999 peer_id < my_id)).
    { intros (p & b & i & Hin & ?). exists p, b, i. split; [by right | done]. }
    case_bool_decide as Hq.
    + rewrite IH. split; [exact Hrest|].
      intros (p & b & i & Hin & Hne & ?). exists p, b, i.
      apply elem_of_cons in Hin as [->|Hin]; [congruence | done].
    + destruct (probe q) as [|primary peer_id] eqn:Hp.
      * rewrite IH. split; [exact Hrest|].
        intros (p & b & i & Hin & Hne & Hp' & ?). exists p, b, i.
        apply elem_of_cons in Hin as [->|Hin]; [congruence | done].
      * destruct primary.
        { split; [intros _ | done]. exists q, true, peer_id.
          split; [by left|]. split; [done|]. split; [done | by left]. }
        case_bool_decide as Hlt.
        { split; [intros _ | done]. exists q, false, peer_id.
          split; [by left|]. split; [done|]. split; [done | by right]. }
        rewrite IH. split; [exact Hrest|].
        intros (p & b & i & Hin & Hne & Hp' & Hor). exists p, b, i.
        apply elem_of_cons in Hin as [->|Hin]; [|done].
        rewrite Hp in Hp'. injection Hp' as <- <-.
        destruct Hor as [?|?]; [discriminate | contradiction].
Qed.

(** C6, as stated, fails for [ClusterNode._run_election]: a secondary stays
    secondary although no peer reports itself primary (a reachable secondary
    with a smaller id is enough). *)
Lemma run_election_yields_to_lower_secondary :
  replication._is_primary
    (replication._run_election node1_is_secondary (λ _, true) cluster_node2) = false
  ∧ ¬ ∃ p peer_id, p ∈ replication.peer_kv_ports cluster_node2
        ∧ node1_is_secondary p = RoleReply true peer_id.
Proof.
  split; [reflexivity|].
  intros (p & i & _ & Hp). unfold node1_is_secondary in Hp.
  case_bool_decide; discriminate.
Qed.

(** C6, amended.  In [election_loop] of [cluster_node.py] a secondary stays
    secondary exactly when a reachable peer other than itself reports
    [primary] with a [node_id] (999 when the reply has none) below its own,
    and promotes itself otherwise (its receiver is stopped, a sender is
    started).  In [ClusterNode._run_election] of [replication.py] it stays
    secondary exactly when a reachable peer reports [primary], whatever its
    id, or reports a [node_id] below its own. *)
Theorem election_abandons_iff :
  (∀ probe connects (n : cluster_node.node),
     cluster_node.is_primary n = false →
     (cluster_node.is_primary (cluster_node.election_round probe connects n) = false
      ↔ ∃ p peer_id, p ∈ cluster_node.other_kv_ports n ∧ p ≠ cluster_node.kv_port n
          ∧ probe p = RoleReply true peer_id
          ∧ default 999 peer_id < cluster_node.node_id n)
     ∧ (cluster_node.is_primary (cluster_node.election_round probe connects n) = true →
        cluster_node.receiver (cluster_node.election_round probe connects n) = None
        ∧ is_Some (cluster_node.sender (cluster_node.election_round probe connects n))))
  ∧ (∀ probe connects (n : replication.ClusterNode),
     replication._is_primary n = false →
     (replication._is_primary (replication._run_election probe connects n) = false
      ↔ ∃ p primary peer_id, p ∈ replication.peer_kv_ports n
          ∧ p ≠ replication.kv_port n
          ∧ probe p = RoleReply primary peer_id
          ∧ (primary = true ∨ default 999 peer_id < replication.node_id n))).
Proof.
  split.
  - intros probe connects n Hs. unfold cluster_node.election_round. rewrite Hs.
    rewrite <- probe_peers_true.
    destruct (cluster_node.probe_peers _ _ _ _); cbn.
    + split; [by split | by rewrite Hs].
    + split; [split; discriminate | by eauto].
  - intros probe connects n Hs. unfold replication._run_election. rewrite Hs.
    rewrite <- gives_up_true.
    destruct (replication.gives_up _ _ _ _); cbn; split; done.
Qed.

(** ** Mutations of the store *)

Lemma store_pairs_spec items (s : store.KVStore) :
  store.store_pairs items s
  = (Ok tt, store.mkKVStore (store.apply_items items (store._data s)) (store._wal s)
              (store._snapshot s) (index_items items <$> store._ft_index s)).
Proof.
  revert s. induction items as [|[k v] items IH]; intros s; cbn.
  - unfold ret. destruct s as [d w p [ix|]]; reflexivity.
  - rewrite IH. cbn. unfold store.apply_items.
    destruct (store._ft_index s); reflexivity.
Qed.

(** What [_append_wal] followed by [_save_snapshot] leave of the memory:
    the map and the index are not touched, and the two raise or not as the
    environment says. *)
Lemma persist_spec e dbg o (s : store.KVStore) :
  let r := persist e dbg o s in
  store._data r.2 = store._data s
  ∧ store._ft_index r.2 = store._ft_index s
  ∧ (∀ msg, raises_with dbg o msg → r.1 = Raise (OSError msg))
  ∧ (∀ msg, store.on_append o = store.AppendRaises msg store.NoBytes →
       store._wal r.2 = store._wal s ∧ store._snapshot r.2 = store._snapshot s).
Proof.
  unfold persist, bind, store._append_wal, store._save_snapshot, raises_with. cbn.
  destruct (store.on_append o) as [|m r] eqn:Ha.
  - cbn. destruct (dbg && store.random_lt_chance o) eqn:Hskip; cbn.
    + repeat split; try done.
      intros msg [[? ?]|(_ & ? & _)]; congruence.
    + destruct (store.on_snapshot o) as [|m r] eqn:Hs; cbn; repeat split; try done.
      * intros msg [[? ?]|(_ & _ & ? & ?)]; congruence.
      * intros msg [[? ?]|(_ & _ & ? & ?)]; congruence.
  - destruct r; cbn; repeat split; try done;
      try (intros msg [[? ?]|(? & _)]; congruence);
      intros msg [= <-]; done.
Qed.

Lemma persist_data e dbg o (s : store.KVStore) :
  store._data (persist e dbg o s).2 = store._data s.
Proof. apply persist_spec. Qed.

Lemma persist_ft_index e dbg o (s : store.KVStore) :
  store._ft_index (persist e dbg o s).2 = store._ft_index s.
Proof. apply persist_spec. Qed.

Create Rewrite HintDb persist.
#[local] Hint Rewrite persist_data persist_ft_index : persist.

Lemma set_eq k v dbg o (s : store.KVStore) :
  store.set k v dbg o s
  = persist (store.ESet k v) dbg o
      (store.mkKVStore (<[k := v]> (store._data s)) (store._wal s) (store._snapshot s)
         (indexes.index_value k v <$> store._ft_index s)).
Proof. reflexivity. Qed.

Lemma delete_eq k dbg o (s : store.KVStore) :
  store.delete k dbg o s
  = persist (store.EDelete k) dbg o
      (store.mkKVStore (base.delete k (store._data s)) (store._wal s) (store._snapshot s)
         (indexes.remove_key k <$> store._ft_index s)).
Proof. reflexivity. Qed.

Lemma bulk_set_eq kv its dbg o (s : store.KVStore) :
  store.bulk_set (kv :: its) dbg o s
  = persist (store.EBulk (kv :: its)) dbg o
      (store.mkKVStore (store.apply_items (kv :: its) (store._data s)) (store._wal s)
         (store._snapshot s) (index_items (kv :: its) <$> store._ft_index s)).
Proof.
  unfold store.bulk_set. unfold bind at 1. by rewrite store_pairs_spec.
Qed.

Lemma server_set_eq k v its dbg o scores (s : store.KVStore) :
  server.handle_request (request_of "set" (Some k) v its dbg) o scores s
  = match (store.set k v dbg o ;; ret (encode_response true JNull None)) s with
    | (Ok resp, s') => (resp, s')
    | (Raise e, s') => (encode_response false JNull (Some (str_exn e)), s')
    end.
Proof. reflexivity. Qed.

Lemma server_delete_eq k v its dbg o scores (s : store.KVStore) :
  server.handle_request (request_of "delete" (Some k) v its dbg) o scores s
  = match (store.delete k dbg o ;; ret (encode_response true JNull None)) s with
    | (Ok resp, s') => (resp, s')
    | (Raise e, s') => (encode_response false JNull (Some (str_exn e)), s')
    end.
Proof. reflexivity. Qed.

Lemma server_bulk_set_eq k v its dbg o scores (s : store.KVStore) :
  server.handle_request (request_of "bulk_set" k v its dbg) o scores s
  = match (store.bulk_set its dbg o ;; ret (encode_response true JNull None)) s with
    | (Ok resp, s') => (resp, s')
    | (Raise e, s') => (encode_response false JNull (Some (str_exn e)), s')
    end.
Proof. reflexivity. Qed.

(** A mutation whose persisting fails: the response and the memory. *)
Lemma failed_persist (c : M store.KVStore unit) e dbg o msg (s s0 : store.KVStore) :
  raises_with dbg o msg →
  c s = persist e dbg o s0 →
  let r := match (c ;; ret (encode_response true JNull None)) s with
           | (Ok resp, s') => (resp, s')
           | (Raise e, s') => (encode_response false JNull (Some (str_exn e)), s')
           end in
  r.1 = [("ok", JBool false); ("error", JStr msg)]
  ∧ store._data r.2 = store._data s0
  ∧ store._ft_index r.2 = store._ft_index s0
  ∧ (store.on_append o = store.AppendRaises msg store.NoBytes →
     store._wal r.2 = store._wal s0 ∧ store._snapshot r.2 = store._snapshot s0).
Proof.
  intros Hio Hc. unfold bind at 1. rewrite Hc.
  pose proof (persist_spec e dbg o s0) as P. cbn zeta in P.
  destruct P as (Pd & Pi & Pr & Pw). specialize (Pr msg Hio).
  destruct (persist e dbg o s0) as [[[]|e'] s'] eqn:E; cbn in Pr; [discriminate|].
  injection Pr as ->. cbn in *.
  split; [done|]. split; [done|]. split; [done|]. intros H. by apply (Pw msg).
Qed.

(** ** The full-text index *)

Lemma postings_discard key m w k :
  k ∈ postings (indexes.discard_key key m) w ↔ k ≠ key ∧ k ∈ postings m w.
Proof.
  unfold postings, indexes.discard_key. rewrite lookup_fmap.
  destruct (m !! w); cbn; set_solver.
Qed.

Lemma postings_add key m w' w k :
  k ∈ postings (indexes.add_posting key m w') w
  ↔ k ∈ postings m w ∨ (k = key ∧ w = w').
Proof.
  unfold postings, indexes.add_posting. rewrite lookup_insert.
  case_decide as Hw; cbn.
  - subst w'. set_solver.
  - split; [by left|]. intros [?|[_ ?]]; [done | congruence].
Qed.

Lemma postings_foldl_add key ws m w k :
  k ∈ postings (foldl (indexes.add_posting key) m ws) w
  ↔ k ∈ postings m w ∨ (k = key ∧ w ∈ ws).
Proof.
  revert m. induction ws as [|w' ws IH]; intros m; cbn.
  - split; [by left|]. intros [?|[_ H]]; [done | by apply elem_of_nil in H].
  - rewrite IH, postings_add, elem_of_cons. naive_solver.
Qed.

Lemma postings_index_value key v ix w k :
  k ∈ postings (indexes._word_to_keys (indexes.index_value key v ix)) w
  ↔ (k ≠ key ∧ k ∈ postings (indexes._word_to_keys ix) w)
    ∨ (k = key ∧ w ∈ indexes._tokenize (indexes.py_str v)).
Proof.
  unfold indexes.index_value. cbn. by rewrite postings_foldl_add, postings_discard.
Qed.

Lemma postings_remove_key key ix w k :
  k ∈ postings (indexes._word_to_keys (indexes.remove_key key ix)) w
  ↔ k ≠ key ∧ k ∈ postings (indexes._word_to_keys ix) w.
Proof.
  rewrite <- postings_discard. unfold indexes.remove_key. cbn.
  set (m := indexes.discard_key key (indexes._word_to_keys ix)).
  unfold postings.
  destruct (filter _ m !! w) as [ks|] eqn:Hf.
  - apply map_lookup_filter_Some in Hf as [-> _]. done.
  - apply map_lookup_filter_None in Hf as [->|Hf]; [done|].
    destruct (m !! w) as [ks|] eqn:Hm; [|done]. cbn.
    destruct (decide (ks = ∅)) as [->|Hne]; [done|].
    exfalso. by apply (Hf ks).
Qed.

Lemma indexed_index_value key v ix data :
  indexed ix data → indexed (indexes.index_value key v ix) (<[key := v]> data).
Proof.
  intros Hix w k. rewrite postings_index_value, (Hix w k). split.
  - intros [[Hne (x & Hk & Hw)]|[-> Hw]].
    + exists x. by rewrite lookup_insert_ne.
    + exists v. by rewrite lookup_insert_eq.
  - intros (x & Hk & Hw). destruct (decide (k = key)) as [->|Hne].
    + right. rewrite lookup_insert_eq in Hk. by injection Hk as ->.
    + left. rewrite lookup_insert_ne in Hk by done. eauto.
Qed.

Lemma indexed_remove_key key ix data :
  indexed ix data → indexed (indexes.remove_key key ix) (base.delete key data).
Proof.
  intros Hix w k. rewrite postings_remove_key, (Hix w k). split.
  - intros [Hne (x & Hk & Hw)]. exists x. by rewrite lookup_delete_ne.
  - intros (x & Hk & Hw). destruct (decide (k = key)) as [->|Hne].
    + by rewrite lookup_delete_eq in Hk.
    + rewrite lookup_delete_ne in Hk by done. eauto.
Qed.

Lemma indexed_new : indexed indexes.new ∅.
Proof.
  intros w k. unfold postings. cbn. rewrite lookup_empty. cbn. split.
  - intros H. by apply not_elem_of_empty in H.
  - intros (v & Hk & _). by rewrite lookup_empty in Hk.
Qed.

Lemma indexed_build_index data : indexed (store.build_index data) data.
Proof.
  unfold store.build_index.
  apply (map_fold_weak_ind (λ ix m, indexed ix m)).
  - apply indexed_new.
  - intros k v m ix _ Hix. by apply indexed_index_value.
Qed.

Lemma indexed_index_items items ix data :
  indexed ix data → indexed (index_items items ix) (store.apply_items items data).
Proof.
  revert ix data. induction items as [|[k v] items IH]; intros ix data Hix; [done|].
  cbn. apply IH. by apply indexed_index_value.
Qed.

Lemma postings_index_items items ix w k :
  k ∈ postings (indexes._word_to_keys (index_items items ix)) w
  ↔ ((k ∉ items.*1) ∧ k ∈ postings (indexes._word_to_keys ix) w)
    ∨ (∃ v, store.apply_items items ∅ !! k = Some v
            ∧ w ∈ indexes._tokenize (indexes.py_str v)).
Proof.
  induction items as [|[k0 v0] items IH] using rev_ind.
  - cbn. rewrite lookup_empty. split.
    + intros H. left. split; [apply not_elem_of_nil | done].
    + intros [[_ H]|(v & Hv & _)]; [done | discriminate].
  - unfold index_items, store.apply_items. rewrite !foldl_app. cbn [foldl fst snd].
    fold (index_items items ix). fold (store.apply_items items ∅).
    rewrite postings_index_value, IH, fmap_app, elem_of_app. cbn.
    rewrite list_elem_of_singleton.
    destruct (decide (k = k0)) as [->|Hne].
    + rewrite lookup_insert_eq. split.
      * intros [[H _]|[_ H]]; [done|]. right. by exists v0.
      * intros [[H _]|(v & [= <-] & H)]; [exfalso; apply H; by right | by right].
    + rewrite lookup_insert_ne by done. split.
      * intros [[_ [[H1 H2]|H]]|[H _]]; [left | by right | done].
        split; [|done]. intros [?|?]; done.
      * intros [[H1 H2]|H]; left; (split; [done|]); [left | by right].
        split; [|done]. intros H. apply H1. by left.
Qed.

(** C9: [set], [delete] and [bulk_set] change the map and the index before
    they append to the log.  So when the append or the snapshot write
    raises, the client is sent [{"ok": false, "error": <message>}] while the
    map and the index hold the whole mutation: the index, if there is one,
    has the key of a [set] under the tokens of the new value and no others,
    has lost the key of a [delete], and has every key of a [bulk_set] under
    the tokens of the last value the list gives it; the other keys are
    where they were.  When the append wrote nothing, neither file has
    changed. *)
Theorem failed_mutation_is_applied_in_memory (k : string) (v : json)
    (its : list (string * json)) (dbg : bool) (o : store.io) (scores : list json)
    (s : store.KVStore) (msg : string) :
  raises_with dbg o msg →
  let failure := [("ok", JBool false); ("error", JStr msg)] in
  let unlogged (s' : store.KVStore) :=
    store.on_append o = store.AppendRaises msg store.NoBytes →
    store._wal s' = store._wal s ∧ store._snapshot s' = store._snapshot s in
  (let r := server.handle_request (request_of "set" (Some k) v its dbg) o scores s in
   r.1 = failure
   ∧ store._data r.2 = <[k := v]> (store._data s)
   ∧ store._ft_index r.2 = indexes.index_value k v <$> store._ft_index s
   ∧ (∀ ix, store._ft_index s = Some ix →
        ∃ ix', store._ft_index r.2 = Some ix'
               ∧ ∀ w k', k' ∈ postings (indexes._word_to_keys ix') w
                         ↔ (k' ≠ k ∧ k' ∈ postings (indexes._word_to_keys ix) w)
                           ∨ (k' = k ∧ w ∈ indexes._tokenize (indexes.py_str v)))
   ∧ unlogged r.2)
  ∧ (let r := server.handle_request (request_of "delete" (Some k) v its dbg) o scores s in
     r.1 = failure
     ∧ store._data r.2 = base.delete k (store._data s)
     ∧ store._ft_index r.2 = indexes.remove_key k <$> store._ft_index s
     ∧ (∀ ix, store._ft_index s = Some ix →
          ∃ ix', store._ft_index r.2 = Some ix'
                 ∧ ∀ w k', k' ∈ postings (indexes._word_to_keys ix') w
                           ↔ k' ≠ k ∧ k' ∈ postings (indexes._word_to_keys ix) w)
     ∧ unlogged r.2)
  ∧ (its ≠ [] →
     let r := server.handle_request (request_of "bulk_set" (Some k) v its dbg) o scores s in
     r.1 = failure
     ∧ store._data r.2 = store.apply_items its (store._data s)
     ∧ store._ft_index r.2 = index_items its <$> store._ft_index s
     ∧ (∀ ix, store._ft_index s = Some ix →
          ∃ ix', store._ft_index r.2 = Some ix'
                 ∧ ∀ w k', k' ∈ postings (indexes._word_to_keys ix') w
                           ↔ ((k' ∉ its.*1) ∧ k' ∈ postings (indexes._word_to_keys ix) w)
                             ∨ (∃ v', store.apply_items its ∅ !! k' = Some v'
                                      ∧ w ∈ indexes._tokenize (indexes.py_str v')))
     ∧ unlogged r.2).
Proof.
  intros Hio failure unlogged. subst failure unlogged. cbn zeta.
  split; [|split].
  - rewrite server_set_eq.
    destruct (failed_persist (store.set k v dbg o) (store.ESet k v) dbg o msg s _ Hio
                (set_eq k v dbg o s)) as (H1 & H2 & H3 & H4).
    cbn [store._data store._ft_index store._wal store._snapshot] in H2, H3, H4.
    repeat (split; [done|]). split; [|done].
    intros ix Hix. rewrite H3, Hix. eexists. split; [reflexivity|].
    intros w k'. apply postings_index_value.
  - rewrite server_delete_eq.
    destruct (failed_persist (store.delete k dbg o) (store.EDelete k) dbg o msg s _ Hio
                (delete_eq k dbg o s)) as (H1 & H2 & H3 & H4).
    cbn [store._data store._ft_index store._wal store._snapshot] in H2, H3, H4.
    repeat (split; [done|]). split; [|done].
    intros ix Hix. rewrite H3, Hix. eexists. split; [reflexivity|].
    intros w k'. apply postings_remove_key.
  - intros Hne. destruct its as [|kv its]; [done|]. rewrite server_bulk_set_eq.
    destruct (failed_persist (store.bulk_set (kv :: its) dbg o) (store.EBulk (kv :: its))
                dbg o msg s _ Hio (bulk_set_eq kv its dbg o s)) as (H1 & H2 & H3 & H4).
    cbn [store._data store._ft_index store._wal store._snapshot] in H2, H3, H4.
    repeat (split; [done|]). split; [|done].
    intros ix Hix. rewrite H3, Hix. eexists. split; [reflexivity|].
    intros w k'. apply postings_index_items.
Qed.

Lemma elem_of_foldl_intersection (k : string) (rest : list (gset string)) (s0 : gset string) :
  k ∈ foldl (λ result s, result ∩ s) s0 rest ↔ k ∈ s0 ∧ ∀ s, s ∈ rest → k ∈ s.
Proof.
  revert s0. induction rest as [|s rest IH]; intros s0; cbn.
  - split; [|by intros [? _]]. intros H. split; [done|]. intros s Hs.
    by apply elem_of_nil in Hs.
  - rewrite IH, elem_of_intersection. split.
    + intros [[H0 Hs] Hrest]. split; [done|]. intros s' Hs'.
      apply elem_of_cons in Hs' as [->|?]; auto.
    + intros [H0 Hall]. split; [split; [done|]|].
      * apply Hall. by left.
      * intros s' Hs'. apply Hall. by right.
Qed.

Lemma elem_of_search query ix k :
  k ∈ indexes.search query ix
  ↔ indexes._tokenize query ≠ []
    ∧ ∀ w, w ∈ indexes._tokenize query → k ∈ postings (indexes._word_to_keys ix) w.
Proof.
  unfold indexes.search.
  destruct (indexes._tokenize query) as [|w ws].
  - split; [intros H; by apply elem_of_nil in H | by intros [? _]].
  - cbn [map]. rewrite elem_of_elements, elem_of_foldl_intersection.
    fold (postings (indexes._word_to_keys ix) w). split.
    + intros [Hw Hws]. split; [done|]. intros w' Hw'.
      apply elem_of_cons in Hw' as [->|Hw']; [done|].
      apply Hws. apply list_elem_of_In, in_map_iff. exists w'.
      split; [done | by apply list_elem_of_In].
    + intros [_ Hall]. split; [apply Hall; by left|].
      intros s Hs. apply list_elem_of_In, in_map_iff in Hs as (w' & <- & Hw').
      apply Hall. right. by apply list_elem_of_In.
Qed.

Lemma persist_keeps_indexed e dbg o (s : store.KVStore) :
  store_indexed s → store_indexed (persist e dbg o s).2.
Proof.
  intros H. unfold store_indexed. by autorewrite with persist.
Qed.

Lemma run_op_keeps_indexed c o (s : store.KVStore) :
  store_indexed s → store_indexed (store.run_op c o s).2.
Proof.
  intros H. destruct c as [k v dbg | k dbg | items dbg]; unfold store.run_op.
  - rewrite set_eq. apply persist_keeps_indexed. unfold store_indexed in *. cbn.
    destruct (store._ft_index s); [|done]. by apply indexed_index_value.
  - rewrite delete_eq. apply persist_keeps_indexed. unfold store_indexed in *. cbn.
    destruct (store._ft_index s); [|done]. by apply indexed_remove_key.
  - destruct items as [|kv items]; [done|].
    rewrite bulk_set_eq. apply persist_keeps_indexed. unfold store_indexed in *.
    cbn [store._ft_index store._data].
    destruct (store._ft_index s); [|done]. exact (indexed_index_items _ _ _ H).
Qed.

Lemma run_ops_keeps_indexed calls (s : store.KVStore) :
  store_indexed s → store_indexed (store.run_ops calls s).
Proof.
  revert s. induction calls as [|[c o] calls IH]; intros s H; [done|].
  cbn. apply IH. by apply run_op_keeps_indexed.
Qed.

Lemma init_indexed wal snap ix (s : store.KVStore) :
  store.__init__ wal snap ix = Ok s → store_indexed s.
Proof.
  unfold store.__init__, store._recover.
  destruct (store.replay_wal wal _) as [[[]|e] data]; [|discriminate].
  intros [= <-]. unfold store_indexed. cbn.
  destruct ix; [apply indexed_build_index | done].
Qed.

Lemma run_op_keeps_ft_index c o (s : store.KVStore) :
  is_Some (store._ft_index s) → is_Some (store._ft_index (store.run_op c o s).2).
Proof.
  intros [ix Hix].
  destruct c as [k v dbg | k dbg | [|kv items] dbg]; unfold store.run_op;
    rewrite ?set_eq, ?delete_eq, ?bulk_set_eq; autorewrite with persist;
    cbn [store._ft_index store.bulk_set ret snd]; rewrite Hix; by eexists.
Qed.

Lemma run_ops_keeps_ft_index calls (s : store.KVStore) :
  is_Some (store._ft_index s) → is_Some (store._ft_index (store.run_ops calls s)).
Proof.
  revert s. induction calls as [|[c o] calls IH]; intros s H; [done|].
  cbn. apply IH. by apply run_op_keeps_ft_index.
Qed.

Lemma init_enables_index wal snap (s : store.KVStore) :
  store.__init__ wal snap true = Ok s → is_Some (store._ft_index s).
Proof.
  unfold store.__init__, store._recover.
  destruct (store.replay_wal wal _) as [[[]|e] data]; [|discriminate].
  intros [= <-]. by eexists.
Qed.

(** C8, as stated, fails for a query without tokens: every key of the map
    has "every token of the query", and [search] returns no key. *)
Lemma search_without_tokens_returns_nothing :
  let s := store.run_ops [(store.Set_ "k" (JStr "hello") false, store.io_ok)]
             (store.mkKVStore ∅ None None (Some indexes.new)) in
  matches (store._data s) "" "k" ∧ "k" ∉ store.search_fulltext "" s.
Proof.
  split.
  - exists (JStr "hello"). split; [reflexivity|].
    intros w Hw. by apply elem_of_nil in Hw.
  - intros H. by apply elem_of_nil in H.
Qed.

(** C8, amended: with indexes enabled, after any sequence of [set],
    [delete] and [bulk_set] calls (whatever became of their writes),
    [search] of a query with at least one token returns exactly the keys of
    the map whose value, as [str] tokenizes it, has every token of the
    query; a query without tokens returns the empty list. *)
Theorem search_returns_matching_keys (wal : option store.wal_file)
    (snap : option store.snapshot_text) (s0 : store.KVStore)
    (calls : list (store.op * store.io)) (query : string) :
  store.__init__ wal snap true = Ok s0 →
  let s := store.run_ops calls s0 in
  (indexes._tokenize query ≠ [] →
   ∀ k, k ∈ store.search_fulltext query s ↔ matches (store._data s) query k)
  ∧ (indexes._tokenize query = [] → store.search_fulltext query s = []).
Proof.
  intros Hinit s.
  assert (Hix : store_indexed s).
  { apply run_ops_keeps_indexed. by eapply init_indexed. }
  destruct (run_ops_keeps_ft_index calls s0 (init_enables_index _ _ _ Hinit)) as [ix Hen].
  fold s in Hen. unfold store_indexed in Hix. unfold store.search_fulltext.
  rewrite Hen in *. split.
  - intros Hne k. rewrite elem_of_search. unfold matches. split.
    + intros [_ Hall].
      destruct (indexes._tokenize query) as [|w0 ws] eqn:Htok; [done|].
      destruct (proj1 (Hix w0 k) (Hall w0 (list_elem_of_here _ _))) as (v & Hk & _).
      exists v. split; [done|]. intros w Hw.
      destruct (proj1 (Hix w k) (Hall w Hw)) as (v' & Hk' & Hw').
      rewrite Hk in Hk'. by injection Hk' as <-.
    + intros (v & Hk & Hall). split; [done|]. intros w Hw.
      apply Hix. eauto.
  - intros Hemp. unfold indexes.search. by rewrite Hemp.
Qed.

(** ** Recovery *)

Lemma replay_app es1 es2 data : replay (es1 ++ es2) data = replay es2 (replay es1 data).
Proof. apply foldl_app. Qed.

Lemma replay_lines_app l1 l2 data :
  store.replay_lines (l1 ++ l2) data
  = match store.replay_lines l1 data with
    | (Ok _, d) => store.replay_lines l2 d
    | (Raise e, d) => (Raise e, d)
    end.
Proof.
  revert data. induction l1 as [|l l1 IH]; intros data; [done|].
  cbn. unfold bind. destruct (store.replay_line l data) as [[[]|e] d]; [apply IH | done].
Qed.

Lemma replay_lines_entries es data :
  store.replay_lines (store.LEntry <$> es) data = (Ok tt, replay es data).
Proof.
  revert data. induction es as [|e es IH]; intros data; [done|]. cbn. apply IH.
Qed.

Lemma replay_wal_clean w es data :
  clean_log w es → store.replay_wal w data = (Ok tt, replay es data).
Proof.
  intros [[-> ->]| ->]; [done|]. unfold store.replay_wal, store.read_lines. cbn.
  by rewrite app_nil_r, replay_lines_entries.
Qed.

Lemma apply_items_lookup items data k :
  store.apply_items items data !! k
  = match store.apply_items items ∅ !! k with
    | Some v => Some v
    | None => data !! k
    end.
Proof.
  revert data. induction items as [|[k0 v0] items IH]; intros data.
  - cbn. by rewrite lookup_empty.
  - change (store.apply_items ((k0, v0) :: items) data)
      with (store.apply_items items (<[k0 := v0]> data)).
    change (store.apply_items ((k0, v0) :: items) ∅)
      with (store.apply_items items (<[k0 := v0]> ∅)).
    rewrite (IH (<[k0 := v0]> data)), (IH (<[k0 := v0]> ∅)).
    destruct (store.apply_items items ∅ !! k); [done|].
    destruct (decide (k0 = k)) as [->|Hne].
    + by rewrite !lookup_insert_eq.
    + by rewrite !lookup_insert_ne, lookup_empty.
Qed.

Lemma apply_items_untouched items k :
  k ∉ items.*1 → store.apply_items items ∅ !! k = None.
Proof.
  induction items as [|[k0 v0] items IH] using rev_ind; [done|].
  intros Hk. rewrite fmap_app, elem_of_app in Hk. cbn in Hk.
  unfold store.apply_items. rewrite foldl_app. cbn.
  rewrite lookup_insert_ne; [apply IH; tauto|].
  intros ->. apply Hk. right. by left.
Qed.

Lemma apply_items_touched items k :
  k ∈ items.*1 → is_Some (store.apply_items items ∅ !! k).
Proof.
  induction items as [|[k0 v0] items IH] using rev_ind.
  - intros H. by apply elem_of_nil in H.
  - intros Hk. rewrite fmap_app, elem_of_app in Hk. cbn in Hk.
    unfold store.apply_items. rewrite foldl_app. cbn.
    destruct (decide (k0 = k)) as [->|Hne]; [rewrite lookup_insert_eq; by eexists|].
    rewrite lookup_insert_ne by done. apply IH.
    destruct Hk as [?|Hk]; [done|]. apply elem_of_cons in Hk as [?|Hk]; [congruence|].
    by apply elem_of_nil in Hk.
Qed.

Lemma apply_entry_untouched e data k :
  ¬ touches k e → store.apply_entry e data !! k = data !! k.
Proof.
  destruct e as [k' v | k' | items]; cbn; intros Hk.
  - by rewrite lookup_insert_ne.
  - by rewrite lookup_delete_ne.
  - by rewrite apply_items_lookup, apply_items_untouched.
Qed.

Lemma apply_entry_touched e d1 d2 k :
  touches k e → store.apply_entry e d1 !! k = store.apply_entry e d2 !! k.
Proof.
  destruct e as [k' v | k' | items]; cbn; intros Hk.
  - subst. by rewrite !lookup_insert_eq.
  - subst. by rewrite !lookup_delete_eq.
  - rewrite (apply_items_lookup items d1), (apply_items_lookup items d2).
    by destruct (apply_items_touched items k Hk) as [v ->].
Qed.

Lemma apply_entry_congr e d1 d2 k :
  d1 !! k = d2 !! k → store.apply_entry e d1 !! k = store.apply_entry e d2 !! k.
Proof.
  intros Heq. destruct (decide (touches k e)) as [Ht|Hn].
  - by apply apply_entry_touched.
  - by rewrite !apply_entry_untouched.
Qed.

(** What an entry makes of [k] does not depend on the map it is applied to,
    once it has a value for [k]. *)
Lemma apply_entry_forces e data k v :
  store.apply_entry e ∅ !! k = Some v → store.apply_entry e data !! k = Some v.
Proof.
  intros Hv. destruct (decide (touches k e)) as [Ht|Hn].
  - by rewrite (apply_entry_touched e data ∅).
  - rewrite apply_entry_untouched, lookup_empty in Hv; done.
Qed.

Lemma replay_untouched es data k :
  Forall (λ e, ¬ touches k e) es → replay es data !! k = data !! k.
Proof.
  revert data. induction es as [|e es IH]; intros data Hall; [done|].
  apply Forall_cons in Hall as [He Hes]. cbn.
  fold (replay es (store.apply_entry e data)).
  by rewrite IH, apply_entry_untouched.
Qed.

Lemma replay_congr es d1 d2 k :
  d1 !! k = d2 !! k ∨ Exists (touches k) es → replay es d1 !! k = replay es d2 !! k.
Proof.
  revert d1 d2. induction es as [|e es IH]; intros d1 d2 H.
  - destruct H as [?|H]; [done | by apply Exists_nil in H].
  - cbn. apply IH. destruct H as [Heq|H].
    + left. by apply apply_entry_congr.
    + apply Exists_cons in H as [Ht|?]; [left | by right].
      by apply apply_entry_touched.
Qed.

(** Replaying a log over the state an earlier part of it produced gives what
    replaying it over the empty map gives. *)
Lemma replay_over_prefix es j :
  replay es (replay (take j es) ∅) = replay es ∅.
Proof.
  apply map_eq. intros k.
  destruct (decide (Exists (touches k) es)) as [Hex|Hnone].
  - apply replay_congr. by right.
  - apply not_Exists_Forall in Hnone; [|apply _].
    apply replay_congr. left. rewrite lookup_empty.
    rewrite replay_untouched, lookup_empty; [done|].
    apply Forall_take. eapply Forall_impl; [exact Hnone|]. cbn. tauto.
Qed.




(** ** Snapshot and log *)

Lemma run_op_logging c e o (s : store.KVStore) :
  store.entry_of c = Some e →
  ∃ ix, store.run_op c o s
        = persist e (debug_of c) o
            (store.mkKVStore (store.apply_entry e (store._data s)) (store._wal s)
               (store._snapshot s) ix).
Proof.
  destruct c as [k v dbg | k dbg | [|kv items] dbg]; cbn [store.entry_of];
    intros [= <-]; unfold store.run_op.
  - eexists. apply set_eq.
  - eexists. apply delete_eq.
  - eexists. apply bulk_set_eq.
Qed.

Lemma run_op_silent c o (s : store.KVStore) :
  store.entry_of c = None → store.run_op c o s = (Ok tt, s).
Proof. by destruct c as [k v dbg | k dbg | [|kv items] dbg]. Qed.

Lemma append_done_clean e (w : option store.wal_file) es :
  clean_log w es →
  clean_log (Some (store.write_line e store.AllBytes (default store.empty_wal w)))
    (es ++ [e]).
Proof.
  intros [[-> ->]| ->]; right; cbn; unfold wal_of; [done|].
  by rewrite fmap_app.
Qed.

(** After a completed append: the log has the entry, the map is untouched,
    and the snapshot is the old one, unreadable, or the dump of the map. *)
Lemma persist_done e dbg o (s : store.KVStore) es :
  store.on_append o = store.AppendDone →
  clean_log (store._wal s) es →
  let s' := (persist e dbg o s).2 in
  clean_log (store._wal s') (es ++ [e])
  ∧ store._data s' = store._data s
  ∧ (store._snapshot s' = store._snapshot s
     ∨ store._snapshot s' = Some store.SnapNotJson
     ∨ store._snapshot s' = Some (store.SnapDump (store._data s))).
Proof.
  intros Ha Hc. unfold persist, bind, store._append_wal, store._save_snapshot.
  rewrite Ha. cbn.
  pose proof (append_done_clean e _ _ Hc) as Hc'.
  destruct (dbg && store.random_lt_chance o); cbn; [by auto|].
  destruct (store.on_snapshot o) as [|msg [| |]]; cbn; auto.
Qed.

(** An append that raises before a byte is written changes nothing. *)
Lemma persist_unwritten e dbg o msg (s : store.KVStore) :
  store.on_append o = store.AppendRaises msg store.NoBytes →
  (persist e dbg o s).2 = s.
Proof.
  intros Ha. unfold persist, bind, store._append_wal. by rewrite Ha.
Qed.

Lemma take_min {A} (l : list A) j : take j l = take (j `min` length l) l.
Proof.
  destruct (decide (j ≤ length l)%nat).
  - by rewrite Nat.min_l.
  - rewrite Nat.min_r by lia. rewrite firstn_all. apply firstn_all2. lia.
Qed.

Lemma run_op_keeps_consistent c o (s : store.KVStore) :
  store.on_append o = store.AppendDone →
  consistent s → consistent (store.run_op c o s).2.
Proof.
  intros Ha (es & Hlog & Hdata & j & Hsnap).
  destruct (store.entry_of c) as [e|] eqn:He.
  - destruct (run_op_logging c e o s He) as [ix ->].
    match goal with |- context [persist e ?d o ?x] =>
      destruct (persist_done e d o x es Ha Hlog) as (Hlog' & Hdata' & Hsnap');
      set (s' := (persist e d o x).2) in * end.
    cbn in Hdata', Hsnap'.
    assert (Hd : store._data s' = replay (es ++ [e]) ∅).
    { rewrite Hdata', Hdata, replay_app. reflexivity. }
    exists (es ++ [e]). split; [done|]. split; [done|].
    destruct Hsnap' as [->| [->| ->]].
    + exists (j `min` length es)%nat. rewrite Hsnap, (take_min es j).
      rewrite take_app_le by lia. done.
    + by exists 0%nat.
    + exists (length (es ++ [e])). rewrite firstn_all. cbn.
      by rewrite <- Hdata', Hd.
  - rewrite run_op_silent by done. by exists es; eauto.
Qed.

Lemma run_ops_keep_consistent calls (s : store.KVStore) :
  Forall (λ co, store.on_append co.2 = store.AppendDone) calls →
  consistent s → consistent (store.run_ops calls s).
Proof.
  revert s. induction calls as [|[c o] calls IH]; intros s Hall Hs; [done|].
  apply Forall_cons in Hall as [Ho Hall]. cbn.
  apply IH; [done|]. by apply run_op_keeps_consistent.
Qed.

(** A store opened on a log of whole entry lines, with a snapshot that is
    missing, unreadable or the replay of a prefix of the log, is consistent. *)
Lemma init_consistent wal snap ix es (s : store.KVStore) :
  clean_log wal es →
  (∃ j, store.load_snapshot snap = replay (take j es) ∅) →
  store.__init__ wal snap ix = Ok s → consistent s.
Proof.
  intros Hlog [j Hsnap]. unfold store.__init__, store._recover.
  rewrite (replay_wal_clean _ es) by done. intros [= <-].
  exists es. cbn. split; [done|]. split; [|by exists j].
  by rewrite Hsnap, replay_over_prefix.
Qed.

(** In particular one opened on a fresh data directory, *)
Lemma fresh_store_consistent ix (s : store.KVStore) :
  store.__init__ None None ix = Ok s → consistent s.
Proof. apply (init_consistent None None ix []); [by left | by exists 0%nat]. Qed.

(** and a consistent store after a restart. *)
Lemma restart_consistent ix (s s' : store.KVStore) :
  consistent s → store.restart ix s = Ok s' → consistent s'.
Proof.
  intros (es & Hlog & _ & Hsnap). by apply (init_consistent _ _ ix es).
Qed.

(** The failure of one append is enough for C3 to fail: [set("a", 1)]
    raises before its entry is written, [set("b", 2)] succeeds and writes a
    snapshot that holds ["a"], which no part of the log produces. *)
Lemma snapshot_holds_unlogged_write :
  let disk_full := store.mkIO (store.AppendRaises "No space left on device" store.NoBytes)
                     false store.SnapDone in
  let s := store.run_ops
             [(store.Set_ "a" (JNum 1) false, disk_full);
              (store.Set_ "b" (JNum 2) false, store.io_ok)]
             (store.mkKVStore ∅ None None None) in
  store._snapshot s = Some (store.SnapDump (<["b" := JNum 2]> {["a" := JNum 1]}))
  ∧ store.replay_wal (store._wal s) ∅ = (Ok tt, {["b" := JNum 2]})
  ∧ store.replay_wal (store._wal s) (store.load_snapshot (store._snapshot s))
    ≠ store.replay_wal (store._wal s) ∅.
Proof.
  cbn zeta. split; [reflexivity|]. split; [reflexivity|].
  intros H. apply (f_equal (λ r, r.2 !! "a")) in H. vm_compute in H. discriminate.
Qed.

(** C3, amended: in a store that started consistent (a fresh data directory
    is) and whose appends have all completed, whatever became of the
    snapshot writes (written, skipped or failed), replaying the whole log
    over the snapshot gives what replaying it over the empty map gives. *)
Theorem snapshot_replay_equals_empty_replay (s0 : store.KVStore)
    (calls : list (store.op * store.io)) :
  consistent s0 →
  Forall (λ co, store.on_append co.2 = store.AppendDone) calls →
  let s := store.run_ops calls s0 in
  store.replay_wal (store._wal s) (store.load_snapshot (store._snapshot s))
  = store.replay_wal (store._wal s) ∅
  ∧ store.replay_wal (store._wal s) ∅ = (Ok tt, store._data s).
Proof.
  intros Hs0 Hall s.
  destruct (run_ops_keep_consistent calls s0 Hall Hs0) as (es & Hlog & Hdata & j & Hsnap).
  fold s in Hlog, Hdata, Hsnap.
  rewrite !(replay_wal_clean _ es) by done.
  by rewrite Hsnap, replay_over_prefix, Hdata.
Qed.

(** ** Durability on a clean log *)

Lemma run_op_log c o (s : store.KVStore) es :
  clean_log (store._wal s) es →
  (store.on_append o = store.AppendDone
   ∨ ∃ msg, store.on_append o = store.AppendRaises msg store.NoBytes) →
  clean_log (store._wal (store.run_op c o s).2) (es ++ logged [(c, o)]).
Proof.
  intros Hlog Ho. unfold logged, logged_entry. cbn.
  destruct (store.entry_of c) as [e|] eqn:He.
  - destruct (run_op_logging c e o s He) as [ix ->].
    destruct Ho as [Ha|[msg Ha]]; rewrite Ha.
    + match goal with |- context [persist e ?d o ?x] =>
        destruct (persist_done e d o x es Ha Hlog) as (Hlog' & _) end.
      exact Hlog'.
    + rewrite (persist_unwritten _ _ _ msg) by done. cbn. by rewrite app_nil_r.
  - rewrite run_op_silent by done. cbn.
    destruct (store.on_append o); by rewrite app_nil_r.
Qed.

Lemma run_ops_log calls (s : store.KVStore) es :
  clean_log (store._wal s) es →
  atomic_appends calls →
  clean_log (store._wal (store.run_ops calls s)) (es ++ logged calls).
Proof.
  revert s es. induction calls as [|[c o] calls IH]; intros s es Hlog Hall.
  - cbn. by rewrite app_nil_r.
  - apply Forall_cons in Hall as [Ho Hall].
    change (logged ((c, o) :: calls)) with (logged ([(c, o)] ++ calls)).
    unfold logged. rewrite omap_app, app_assoc. cbn [store.run_ops].
    apply IH; [|done]. by apply run_op_log.
Qed.

(** A call that returns normally has had its entry, if it logs one,
    appended. *)
Lemma returned_implies_appended c o e (s : store.KVStore) :
  (store.run_op c o s).1 = Ok tt →
  store.entry_of c = Some e →
  store.on_append o = store.AppendDone.
Proof.
  intros Hr He. destruct (run_op_logging c e o s He) as [ix Heq].
  rewrite Heq in Hr. unfold persist, bind, store._append_wal in Hr.
  destruct (store.on_append o) as [|msg []]; [done | discriminate..].
Qed.

(** On a clean log (a fresh data directory has one) whose appends are
    atomic: if a [set(k, v)], or a [bulk_set] whose last pair for [k] is
    [(k, v)], returned normally and no entry logged after it writes [k],
    then after a restart [get(k)] is [v]: whatever became of any snapshot
    write, and whether or not other calls failed. *)
Theorem acknowledged_write_survives_restart (s0 : store.KVStore)
    (es0 : list store.entry) (before after : list (store.op * store.io))
    (c : store.op) (o : store.io) (e : store.entry) (k : string) (v : json)
    (enable_indexes : bool) :
  clean_log (store._wal s0) es0 →
  atomic_appends (before ++ (c, o) :: after) →
  (store.run_op c o (store.run_ops before s0)).1 = Ok tt →
  store.entry_of c = Some e →
  store.apply_entry e ∅ !! k = Some v →
  Forall (λ e', ¬ touches k e') (logged after) →
  ∃ s', store.restart enable_indexes (store.run_ops (before ++ (c, o) :: after) s0) = Ok s'
        ∧ store._data s' !! k = Some v
        ∧ store.get k s' = v.
Proof.
  intros Hlog Hatomic Hret He Hv Hafter.
  pose proof (returned_implies_appended _ _ _ _ Hret He) as Ha.
  pose proof (run_ops_log _ _ _ Hlog Hatomic) as Hlog'.
  unfold store.restart, store.__init__, store._recover.
  rewrite (replay_wal_clean _ _ _ Hlog').
  eexists. split; [reflexivity|]. cbn [store._data]. unfold store.get. cbn [store._data].
  assert (Hk : replay (es0 ++ logged (before ++ (c, o) :: after))
                 (store.load_snapshot
                    (store._snapshot (store.run_ops (before ++ (c, o) :: after) s0)))
               !! k = Some v).
  { unfold logged. rewrite omap_app. cbn. unfold logged_entry at 2. cbn.
    rewrite Ha, He. fold (logged before). fold (logged after).
    rewrite app_assoc, replay_app.
    change (e :: logged after) with ([e] ++ logged after). rewrite replay_app.
    rewrite replay_untouched by done. cbn. by apply apply_entry_forces. }
  by rewrite Hk.
Qed.

(** ** One crash *)

Lemma replay_prefix_whole_or_absent es m i items :
  es !! i = Some (store.EBulk items) →
  whole_or_absent es m i items (replay (take m es) ∅).
Proof.
  intros Hi. destruct (decide (i < m)%nat) as [Hlt|Hge].
  - left. split; [done|]. intros k v Hv.
    destruct (decide (Exists (touches k) (drop (S i) (take m es)))) as [?|Hnone];
      [by right | left].
    apply not_Exists_Forall in Hnone; [|apply _].
    assert (Hm : take m es !! i = Some (store.EBulk items)) by by rewrite lookup_take_lt.
    rewrite <- (take_drop_middle _ _ _ Hm), replay_app.
    change (store.EBulk items :: drop (S i) (take m es))
      with ([store.EBulk items] ++ drop (S i) (take m es)).
    rewrite replay_app, replay_untouched.
    + cbn. by rewrite apply_items_lookup, Hv.
    + eapply Forall_impl; [exact Hnone|]. cbn. tauto.
  - right. split; [lia|]. intros k Hk Hnone.
    rewrite replay_untouched, lookup_empty; [done|].
    replace (take m es) with (take m (take i es)).
    + by apply Forall_take.
    + rewrite take_take. f_equal. lia.
Qed.

Lemma replay_byte_prefix (es : list store.entry) (n j : nat) (r : store.reached)
    (snap : option store.snapshot_text) :
  (j ≤ n)%nat →
  store.load_snapshot snap = replay (take j es) ∅ →
  ∃ m, (m = n ∨ m = S n)
       ∧ store.replay_wal (Some (byte_prefix es n r)) (store.load_snapshot snap)
         = (Ok tt, replay (take m es) ∅).
Proof.
  intros Hj Hsnap.
  assert (Hover : ∀ m, (j ≤ m)%nat →
            replay (take m es) (store.load_snapshot snap) = replay (take m es) ∅).
  { intros m Hm. rewrite Hsnap.
    replace (take j es) with (take j (take m es)); [apply replay_over_prefix|].
    rewrite take_take. f_equal. lia. }
  unfold byte_prefix. destruct (es !! n) as [e|] eqn:Hn.
  - destruct r.
    + exists n. split; [by left|].
      change (store.write_line e store.NoBytes (wal_of (take n es)))
        with (wal_of (take n es)).
      rewrite (replay_wal_clean _ (take n es)) by by right. by rewrite Hover.
    + exists n. split; [by left|].
      unfold store.replay_wal, store.read_lines, store.write_line, wal_of.
      cbn [store.wal_lines store.wal_tail store.glue option_list].
      rewrite replay_lines_app, replay_lines_entries. cbn. by rewrite Hover.
    + exists (S n). split; [by right|].
      unfold store.replay_wal, store.read_lines, store.write_line, wal_of.
      cbn [store.wal_lines store.wal_tail store.glue option_list].
      rewrite replay_lines_app, replay_lines_entries. cbn.
      rewrite (take_S_r _ _ _ Hn), replay_app. cbn. rewrite Hover by done.
      reflexivity.
    + exists (S n). split; [by right|].
      rewrite (replay_wal_clean _ (take n es ++ [e])).
      * rewrite <- (take_S_r _ _ _ Hn). by rewrite Hover by lia.
      * right. unfold store.write_line, wal_of.
        cbn [store.wal_lines store.wal_tail store.glue]. by rewrite fmap_app.
  - exists n. split; [by left|].
    apply lookup_ge_None in Hn.
    rewrite (replay_wal_clean _ es) by by right.
    rewrite <- (Hover n) by done. by rewrite (take_ge es n).
Qed.

(** After one crash of a store with a clean log [es], cutting the file
    anywhere (between two lines, inside a line, before its newline), with a
    snapshot that is missing, unreadable or the dump of the replay of some
    [j <= n] whole records: the constructor returns normally, the map is the
    replay of the first [m] records for [m = n] or [m = n + 1], and every
    bulk record is in it whole (but for keys later records write) or not at
    all. *)
Theorem bulk_record_whole_or_absent_after_crash (es : list store.entry) (n j : nat)
    (r : store.reached) (snap : option store.snapshot_text) (enable_indexes : bool) :
  (j ≤ n)%nat →
  store.load_snapshot snap = replay (take j es) ∅ →
  ∃ s m, store.__init__ (Some (byte_prefix es n r)) snap enable_indexes = Ok s
         ∧ (m = n ∨ m = S n)
         ∧ store._data s = replay (take m es) ∅
         ∧ ∀ i items, es !! i = Some (store.EBulk items) →
                      whole_or_absent es m i items (store._data s).
Proof.
  intros Hj Hsnap.
  destruct (replay_byte_prefix es n j r snap Hj Hsnap) as (m & Hm & Hreplay).
  unfold store.__init__, store._recover. rewrite Hreplay.
  eexists _, m. split; [reflexivity|]. split; [done|]. cbn [store._data].
  split; [done|]. intros i items Hi. by apply replay_prefix_whole_or_absent.
Qed.

(** A kill during an append to a clean log leaves a byte prefix of the log
    with the new entry, and does not touch the snapshot. *)
Lemma kill_in_append_leaves_byte_prefix e r (s : store.KVStore) es :
  clean_log (store._wal s) es →
  store.replay_wal (store._wal (store.killed_in_append e r s))
  = store.replay_wal (Some (byte_prefix (es ++ [e]) (length es) r))
  ∧ store._snapshot (store.killed_in_append e r s) = store._snapshot s.
Proof.
  intros Hlog. split; [|reflexivity].
  unfold byte_prefix. rewrite lookup_app_r, Nat.sub_diag by done. cbn [lookup list_lookup].
  rewrite take_app_length.
  destruct Hlog as [[Hw ->]|Hw]; unfold store.killed_in_append; rewrite Hw;
    destruct r; reflexivity.
Qed.

Lemma replay_after_kill c kp (s : store.KVStore) es1 :
  clean_log (store._wal s) es1 →
  store._data s = replay es1 ∅ →
  (∃ j, store.load_snapshot (store._snapshot s) = replay (take j es1) ∅) →
  let killed := store.killed_during c kp s in
  let es := es1 ++ option_list (store.entry_of c) in
  ∃ m, (length es1 ≤ m ≤ length es)%nat
       ∧ store.replay_wal (store._wal killed) (store.load_snapshot (store._snapshot killed))
         = (Ok tt, replay (take m es) ∅).
Proof.
  intros Hlog Hdata [j Hsnap] killed es. subst killed es.
  rewrite (take_min es1 j) in Hsnap.
  unfold store.killed_during. destruct (store.entry_of c) as [e|].
  - change (option_list (Some e)) with [e].
    assert (Hsnap' : store.load_snapshot (store._snapshot s)
                     = replay (take (j `min` length es1) (es1 ++ [e])) ∅).
    { by rewrite take_app_le by lia. }
    destruct kp as [r|r].
    + destruct (kill_in_append_leaves_byte_prefix e r s es1 Hlog) as [-> ->].
      destruct (replay_byte_prefix (es1 ++ [e]) (length es1) _ r _
                  (Nat.le_min_r _ _) Hsnap') as (m & Hm & ->).
      exists m. split; [|done]. rewrite length_app. cbn. lia.
    + exists (length (es1 ++ [e])). split; [rewrite length_app; cbn; lia|].
      rewrite firstn_all.
      rewrite (replay_wal_clean _ (es1 ++ [e])) by by apply append_done_clean.
      f_equal. cbn [store._snapshot store.set_snapshot].
      destruct r; cbn [store.write_snapshot store.load_snapshot].
      * change (store._snapshot (store.killed_in_append e store.AllBytes s))
          with (store._snapshot s).
        by rewrite Hsnap', replay_over_prefix.
      * done.
      * rewrite Hdata.
        change (store.apply_entry e (replay es1 ∅)) with (replay [e] (replay es1 ∅)).
        rewrite <- (replay_app es1 [e] ∅).
        pose proof (replay_over_prefix (es1 ++ [e]) (length (es1 ++ [e]))) as Hover.
        by rewrite firstn_all in Hover.
  - change (option_list (@None store.entry)) with (@nil store.entry).
    exists (length es1). rewrite !app_nil_r, firstn_all. split; [lia|].
    rewrite (replay_wal_clean _ es1) by done. by rewrite Hsnap, replay_over_prefix.
Qed.

(** After any run of calls whose appends completed, from a consistent
    store: if the process is killed during the next call, inside its append
    or inside its snapshot write, at whatever point, the restart succeeds
    and every bulk record, those logged before and the one being written,
    is in the recovered map whole (but for keys later records write) or not
    at all. *)
Theorem bulk_whole_or_absent_after_kill (s0 : store.KVStore)
    (calls : list (store.op * store.io)) (c : store.op) (kp : store.kill_point)
    (enable_indexes : bool) :
  consistent s0 →
  Forall (λ co, store.on_append co.2 = store.AppendDone) calls →
  ∃ es1 s' m,
    let es := es1 ++ option_list (store.entry_of c) in
    clean_log (store._wal (store.run_ops calls s0)) es1
    ∧ store.restart enable_indexes (store.killed_during c kp (store.run_ops calls s0)) = Ok s'
    ∧ (length es1 ≤ m ≤ length es)%nat
    ∧ store._data s' = replay (take m es) ∅
    ∧ ∀ i items, es !! i = Some (store.EBulk items) →
                 whole_or_absent es m i items (store._data s').
Proof.
  intros Hs0 Hall.
  destruct (run_ops_keep_consistent calls s0 Hall Hs0) as (es1 & Hlog & Hdata & Hsnap).
  destruct (replay_after_kill c kp _ es1 Hlog Hdata Hsnap) as (m & Hm & Hreplay).
  exists es1. unfold store.restart, store.__init__, store._recover. rewrite Hreplay.
  eexists _, m. cbn zeta. split; [done|]. split; [reflexivity|]. split; [done|].
  cbn [store._data]. split; [done|].
  intros i items Hi. by apply replay_prefix_whole_or_absent.
Qed.

(** A restart gives a consistent store back the map it had. *)
Theorem restart_restores_map (s : store.KVStore) (enable_indexes : bool) :
  consistent s →
  ∃ s', store.restart enable_indexes s = Ok s'
        ∧ store._data s' = store._data s
        ∧ ∀ k, store.get k s' = store.get k s.
Proof.
  intros (es & Hlog & Hdata & j & Hsnap).
  unfold store.restart, store.__init__, store._recover.
  rewrite (replay_wal_clean _ es) by done.
  eexists. split; [reflexivity|]. cbn [store._data].
  assert (Heq : replay es (store.load_snapshot (store._snapshot s)) = store._data s).
  { by rewrite Hsnap, replay_over_prefix, Hdata. }
  split; [done|]. intros k. unfold store.get. cbn [store._data]. by rewrite Heq.
Qed.

(** [set(k, v)] followed by [get(k)] on the same store returns [v], whether
    or not the writes of [set] completed. *)
Theorem get_after_set (k : string) (v : json) (dbg : bool) (o : store.io)
    (s : store.KVStore) :
  store.get k (store.set k v dbg o s).2 = v.
Proof.
  rewrite set_eq. unfold store.get. autorewrite with persist.
  cbn. by rewrite lookup_insert_eq.
Qed.

(** [bulk_set([])] returns without touching memory or files; [delete] of an
    absent key changes no pair and still appends its entry to the log. *)
Theorem empty_bulk_and_absent_delete (k : string) (dbg : bool) (o : store.io)
    (s : store.KVStore) (es : list store.entry) :
  store.bulk_set [] dbg o s = (Ok tt, s)
  ∧ (store._data s !! k = None →
     store.on_append o = store.AppendDone →
     clean_log (store._wal s) es →
     store._data (store.delete k dbg o s).2 = store._data s
     ∧ clean_log (store._wal (store.delete k dbg o s).2) (es ++ [store.EDelete k])).
Proof.
  split; [reflexivity|]. intros Hk Ha Hlog. rewrite delete_eq.
  match goal with |- context [persist ?e dbg o ?x] =>
    destruct (persist_done e dbg o x es Ha Hlog) as (Hlog' & Hd & _) end.
  split; [|exact Hlog']. rewrite Hd. cbn. by apply delete_id.
Qed.

Lemma cluster_run_keeps_primary (steps : list cluster_node.step) (n : cluster_node.node) :
  cluster_node.is_primary n = true →
  cluster_node.is_primary (cluster_node.run steps n) = true.
Proof.
  unfold cluster_node.run. revert n.
  induction steps as [|st steps IH]; intros n Hp; [exact Hp|].
  cbn. apply IH. by apply cluster_step_keeps_primary.
Qed.

(** A step that leaves a secondary a secondary. *)
Lemma secondary_step (st : cluster_node.step) (n : cluster_node.node) p :
  cluster_node.receiver n = Some p →
  cluster_node.is_primary n = false →
  cluster_node.is_primary (cluster_node.do_step st n) = false →
  cluster_node.receiver (cluster_node.do_step st n) = Some p
  ∧ store._data (cluster_node.store_ (cluster_node.do_step st n))
    = replay (replicated_entries [st]) (store._data (cluster_node.store_ n))
  ∧ store._wal (cluster_node.store_ (cluster_node.do_step st n))
    = store._wal (cluster_node.store_ n)
  ∧ store._snapshot (cluster_node.store_ (cluster_node.do_step st n))
    = store._snapshot (cluster_node.store_ n).
Proof.
  intros Hr Hp. destruct st as [req o delivers | probe connects | e]; cbn.
  - unfold cluster_node.handle_request. rewrite Hp.
    by destruct (method_is "role" req).
  - unfold cluster_node.election_round. rewrite Hp.
    destruct (cluster_node.probe_peers _ _ _ _); [done|]. cbn. discriminate.
  - unfold cluster_node.receive_entry. rewrite Hr. done.
Qed.

(** As long as a node is a secondary, what the primary replicates to it is
    in its memory only: whatever requests it is sent, whatever entries it
    receives and whatever election rounds it gives up, its map is the old
    map with the received entries applied, its log and its snapshot are
    untouched, and a restart gives the store the files gave before. *)
Theorem secondary_holds_replicated_entries_in_memory_only
    (steps : list cluster_node.step) (n : cluster_node.node) (enable_indexes : bool) :
  is_Some (cluster_node.receiver n) →
  cluster_node.is_primary (cluster_node.run steps n) = false →
  store._data (cluster_node.store_ (cluster_node.run steps n))
  = replay (replicated_entries steps) (store._data (cluster_node.store_ n))
  ∧ store._wal (cluster_node.store_ (cluster_node.run steps n))
    = store._wal (cluster_node.store_ n)
  ∧ store._snapshot (cluster_node.store_ (cluster_node.run steps n))
    = store._snapshot (cluster_node.store_ n)
  ∧ store.restart enable_indexes (cluster_node.store_ (cluster_node.run steps n))
    = store.restart enable_indexes (cluster_node.store_ n).
Proof.
  intros [p Hr] Hfinal.
  assert (H : store._data (cluster_node.store_ (cluster_node.run steps n))
              = replay (replicated_entries steps) (store._data (cluster_node.store_ n))
              ∧ store._wal (cluster_node.store_ (cluster_node.run steps n))
                = store._wal (cluster_node.store_ n)
              ∧ store._snapshot (cluster_node.store_ (cluster_node.run steps n))
                = store._snapshot (cluster_node.store_ n)).
  { revert n Hr Hfinal. induction steps as [|st steps IH]; intros n Hr Hfinal; [done|].
    change (cluster_node.run (st :: steps) n)
      with (cluster_node.run steps (cluster_node.do_step st n)) in *.
    assert (Hst : cluster_node.is_primary (cluster_node.do_step st n) = false).
    { destruct (cluster_node.is_primary (cluster_node.do_step st n)) eqn:E; [|done].
      by rewrite (cluster_run_keeps_primary steps _ E) in Hfinal. }
    assert (Hn : cluster_node.is_primary n = false).
    { destruct (cluster_node.is_primary n) eqn:E; [|done].
      by rewrite (cluster_step_keeps_primary st n E) in Hst. }
    destruct (secondary_step st n p Hr Hn Hst) as (Hr' & Hd & Hw & Hs).
    destruct (IH _ Hr' Hfinal) as (Hd' & Hw' & Hs').
    rewrite Hd', Hw', Hs', Hd, Hw, Hs. split; [|done].
    change (st :: steps) with ([st] ++ steps).
    unfold replicated_entries. by rewrite omap_app, replay_app. }
  destruct H as (Hd & Hw & Hs). repeat (split; [done|]).
  unfold store.restart. by rewrite Hw, Hs.
Qed.

(** ** The defect: appending after a torn line

    [_recover] stops at a line it cannot decode and leaves it in the file;
    [_append_wal] then writes the next entry right after it.  The two make
    one undecodable line, at which every later recovery stops: entries
    appended after a torn line are never replayed. *)

(** C1 at the failing input: the node restarts on those files and answers
    [get("a")] with 1; [set("a", 2)] returns normally, log appended and
    snapshot written; after the next restart [get("a")] is 1 again.  With
    the snapshot skipped, [set("b", 2)] returns normally and ["b"] is gone
    after the restart.  No kill is needed for the torn line: an append that
    raises after part of the line was written leaves one too, and the next
    [set], which succeeds, is lost at the restart. *)
Lemma acknowledged_set_lost_after_torn_line :
  (∃ s2 s2a s2b s3a s3b,
     store.restart false torn_store = Ok s2
     ∧ store.get "a" s2 = JNum 1
     ∧ store.run_op (store.Set_ "a" (JNum 2) false) store.io_ok s2 = (Ok tt, s2a)
     ∧ store.get "a" s2a = JNum 2
     ∧ store.restart false s2a = Ok s3a
     ∧ store.get "a" s3a = JNum 1
     ∧ store.run_op (store.Set_ "b" (JNum 2) true) snapshot_skipped s2 = (Ok tt, s2b)
     ∧ store.restart false s2b = Ok s3b
     ∧ store.get "b" s3b = JNull)
  ∧ (∃ s1 s2 s3 s4,
       store.run_op (store.Set_ "a" (JNum 1) false) store.io_ok
         (store.mkKVStore ∅ None None None) = (Ok tt, s1)
       ∧ store.run_op (store.Set_ "a" (JNum 5) false) disk_fills s1
         = (Raise (OSError "No space left on device"), s2)
       ∧ store.run_op (store.Set_ "a" (JNum 2) false) store.io_ok s2 = (Ok tt, s3)
       ∧ store.get "a" s3 = JNum 2
       ∧ store.restart false s3 = Ok s4
       ∧ store.get "a" s4 = JNum 1).
Proof.
  split.
  - do 5 eexists. repeat split; vm_compute; reflexivity.
  - do 4 eexists. repeat split; vm_compute; reflexivity.
Qed.

(** C2 at the failing input: on the same files, [bulk_set] of two pairs
    returns normally; after the next restart ["b"] has the record's value
    and ["a"] has the value of the older [set], which the replay put back
    over the snapshot. *)
Lemma bulk_record_split_after_torn_line :
  ∃ s2 s2a s3,
    store.restart false torn_store = Ok s2
    ∧ store.run_op (store.BulkSet_ [("a", JNum 2); ("b", JNum 2)] false) store.io_ok s2
      = (Ok tt, s2a)
    ∧ store.get "a" s2a = JNum 2 ∧ store.get "b" s2a = JNum 2
    ∧ store.restart false s2a = Ok s3
    ∧ store.get "a" s3 = JNum 1
    ∧ store.get "b" s3 = JNum 2.
Proof. do 3 eexists. repeat split; vm_compute; reflexivity. Qed.

(** ** Instances *)

Lemma failed_set_witness :
  let r := server.handle_request (request_of "set" (Some "a") (JStr "new") [] false)
             disk_full [] indexed_store in
  r.1 = [("ok", JBool false); ("error", JStr "No space left on device")]
  ∧ store._data r.2 = <["a" := JStr "new"]> (store._data indexed_store)
  ∧ store._ft_index r.2
    = indexes.index_value "a" (JStr "new") <$> store._ft_index indexed_store
  ∧ (∀ ix, store._ft_index indexed_store = Some ix →
       ∃ ix', store._ft_index r.2 = Some ix'
              ∧ ∀ w k', k' ∈ postings (indexes._word_to_keys ix') w
                        ↔ (k' ≠ "a" ∧ k' ∈ postings (indexes._word_to_keys ix) w)
                          ∨ (k' = "a"
                             ∧ w ∈ indexes._tokenize (indexes.py_str (JStr "new"))))
  ∧ (store.on_append disk_full
     = store.AppendRaises "No space left on device" store.NoBytes →
     store._wal r.2 = store._wal indexed_store
     ∧ store._snapshot r.2 = store._snapshot indexed_store).
Proof.
  refine (proj1 (failed_mutation_is_applied_in_memory "a" (JStr "new") [] false
                   disk_full [] indexed_store "No space left on device" _)).
  left. eexists. reflexivity.
Defined.

Lemma search_witness :
  let s := store.run_ops some_calls (store.mkKVStore ∅ None None (Some indexes.new)) in
  (indexes._tokenize "World" ≠ [] →
   ∀ k, k ∈ store.search_fulltext "World" s ↔ matches (store._data s) "World" k)
  ∧ (indexes._tokenize "World" = [] → store.search_fulltext "World" s = []).
Proof.
  apply (search_returns_matching_keys None None _ some_calls "World"). reflexivity.
Defined.

Lemma fresh_store_is_consistent : consistent (store.mkKVStore ∅ None None None).
Proof. by apply (fresh_store_consistent false). Qed.

Lemma snapshot_replay_witness :
  let s := store.run_ops some_calls (store.mkKVStore ∅ None None None) in
  store.replay_wal (store._wal s) (store.load_snapshot (store._snapshot s))
  = store.replay_wal (store._wal s) ∅
  ∧ store.replay_wal (store._wal s) ∅ = (Ok tt, store._data s).
Proof.
  apply snapshot_replay_equals_empty_replay.
  - apply fresh_store_is_consistent.
  - repeat constructor.
Defined.

Lemma acknowledged_write_witness :
  ∃ s', store.restart false
          (store.run_ops
             ([(store.Set_ "a" (JNum 0) false, disk_full)]
              ++ (store.BulkSet_ [("a", JNum 1); ("b", JNum 2); ("a", JNum 3)] true,
                  snapshot_skipped)
              :: [(store.Delete_ "a" false, disk_full);
                  (store.Set_ "b" (JNum 9) false, snapshot_fails)])
             (store.mkKVStore ∅ None None None)) = Ok s'
        ∧ store._data s' !! "a" = Some (JNum 3)
        ∧ store.get "a" s' = JNum 3.
Proof.
  apply (acknowledged_write_survives_restart _ [] _ _ _ _
           (store.EBulk [("a", JNum 1); ("b", JNum 2); ("a", JNum 3)])).
  - by left.
  - unfold atomic_appends.
    repeat first [apply Forall_nil | apply Forall_cons; split];
      first [done | by left | right; by eexists].
  - reflexivity.
  - reflexivity.
  - reflexivity.
  - repeat constructor. cbn. discriminate.
Defined.

Lemma bulk_after_crash_witness :
  ∃ s m, store.__init__ (Some (byte_prefix some_log 3 store.SomeBytes))
           (Some (store.SnapDump (replay (take 2 some_log) ∅))) false = Ok s
         ∧ (m = 3%nat ∨ m = 4%nat)
         ∧ store._data s = replay (take m some_log) ∅
         ∧ ∀ i items, some_log !! i = Some (store.EBulk items) →
                      whole_or_absent some_log m i items (store._data s).
Proof.
  apply (bulk_record_whole_or_absent_after_crash some_log 3 2); [lia | reflexivity].
Defined.

Lemma bulk_after_kill_witness :
  ∃ es1 s' m,
    let c := store.BulkSet_ [("k1", JNum 1); ("k9", JNum 9)] false in
    let s := store.run_ops some_calls (store.mkKVStore ∅ None None None) in
    let es := es1 ++ option_list (store.entry_of c) in
    clean_log (store._wal s) es1
    ∧ store.restart false (store.killed_during c (store.InAppend store.SomeBytes) s) = Ok s'
    ∧ (length es1 ≤ m ≤ length es)%nat
    ∧ store._data s' = replay (take m es) ∅
    ∧ ∀ i items, es !! i = Some (store.EBulk items) →
                 whole_or_absent es m i items (store._data s').
Proof.
  apply (bulk_whole_or_absent_after_kill (store.mkKVStore ∅ None None None) some_calls
           (store.BulkSet_ [("k1", JNum 1); ("k9", JNum 9)] false)
           (store.InAppend store.SomeBytes) false).
  - apply fresh_store_is_consistent.
  - repeat constructor.
Defined.

Lemma restart_restores_map_witness :
  let s := store.run_ops some_calls (store.mkKVStore ∅ None None None) in
  ∃ s', store.restart true s = Ok s'
        ∧ store._data s' = store._data s
        ∧ ∀ k, store.get k s' = store.get k s.
Proof.
  apply restart_restores_map. apply run_ops_keep_consistent.
  - repeat constructor.
  - apply fresh_store_is_consistent.
Defined.

Lemma secondary_in_memory_witness :
  let steps := [cluster_node.Request (request_of "set" (Some "x") (JNum 1) [] false)
                  store.io_ok (λ _, true);
                cluster_node.Replicated (store.ESet "a" (JNum 1));
                cluster_node.Election node0_is_primary (λ _, true);
                cluster_node.Replicated (store.EDelete "k")] in
  store._data (cluster_node.store_ (cluster_node.run steps secondary1))
  = replay (replicated_entries steps) (store._data (cluster_node.store_ secondary1))
  ∧ store._wal (cluster_node.store_ (cluster_node.run steps secondary1))
    = store._wal (cluster_node.store_ secondary1)
  ∧ store._snapshot (cluster_node.store_ (cluster_node.run steps secondary1))
    = store._snapshot (cluster_node.store_ secondary1)
  ∧ store.restart false (cluster_node.store_ (cluster_node.run steps secondary1))
    = store.restart false (cluster_node.store_ secondary1).
Proof.
  apply secondary_holds_replicated_entries_in_memory_only.
  - by eexists.
  - reflexivity.
Defined.

(** * Further properties, file by file *)

(** ** kv_store/indexes.py: tokens *)

Lemma string_app_cons c (s1 s2 : string) : String c s1 +:+ s2 = String c (s1 +:+ s2).
Proof. reflexivity. Qed.

Lemma all_chars_app p s1 s2 :
  all_chars p (s1 +:+ s2) = all_chars p s1 && all_chars p s2.
Proof.
  induction s1 as [|c s1 IH]; [done|]. rewrite string_app_cons. cbn [all_chars].
  rewrite IH. by rewrite andb_assoc.
Qed.

Lemma string_app_assoc (s1 s2 s3 : string) : (s1 +:+ s2) +:+ s3 = s1 +:+ (s2 +:+ s3).
Proof. induction s1 as [|c s1 IH]; [done|]. rewrite !string_app_cons. by rewrite IH. Qed.

Lemma string_app_nil_r (s : string) : s +:+ EmptyString = s.
Proof. induction s as [|c s IH]; [done|]. rewrite string_app_cons. by rewrite IH. Qed.

Lemma lower_char_token c :
  indexes.is_word_char (indexes.lower_char c) = true →
  is_token_char (indexes.lower_char c) = true.
Proof. destruct c as [[] [] [] [] [] [] [] []]; vm_compute; congruence. Qed.

Lemma token_char_lower c : is_token_char c = true → indexes.lower_char c = c.
Proof. destruct c as [[] [] [] [] [] [] [] []]; vm_compute; congruence. Qed.

Lemma token_char_word c : is_token_char c = true → indexes.is_word_char c = true.
Proof. unfold is_token_char. by intros [? _]%andb_true_iff. Qed.

Lemma flush_word_tokens cur :
  all_chars is_token_char cur = true →
  Forall (λ w, w ≠ EmptyString ∧ all_chars is_token_char w = true) (indexes.flush_word cur).
Proof.
  intros H. destruct cur; [constructor|]. repeat constructor; done.
Qed.

Lemma findall_words_tokens cur text :
  all_chars is_token_char cur = true →
  Forall (λ w, w ≠ EmptyString ∧ all_chars is_token_char w = true)
    (indexes.findall_words cur (indexes.lower text)).
Proof.
  revert cur. induction text as [|c text IH]; intros cur Hcur; cbn.
  - by apply flush_word_tokens.
  - destruct (indexes.is_word_char (indexes.lower_char c)) eqn:Hw.
    + apply IH. rewrite all_chars_app, Hcur. cbn. by rewrite lower_char_token.
    + apply Forall_app. split; [by apply flush_word_tokens | by apply IH].
Qed.

(** The tokens [_tokenize] returns are never empty and hold nothing but
    digits, the letters a to z and the underscore: no upper-case letter, no
    space, no punctuation. *)
Theorem tokens_are_lowercase_words (text : string) :
  Forall (λ w, w ≠ EmptyString ∧ all_chars is_token_char w = true)
    (indexes._tokenize text).
Proof. by apply findall_words_tokens. Qed.

Lemma lower_token w : all_chars is_token_char w = true → indexes.lower w = w.
Proof.
  induction w as [|c w IH]; [done|]. cbn. intros [Hc Hw]%andb_true_iff.
  by rewrite IH, token_char_lower.
Qed.

Lemma findall_words_word cur w :
  all_chars is_token_char w = true →
  indexes.findall_words cur w = indexes.flush_word (cur +:+ w).
Proof.
  revert cur. induction w as [|c w IH]; intros cur; cbn.
  - by rewrite string_app_nil_r.
  - intros [Hc Hw]%andb_true_iff. rewrite (token_char_word c Hc), IH by done.
    by rewrite string_app_assoc.
Qed.

(** A token is its own tokenization. *)
Lemma tokenize_token w :
  w ≠ EmptyString → all_chars is_token_char w = true → indexes._tokenize w = [w].
Proof.
  intros Hne Hw. unfold indexes._tokenize. rewrite lower_token, findall_words_word by done.
  cbn. by destruct w.
Qed.

(** ** kv_store/indexes.py: the inverted index *)

(** [search] lists the elements of a set. *)
Lemma search_elements query ix : ∃ X : gset string, indexes.search query ix = elements X.
Proof.
  unfold indexes.search. destruct (indexes._tokenize query) as [|w ws].
  - exists ∅. by rewrite elements_empty.
  - cbn [map]. by eexists.
Qed.

(** Two searches that return the same keys return the same list. *)
Lemma search_ext q1 ix1 q2 ix2 :
  (∀ k, k ∈ indexes.search q1 ix1 ↔ k ∈ indexes.search q2 ix2) →
  indexes.search q1 ix1 = indexes.search q2 ix2.
Proof.
  destruct (search_elements q1 ix1) as [X1 ->].
  destruct (search_elements q2 ix2) as [X2 ->].
  intros H. assert (X1 = X2) as ->; [|done].
  apply sets.set_eq. intros k. specialize (H k). by rewrite !elem_of_elements in H.
Qed.

(** The keys [search] returns depend on the query through the set of its
    tokens only: the case of the letters, the order of the words, their
    repetition and the punctuation between them do not matter.  (The order
    of the list is that of a Python set, which nothing fixes.) *)
Theorem search_depends_on_token_set (q1 q2 : string) (ix : indexes.FullTextIndex) :
  (∀ w, w ∈ indexes._tokenize q1 ↔ w ∈ indexes._tokenize q2) →
  indexes.search q1 ix ≡ₚ indexes.search q2 ix.
Proof.
  intros Htok. assert (indexes.search q1 ix = indexes.search q2 ix) as ->; [|done].
  apply search_ext. intros k. rewrite !elem_of_search.
  assert (Hne : indexes._tokenize q1 ≠ [] ↔ indexes._tokenize q2 ≠ []).
  { destruct (indexes._tokenize q1) as [|w1 l1], (indexes._tokenize q2) as [|w2 l2];
      try done.
    - exfalso. eapply not_elem_of_nil. apply Htok. by left.
    - exfalso. eapply not_elem_of_nil. apply Htok. by left. }
  split; intros [H1 H2]; (split; [by apply Hne|]); intros w Hw; apply H2; by apply Htok.
Qed.

Lemma search_token_set_witness :
  indexes.search "Hello, WORLD... hello!"
    (indexes.index_value "a" (JStr "hello world") indexes.new)
  ≡ₚ indexes.search "world hello"
       (indexes.index_value "a" (JStr "hello world") indexes.new).
Proof.
  apply search_depends_on_token_set. intros w.
  change (indexes._tokenize "Hello, WORLD... hello!") with ["hello"; "world"; "hello"].
  change (indexes._tokenize "world hello") with ["world"; "hello"].
  rewrite !elem_of_cons. by intuition.
Defined.

Lemma remove_key_no_empty key ix : no_empty_postings (indexes.remove_key key ix).
Proof.
  intros w Hw. unfold indexes.remove_key in Hw. cbn in Hw.
  by apply map_lookup_filter_Some in Hw as [_ ?].
Qed.

(** [remove_key(key)] takes the key out of the set of every word, leaves
    the other keys where they are, and leaves no word with an empty set. *)
Theorem remove_key_discards_and_prunes (key : string) (ix : indexes.FullTextIndex) :
  (∀ w, postings (indexes._word_to_keys (indexes.remove_key key ix)) w
        = postings (indexes._word_to_keys ix) w ∖ {[key]})
  ∧ no_empty_postings (indexes.remove_key key ix).
Proof.
  split; [|apply remove_key_no_empty].
  intros w. apply sets.set_eq. intros k. rewrite postings_remove_key. set_solver.
Qed.

(** Indexes without empty sets that give every word the same keys are equal. *)
Lemma index_ext ix1 ix2 :
  no_empty_postings ix1 → no_empty_postings ix2 →
  (∀ w, postings (indexes._word_to_keys ix1) w = postings (indexes._word_to_keys ix2) w) →
  ix1 = ix2.
Proof.
  destruct ix1 as [m1], ix2 as [m2]. unfold no_empty_postings, postings. cbn.
  intros H1 H2 Heq. f_equal. apply map_eq. intros w.
  specialize (H1 w). specialize (H2 w). specialize (Heq w).
  destruct (m1 !! w) as [k1|], (m2 !! w) as [k2|]; cbn in Heq; congruence.
Qed.

(** Indexing a key that the index does not hold and removing it again gives
    the index back, provided no word of it had an empty set (which
    [remove_key] would prune as well). *)
Theorem index_then_remove_restores (key : string) (v : json)
    (ix : indexes.FullTextIndex) :
  no_empty_postings ix →
  not_indexed key ix →
  indexes.remove_key key (indexes.index_value key v ix) = ix.
Proof.
  intros Hne Hkey. apply index_ext; [apply remove_key_no_empty | done |].
  intros w. apply sets.set_eq. intros k.
  rewrite postings_remove_key, postings_index_value.
  specialize (Hkey w). split; [tauto|]. intros Hk.
  assert (k ≠ key) by (intros ->; done). tauto.
Qed.

Lemma index_then_remove_witness :
  indexes.remove_key "b" (indexes.index_value "b" (JStr "hello there") indexes.new)
  = indexes.new.
Proof.
  apply index_then_remove_restores.
  - intros w. cbn. by rewrite lookup_empty.
  - intros w. unfold postings. cbn. rewrite lookup_empty. cbn. apply not_elem_of_empty.
Defined.

(** A word that [_tokenize] finds in a stored value, used as a query, finds
    the key of that value: with indexes enabled, after any sequence of
    calls. *)
Theorem token_of_value_finds_key (wal : option store.wal_file)
    (snap : option store.snapshot_text) (s0 : store.KVStore)
    (calls : list (store.op * store.io)) (k : string) (v : json) (w : string) :
  store.__init__ wal snap true = Ok s0 →
  store._data (store.run_ops calls s0) !! k = Some v →
  w ∈ indexes._tokenize (indexes.py_str v) →
  k ∈ store.search_fulltext w (store.run_ops calls s0).
Proof.
  intros Hinit Hk Hw.
  assert (Hix : store_indexed (store.run_ops calls s0)).
  { apply run_ops_keeps_indexed. by eapply init_indexed. }
  destruct (run_ops_keeps_ft_index calls s0 (init_enables_index _ _ _ Hinit)) as [ix Hen].
  unfold store_indexed in Hix. unfold store.search_fulltext. rewrite Hen in *.
  pose proof (findall_words_tokens EmptyString (indexes.py_str v) eq_refl) as Htok.
  rewrite Forall_forall in Htok. destruct (Htok w Hw) as [Hne Hchars].
  apply elem_of_search. rewrite (tokenize_token w) by done. split; [done|].
  intros w' Hw'. apply list_elem_of_singleton in Hw' as ->. apply Hix. eauto.
Qed.

Lemma token_finds_key_witness :
  "k2" ∈ store.search_fulltext "bye"
           (store.run_ops some_calls (store.mkKVStore ∅ None None (Some indexes.new))).
Proof.
  apply (token_of_value_finds_key None None _ some_calls "k2" (JStr "good-bye world")).
  - reflexivity.
  - reflexivity.
  - change (indexes._tokenize (indexes.py_str (JStr "good-bye world")))
      with ["good"; "bye"; "world"].
    rewrite !elem_of_cons. tauto.
Defined.

(** ** kv_store/store.py: the log and the map *)

Lemma save_snapshot_wal dbg o (s : store.KVStore) :
  store._wal (store._save_snapshot dbg o s).2 = store._wal s.
Proof.
  unfold store._save_snapshot.
  destruct (dbg && store.random_lt_chance o); [done|].
  by destruct (store.on_snapshot o).
Qed.

Lemma persist_wal e dbg o (s : store.KVStore) :
  store._wal (persist e dbg o s).2 = store._wal (store._append_wal e (store.on_append o) s).2.
Proof.
  unfold persist, bind.
  destruct (store._append_wal e (store.on_append o) s) as [[[]|x] s1]; [|done].
  apply save_snapshot_wal.
Qed.

Lemma append_wal_log e a (s : store.KVStore) :
  log_lines s `prefix_of` log_lines (store._append_wal e a s).2
  ∧ (length (log_lines (store._append_wal e a s).2) ≤ S (length (log_lines s)))%nat.
Proof.
  unfold log_lines, store._append_wal.
  destruct a as [|msg []]; cbn; destruct (store._wal s) as [f|]; cbn;
    rewrite ?length_app; cbn.
  all: split; [|lia].
  all: try done.
  all: try by apply prefix_app_r.
  all: try by apply prefix_nil.
Qed.

Lemma run_op_log_lines c o (s : store.KVStore) :
  log_lines s `prefix_of` log_lines (store.run_op c o s).2
  ∧ (length (log_lines (store.run_op c o s).2) ≤ S (length (log_lines s)))%nat.
Proof.
  destruct (store.entry_of c) as [e|] eqn:He.
  - destruct (run_op_logging c e o s He) as [ix ->].
    match goal with |- context [persist e ?d o ?x] =>
      pose proof (append_wal_log e (store.on_append o) x) as H;
      pose proof (persist_wal e d o x) as Hw end.
    unfold log_lines in *. rewrite Hw. exact H.
  - rewrite run_op_silent by done. cbn. split; [done | lia].
Qed.

(** The log is only ever appended to: whatever the calls and whatever
    becomes of their writes, the lines it held stay as they are at the head
    of the file, and each call adds at most one line. *)
Theorem log_is_append_only (calls : list (store.op * store.io)) (s : store.KVStore) :
  log_lines s `prefix_of` log_lines (store.run_ops calls s)
  ∧ (length (log_lines (store.run_ops calls s)) ≤ length (log_lines s) + length calls)%nat.
Proof.
  revert s. induction calls as [|[c o] calls IH]; intros s; cbn.
  - split; [done | lia].
  - destruct (IH (store.run_op c o s).2) as [Hp Hl].
    destruct (run_op_log_lines c o s) as [Hp1 Hl1].
    split; [by etrans | lia].
Qed.

(** What a call does to the map in memory is what the replay of the entry
    it logs does at recovery, whether or not its writes complete. *)
Lemma call_changes_map_as_its_entry_replays (c : store.op) (o : store.io)
    (s : store.KVStore) :
  store._data (store.run_op c o s).2
  = replay (option_list (store.entry_of c)) (store._data s).
Proof.
  destruct (store.entry_of c) as [e|] eqn:He.
  - destruct (run_op_logging c e o s He) as [ix ->]. by rewrite persist_data.
  - by rewrite run_op_silent.
Qed.

Lemma run_sets items dbg o (s : store.KVStore) :
  store._data (store.run_ops (sets_of items dbg o) s) = store.apply_items items (store._data s)
  ∧ store._ft_index (store.run_ops (sets_of items dbg o) s)
    = index_items items <$> store._ft_index s.
Proof.
  revert s. induction items as [|[k v] items IH]; intros s.
  - cbn. by destruct (store._ft_index s).
  - cbn [sets_of fmap list_fmap store.run_ops store.run_op fst snd].
    destruct (IH (store.set k v dbg o s).2) as [Hd Hi].
    unfold sets_of in Hd, Hi. rewrite Hd, Hi, set_eq. autorewrite with persist.
    cbn [store._data store._ft_index]. split; [done|].
    by destruct (store._ft_index s).
Qed.

(** [bulk_set(items)] leaves the map and the full-text index as one [set]
    per pair, in the order of the list, leaves them; the log gets one
    record instead of one per pair. *)
Theorem bulk_set_is_sets_in_order (items : list (string * json)) (dbg dbg' : bool)
    (o o' : store.io) (s : store.KVStore) :
  store._data (store.bulk_set items dbg o s).2
  = store._data (store.run_ops (sets_of items dbg' o') s)
  ∧ store._ft_index (store.bulk_set items dbg o s).2
    = store._ft_index (store.run_ops (sets_of items dbg' o') s).
Proof.
  destruct (run_sets items dbg' o' s) as [-> ->].
  destruct items as [|kv items].
  - cbn. by destruct (store._ft_index s).
  - rewrite bulk_set_eq. by autorewrite with persist.
Qed.



(** With indexes enabled, a restart rebuilds the index from the recovered
    map: after a run of calls whose appends completed, from a consistent
    store, every query returns after the restart the keys it returned
    before. *)
Theorem search_survives_restart (wal : option store.wal_file)
    (snap : option store.snapshot_text) (s0 : store.KVStore)
    (calls : list (store.op * store.io)) :
  store.__init__ wal snap true = Ok s0 →
  consistent s0 →
  Forall (λ co, store.on_append co.2 = store.AppendDone) calls →
  ∃ s', store.restart true (store.run_ops calls s0) = Ok s'
        ∧ ∀ query, store.search_fulltext query s'
                   ≡ₚ store.search_fulltext query (store.run_ops calls s0).
Proof.
  intros Hinit Hs0 Hall.
  assert (Hix : store_indexed (store.run_ops calls s0)).
  { apply run_ops_keeps_indexed. by eapply init_indexed. }
  destruct (run_ops_keeps_ft_index calls s0 (init_enables_index _ _ _ Hinit)) as [ix Hen].
  destruct (run_ops_keep_consistent calls s0 Hall Hs0) as (es & Hlog & Hdata & j & Hsnap).
  set (s := store.run_ops calls s0) in *.
  unfold store.restart, store.__init__, store._recover.
  rewrite (replay_wal_clean _ es) by done.
  eexists. split; [reflexivity|]. intros query.
  unfold store.search_fulltext. cbn [store._ft_index]. rewrite Hen.
  unfold store_indexed in Hix. rewrite Hen in Hix.
  match goal with |- ?l ≡ₚ ?r => assert (l = r) as ->; [|done] end.
  apply search_ext. intros k. rewrite !elem_of_search.
  assert (Hd : replay es (store.load_snapshot (store._snapshot s)) = store._data s).
  { by rewrite Hsnap, replay_over_prefix, Hdata. }
  rewrite Hd.
  pose proof (indexed_build_index (store._data s)) as Hb.
  split; intros [H1 H2]; (split; [done|]); intros w Hw; specialize (H2 w Hw).
  - apply Hix. by apply Hb.
  - apply Hb. by apply Hix.
Qed.

Lemma search_survives_restart_witness :
  ∃ s', store.restart true
          (store.run_ops some_calls (store.mkKVStore ∅ None None (Some indexes.new)))
        = Ok s'
        ∧ ∀ query, store.search_fulltext query s'
                   ≡ₚ store.search_fulltext query
                        (store.run_ops some_calls
                           (store.mkKVStore ∅ None None (Some indexes.new))).
Proof.
  apply (search_survives_restart None None).
  - reflexivity.
  - apply (fresh_store_consistent true). reflexivity.
  - repeat constructor.
Defined.

(** ** Lines: the receive loops *)

Lemma string_length_app (a b : string) :
  String.length (a +:+ b) = (String.length a + String.length b)%nat.
Proof.
  induction a as [|c a IH]; [done|]. rewrite string_app_cons. cbn. by rewrite IH.
Qed.

Lemma has_newline_app a b : has_newline (a +:+ b) = has_newline a || has_newline b.
Proof.
  induction a as [|c a IH]; [done|]. rewrite string_app_cons. cbn.
  by destruct (Ascii.eqb c newline).
Qed.

Lemma split_newline_app a b :
  has_newline a = true →
  split_newline (a +:+ b) = ((split_newline a).1, (split_newline a).2 +:+ b).
Proof.
  induction a as [|c a IH]; [done|]. rewrite string_app_cons. cbn.
  destruct (Ascii.eqb c newline); [done|]. intros H. rewrite (IH H).
  by destruct (split_newline a).
Qed.

Lemma split_newline_shorter a :
  has_newline a = true →
  (String.length (split_newline a).2 < String.length a)%nat.
Proof.
  induction a as [|c a IH]; [done|]. cbn.
  destruct (Ascii.eqb c newline); cbn; [lia|]. intros H. specialize (IH H).
  destruct (split_newline a). cbn in *. lia.
Qed.

(** The first line of a buffer that starts with a line without a newline,
    followed by a newline. *)
Lemma split_newline_line line rest :
  has_newline line = false →
  has_newline (line +:+ String newline rest) = true
  ∧ split_newline (line +:+ String newline rest) = (line, rest).
Proof.
  induction line as [|c line IH].
  - done.
  - rewrite string_app_cons. cbn. destruct (Ascii.eqb c newline); [done|].
    intros H. destruct (IH H) as [-> ->]. done.
Qed.

Lemma take_lines_fuel {S} (handle : string → M S unit) n m buffer :
  (String.length buffer ≤ n)%nat → (String.length buffer ≤ m)%nat →
  take_lines n handle buffer = take_lines m handle buffer.
Proof.
  revert m buffer. induction n as [|n IH]; intros [|m] buffer Hn Hm; cbn; try done.
  - destruct buffer; [done | cbn in Hn; lia].
  - destruct buffer; [done | cbn in Hm; lia].
  - destruct (has_newline buffer) eqn:Hnl; [|done].
    pose proof (split_newline_shorter buffer Hnl) as Hs.
    destruct (split_newline buffer) as [line rest]. cbn in Hs.
    rewrite (IH m rest) by lia. done.
Qed.

(** [drain] is the [while] loop: one turn, then the loop again. *)
Lemma drain_unfold {S} (handle : string → M S unit) buffer :
  drain handle buffer
  = if has_newline buffer
    then let '(line, rest) := split_newline buffer in handle line ;; drain handle rest
    else ret buffer.
Proof.
  unfold drain. destruct (String.length buffer) as [|n] eqn:Hlen.
  - destruct buffer; [done | discriminate].
  - cbn [take_lines]. destruct (has_newline buffer) eqn:Hnl; [|done].
    pose proof (split_newline_shorter buffer Hnl) as Hs.
    destruct (split_newline buffer) as [line rest]. cbn in Hs.
    rewrite (take_lines_fuel handle n (String.length rest) rest) by lia. done.
Qed.

Lemma drain_app {S} (handle : string → M S unit) a b (s : S) :
  drain handle (a +:+ b) s = bind (drain handle a) (λ a', drain handle (a' +:+ b)) s.
Proof.
  remember (String.length a) as n eqn:Hn. revert a Hn s.
  induction n as [n IH] using lt_wf_ind. intros a Hn s.
  rewrite (drain_unfold handle a).
  destruct (has_newline a) eqn:Hnl; [|done].
  rewrite (drain_unfold handle (a +:+ b)), has_newline_app, Hnl, split_newline_app by done.
  pose proof (split_newline_shorter a Hnl) as Hs.
  destruct (split_newline a) as [line rest]. cbn in Hs. cbn [fst snd orb].
  unfold bind. destruct (handle line s) as [[[]|e] s1]; [|done].
  rewrite (IH (String.length rest)) by (done || lia). done.
Qed.

Lemma drain_leaves_no_newline {S} (handle : string → M S unit) buffer (s s' : S) rest :
  drain handle buffer s = (Ok rest, s') → has_newline rest = false.
Proof.
  remember (String.length buffer) as n eqn:Hn. revert buffer Hn s.
  induction n as [n IH] using lt_wf_ind. intros buffer Hn s.
  rewrite drain_unfold. destruct (has_newline buffer) eqn:Hnl.
  - pose proof (split_newline_shorter buffer Hnl) as Hs.
    destruct (split_newline buffer) as [line tail]. cbn in Hs.
    unfold bind. destruct (handle line s) as [[[]|e] s1]; [|done].
    apply (IH (String.length tail)); [lia | done].
  - by intros [= <- <-].
Qed.

(** The receive loop handles the lines of the stream, whatever the chunks. *)
Lemma recv_loop_stream {S} (handle : string → M S unit) chunks buffer (s : S) :
  Forall (λ data, data ≠ EmptyString) chunks →
  has_newline buffer = false →
  recv_loop handle chunks buffer s
  = bind (drain handle (buffer +:+ stream chunks)) (λ _, ret tt) s.
Proof.
  revert buffer s. induction chunks as [|data chunks IH]; intros buffer s Hne Hb.
  - cbn. rewrite string_app_nil_r, drain_unfold, Hb. done.
  - apply Forall_cons in Hne as [Hd Hne]. cbn [recv_loop stream foldr].
    rewrite bool_decide_eq_false_2 by done.
    fold (stream chunks). rewrite <- string_app_assoc.
    unfold bind at 2. rewrite drain_app. unfold bind at 1 2.
    destruct (drain handle (buffer +:+ data) s) as [[buffer'|e] s1] eqn:E; [|done].
    rewrite IH; [done | done |]. by eapply drain_leaves_no_newline.
Qed.

(** ** server.py: the connection *)

(** The responses of a connection and the store it leaves depend on the
    bytes received and not on how [recv] cuts them into chunks: a request
    may come in pieces, and several may come at once. *)
Theorem requests_are_framed_by_newlines (decode_request : string → decoded)
    (env : nat → store.io * list json) (chunks1 chunks2 : list string)
    (s : store.KVStore) :
  Forall (λ data, data ≠ EmptyString) chunks1 →
  Forall (λ data, data ≠ EmptyString) chunks2 →
  stream chunks1 = stream chunks2 →
  server.handle_client decode_request env chunks1 s
  = server.handle_client decode_request env chunks2 s.
Proof.
  intros H1 H2 Heq. unfold server.handle_client.
  rewrite !recv_loop_stream by done. by rewrite Heq.
Qed.

(** Bytes that no newline follows are never handled: a last chunk without
    a newline changes neither the responses nor the store. *)
Theorem unterminated_line_is_not_handled (decode_request : string → decoded)
    (env : nat → store.io * list json) (chunks : list string) (last : string)
    (s : store.KVStore) :
  Forall (λ data, data ≠ EmptyString) chunks →
  last ≠ EmptyString →
  has_newline last = false →
  server.handle_client decode_request env (chunks ++ [last]) s
  = server.handle_client decode_request env chunks s.
Proof.
  intros Hne Hl Hnl. unfold server.handle_client.
  rewrite (recv_loop_stream _ (chunks ++ [last]));
    [|apply Forall_app; split; [done | by repeat constructor] | done].
  rewrite (recv_loop_stream _ chunks) by done.
  assert (stream (chunks ++ [last]) = stream chunks +:+ last) as ->.
  { induction chunks as [|d chunks IH]; cbn.
    - by rewrite string_app_nil_r.
    - apply Forall_cons in Hne as [_ Hne]. fold (stream (chunks ++ [last])).
      fold (stream chunks). by rewrite IH, string_app_assoc. }
  change (EmptyString +:+ ?x) with x.
  unfold bind at 1. rewrite drain_app. unfold bind.
  destruct (drain (server.handle_bytes decode_request env) (stream chunks)
              (server.mkConnection s [])) as [[rest|e] s1] eqn:E; [|done].
  pose proof (drain_leaves_no_newline _ _ _ _ _ E) as Hr.
  rewrite drain_unfold, has_newline_app, Hr, Hnl. done.
Qed.

Lemma framing_witness :
  server.handle_client decode_two (λ _, (store.io_ok, []))
    [line_set_a +:+ String newline "{"; line_get_a_rest +:+ String newline EmptyString]
    (store.mkKVStore ∅ None None None)
  = server.handle_client decode_two (λ _, (store.io_ok, []))
      [line_set_a; String newline line_get_a; String newline EmptyString]
      (store.mkKVStore ∅ None None None).
Proof.
  apply requests_are_framed_by_newlines.
  - repeat constructor; intros H; apply (f_equal String.length) in H; discriminate H.
  - repeat constructor; intros H; apply (f_equal String.length) in H; discriminate H.
  - reflexivity.
Defined.

Lemma unterminated_line_witness :
  server.handle_client decode_two (λ _, (store.io_ok, []))
    ([line_set_a +:+ String newline EmptyString] ++ [line_get_a])
    (store.mkKVStore ∅ None None None)
  = server.handle_client decode_two (λ _, (store.io_ok, []))
      [line_set_a +:+ String newline EmptyString]
      (store.mkKVStore ∅ None None None).
Proof.
  apply unterminated_line_is_not_handled.
  - repeat constructor; intros H; apply (f_equal String.length) in H; discriminate H.
  - intros H; apply (f_equal String.length) in H; discriminate H.
  - reflexivity.
Defined.

(** ** server.py: the responses *)

Lemma field_ok_encode ok v err : field "ok" (encode_response ok v err) = Some (JBool ok).
Proof. reflexivity. Qed.

Lemma field_error_encode ok v err :
  field "error" (encode_response ok v err) = JStr <$> err.
Proof. unfold encode_response. destruct v, err; reflexivity. Qed.

Lemma server_dispatch_shape req o scores (s s' : store.KVStore) resp :
  server.dispatch req o scores s = (Ok resp, s') → success_or_failure resp.
Proof.
  unfold server.dispatch, success_or_failure.
  repeat match goal with
         | |- context [if method_is ?m req then _ else _] => destruct (method_is m req)
         end;
    try destruct (key req); unfold ret, bind;
    try match goal with
        | |- (match ?c with _ => _ end) = _ → _ => destruct c as [[[]|?] ?]
        end;
    intros [= <- <-] || discriminate; eauto.
Qed.

Lemma server_response_shape req o scores (s : store.KVStore) :
  success_or_failure (server.handle_request req o scores s).1.
Proof.
  unfold server.handle_request.
  destruct (server.dispatch req o scores s) as [[resp|e] s'] eqn:E.
  - by eapply server_dispatch_shape.
  - right. by eexists.
Qed.

(** Every response of the standalone server has a boolean ["ok"]; it has an
    ["error"] exactly when ["ok"] is false, and then it has no ["value"]. *)
Theorem response_has_error_iff_not_ok (req : request) (o : store.io)
    (scores : list json) (s : store.KVStore) :
  ∃ ok, field "ok" (server.handle_request req o scores s).1 = Some (JBool ok)
        ∧ (is_Some (field "error" (server.handle_request req o scores s).1) ↔ ok = false)
        ∧ (ok = false → field "value" (server.handle_request req o scores s).1 = None).
Proof.
  destruct (server_response_shape req o scores s) as [[v ->]|[msg ->]].
  - exists true. rewrite field_ok_encode, field_error_encode, encode_response_value_field.
    cbn. split; [done|]. split; [|done]. split; [by intros [? ?] | done].
  - exists false. rewrite field_ok_encode, field_error_encode, encode_response_value_field.
    cbn. split; [done|]. split; [|done]. split; [done | by eexists].
Qed.

(** ** cluster_node.py: receiving replicated entries *)

Lemma recv_line_from_newline buf sock :
  has_newline buf = true → _recv_line_from buf sock = (Ok (split_newline buf).1, sock).
Proof. intros H. destruct sock; cbn; by rewrite H. Qed.

Lemma recv_line_from_chunks buf front last sock :
  Forall (λ chunk, chunk ≠ EmptyString) front →
  last ≠ EmptyString →
  has_newline (buf +:+ stream front) = false →
  has_newline ((buf +:+ stream front) +:+ last) = true →
  _recv_line_from buf ((Data <$> front) ++ Data last :: sock)
  = (Ok (split_newline ((buf +:+ stream front) +:+ last)).1, sock).
Proof.
  revert buf. induction front as [|chunk front IH]; intros buf Hne Hl Hno Hnl.
  - cbn [stream foldr] in *. rewrite string_app_nil_r in *.
    cbn [fmap list_fmap app _recv_line_from]. rewrite Hno.
    rewrite bool_decide_eq_false_2 by done. by apply recv_line_from_newline.
  - apply Forall_cons in Hne as [Hc Hne]. cbn [stream foldr] in *.
    fold (stream front) in *. rewrite <- string_app_assoc in *.
    assert (has_newline buf = false) as Hbuf.
    { rewrite !has_newline_app in Hno. by destruct (has_newline buf). }
    cbn [fmap list_fmap app _recv_line_from]. rewrite Hbuf.
    rewrite bool_decide_eq_false_2 by done. by apply IH.
Qed.

(** [_recv_line] returns the bytes before the first newline it receives.
    The bytes that came after that newline in the same chunk are dropped:
    they are not returned, and they are no longer on the socket. *)
Theorem recv_line_returns_first_line (front : list string) (last line rest : string)
    (sock : list recv_event) :
  Forall (λ chunk, chunk ≠ EmptyString) front →
  last ≠ EmptyString →
  has_newline (stream front) = false →
  has_newline line = false →
  stream front +:+ last = line +:+ String newline rest →
  _recv_line ((Data <$> front) ++ Data last :: sock) = (Ok line, sock).
Proof.
  intros Hne Hl Hno Hline Heq. unfold _recv_line.
  destruct (split_newline_line line rest Hline) as [Hnl Hsplit].
  rewrite recv_line_from_chunks; try done.
  - change (EmptyString +:+ ?x) with x. by rewrite Heq, Hsplit.
  - change (EmptyString +:+ ?x) with x. by rewrite Heq.
Qed.

Lemma recv_line_witness :
  _recv_line ((Data <$> ["{"; line_get_a_rest])
              ++ Data (String newline entry_set_a) :: [Data entry_delete_a])
  = (Ok ("{" +:+ line_get_a_rest), [Data entry_delete_a]).
Proof.
  apply (recv_line_returns_first_line _ _ _ entry_set_a).
  - repeat constructor; intros H; apply (f_equal String.length) in H; discriminate H.
  - discriminate.
  - reflexivity.
  - reflexivity.
  - reflexivity.
Defined.

Lemma receive_lines_chunks loads (msgs : list (string * store.entry * string)) tail
    turns data :
  Forall (λ m, has_newline m.1.1 = false ∧ loads m.1.1 = store.LEntry m.1.2) msgs →
  (∃ e sock', _recv_line tail = (Raise e, sock')) →
  (length msgs < turns)%nat →
  cluster_node.receive_lines turns loads
    (((λ m, Data (m.1.1 +:+ String newline m.2)) <$> msgs) ++ tail) data
  = (Ok tt, replay (msgs.*1.*2) data).
Proof.
  revert turns data.
  induction msgs as [|[[line e] rest] msgs IH]; intros turns data Hall Htail Hlen.
  - destruct turns; [cbn in Hlen; lia|]. destruct Htail as (x & sock' & Htail).
    cbn [fmap list_fmap app cluster_node.receive_lines]. by rewrite Htail.
  - apply Forall_cons in Hall as [[Hline Hloads] Hall]. cbn in Hline, Hloads.
    destruct turns as [|turns]; [cbn in Hlen; lia|].
    cbn [fmap list_fmap app cluster_node.receive_lines fst snd].
    destruct (split_newline_line line rest Hline) as [Hnl Hsplit].
    match goal with |- context [_recv_line (Data ?c :: ?sock)] =>
      assert (_recv_line (Data c :: sock) = (Ok line, sock)) as -> end.
    { unfold _recv_line. cbn [_recv_line_from has_newline].
      rewrite bool_decide_eq_false_2.
      - change (EmptyString +:+ ?x) with x.
        by rewrite recv_line_from_newline, Hsplit.
      - intros H. rewrite H in Hnl. done. }
    rewrite Hloads. rewrite IH; [done | done | done | cbn in Hlen; lia].
Qed.

(** A secondary applies, of each chunk it receives, the entry before the
    first newline and nothing else: every entry when each arrives in a
    chunk of its own, and only the first of those that arrive together. *)
Theorem secondary_applies_first_line_of_each_chunk (loads : string → store.wal_line)
    (msgs : list (string * store.entry * string)) (n : cluster_node.node) :
  is_Some (cluster_node.receiver n) →
  Forall (λ m, has_newline m.1.1 = false ∧ loads m.1.1 = store.LEntry m.1.2) msgs →
  let sock := (λ m, Data (m.1.1 +:+ String newline m.2)) <$> msgs in
  (cluster_node.serve_connection loads sock n).1 = Ok tt
  ∧ store._data (cluster_node.store_ (cluster_node.serve_connection loads sock n).2)
    = replay (msgs.*1.*2) (store._data (cluster_node.store_ n)).
Proof.
  intros [p Hr] Hall sock. unfold cluster_node.serve_connection. rewrite Hr.
  subst sock.
  pose proof (receive_lines_chunks loads msgs [] (S (length msgs))
                (store._data (cluster_node.store_ n)) Hall) as H.
  rewrite app_nil_r in H. rewrite length_fmap, H; [done | by eexists _, _ | lia].
Qed.

(** A receive that times out (the primary sent nothing for a second) ends
    the connection: what the secondary had applied stays, and nothing that
    arrives on the connection afterwards is applied. *)
Theorem secondary_stops_at_timeout (loads : string → store.wal_line)
    (msgs : list (string * store.entry * string)) (later : list recv_event)
    (n : cluster_node.node) :
  is_Some (cluster_node.receiver n) →
  Forall (λ m, has_newline m.1.1 = false ∧ loads m.1.1 = store.LEntry m.1.2) msgs →
  let sock := ((λ m, Data (m.1.1 +:+ String newline m.2)) <$> msgs) ++ TimedOut :: later in
  (cluster_node.serve_connection loads sock n).1 = Ok tt
  ∧ store._data (cluster_node.store_ (cluster_node.serve_connection loads sock n).2)
    = replay (msgs.*1.*2) (store._data (cluster_node.store_ n)).
Proof.
  intros [p Hr] Hall sock. unfold cluster_node.serve_connection. rewrite Hr.
  subst sock.
  rewrite (receive_lines_chunks loads msgs (TimedOut :: later)); [done | done | by eexists _, _ |].
  rewrite length_app, length_fmap. cbn. lia.
Qed.

Lemma secondary_timeout_witness :
  let sock := ((λ m : string * store.entry * string, Data (m.1.1 +:+ String newline m.2))
               <$> [(entry_delete_a, store.EDelete "a", EmptyString)])
              ++ TimedOut :: [Data (entry_set_a +:+ String newline EmptyString)] in
  (cluster_node.serve_connection loads_two sock secondary1).1 = Ok tt
  ∧ store._data (cluster_node.store_ (cluster_node.serve_connection loads_two sock secondary1).2)
    = replay [store.EDelete "a"] (store._data (cluster_node.store_ secondary1)).
Proof.
  apply (secondary_stops_at_timeout loads_two
           [(entry_delete_a, store.EDelete "a", EmptyString)]).
  - by eexists.
  - repeat constructor.
Defined.

Lemma secondary_chunks_witness :
  let sock := (λ m : string * store.entry * string, Data (m.1.1 +:+ String newline m.2))
              <$> [(entry_set_a, store.ESet "a" (JNum 1),
                    entry_delete_a +:+ String newline EmptyString);
                   (entry_set_a, store.ESet "a" (JNum 1), EmptyString)] in
  (cluster_node.serve_connection loads_two sock secondary1).1 = Ok tt
  ∧ store._data (cluster_node.store_ (cluster_node.serve_connection loads_two sock secondary1).2)
    = replay [store.ESet "a" (JNum 1); store.ESet "a" (JNum 1)]
        (store._data (cluster_node.store_ secondary1)).
Proof.
  apply (secondary_applies_first_line_of_each_chunk loads_two
           [(entry_set_a, store.ESet "a" (JNum 1),
             entry_delete_a +:+ String newline EmptyString);
            (entry_set_a, store.ESet "a" (JNum 1), EmptyString)]).
  - by eexists.
  - repeat constructor.
Defined.

(** ** cluster_node.py: the primary *)

Lemma apply_and_replicate_eq e o delivers (n : cluster_node.node) :
  cluster_node.apply_and_replicate e o delivers n
  = match persist e false o
            (store.set_data (store.apply_entry e (store._data (cluster_node.store_ n)))
               (cluster_node.store_ n)) with
    | (Raise x, s') => (Raise x, cluster_node.set_store s' n)
    | (Ok _, s') =>
        (Ok tt, cluster_node.set_sender (cluster_node.send delivers <$> cluster_node.sender n)
                  (cluster_node.set_store s' n))
    end.
Proof. reflexivity. Qed.

Lemma cluster_write_as_persist e o delivers (n : cluster_node.node) resp :
  let s1 := store.set_data (store.apply_entry e (store._data (cluster_node.store_ n)))
              (cluster_node.store_ n) in
  let r := match (cluster_node.apply_and_replicate e o delivers ;; ret resp) n with
           | (Ok resp, n') => (resp, n')
           | (Raise x, n') => (encode_response false JNull (Some (str_exn x)), n')
           end in
  r.1 = match persist e false o s1 with
        | (Ok _, _) => resp
        | (Raise x, _) => encode_response false JNull (Some (str_exn x))
        end
  ∧ cluster_node.store_ r.2 = (persist e false o s1).2.
Proof.
  cbn zeta. unfold bind. rewrite !apply_and_replicate_eq.
  by destruct (persist e false o _) as [[[]|x] s'].
Qed.

Lemma server_write_as_persist (c : M store.KVStore unit) e o (s s1 : store.KVStore) resp :
  c s = persist e false o s1 →
  let r := match (c ;; ret resp) s with
           | (Ok resp, s') => (resp, s')
           | (Raise x, s') => (encode_response false JNull (Some (str_exn x)), s')
           end in
  r.1 = match persist e false o s1 with
        | (Ok _, _) => resp
        | (Raise x, _) => encode_response false JNull (Some (str_exn x))
        end
  ∧ r.2 = (persist e false o s1).2.
Proof.
  intros Hc. cbn zeta. unfold bind. rewrite !Hc.
  by destruct (persist e false o s1) as [[[]|x] s'].
Qed.

(** A primary answers [get], [set], [delete] and [bulk_set] as the
    standalone server answers them when the request carries no
    [debug_simulate_fail], and leaves the map, the log and the snapshot as
    it would: the flag is read and not used, so no snapshot is skipped. *)
Theorem primary_serves_as_standalone (req : request) (o : store.io)
    (delivers : Z → bool) (scores : list json) (n : cluster_node.node) :
  cluster_node.is_primary n = true →
  store._ft_index (cluster_node.store_ n) = None →
  method_is "get" req || method_is "set" req || method_is "delete" req
  || method_is "bulk_set" req = true →
  (cluster_node.handle_request req o delivers n).1
  = (server.handle_request (without_debug req) o scores (cluster_node.store_ n)).1
  ∧ cluster_node.store_ (cluster_node.handle_request req o delivers n).2
    = (server.handle_request (without_debug req) o scores (cluster_node.store_ n)).2.
Proof.
  intros Hp Hft Hm.
  unfold cluster_node.handle_request, server.handle_request,
    cluster_node.dispatch, server.dispatch.
  rewrite Hp. cbn [negb].
  unfold method_is in *. cbn [without_debug method key value items debug_simulate_fail].
  destruct (method req) as [m|]; [|done].
  assert (Hs : ∀ d, store.mkKVStore d (store._wal (cluster_node.store_ n))
                      (store._snapshot (cluster_node.store_ n)) None
                    = store.set_data d (cluster_node.store_ n)).
  { intros d. unfold store.set_data. by rewrite Hft. }
  repeat case_bool_decide; simplify_eq/=; try done.
  - by destruct (key req).
  - destruct (key req) as [k|]; [|done].
    destruct (cluster_write_as_persist (store.ESet k (value req)) o delivers n
                (encode_response true JNull None)) as [-> ->].
    destruct (server_write_as_persist (store.set k (value req) false o)
                (store.ESet k (value req)) o (cluster_node.store_ n) _
                (encode_response true JNull None)
                (set_eq k (value req) false o (cluster_node.store_ n))) as [-> ->].
    rewrite Hft. cbn [fmap option_fmap option_map store.apply_entry]. by rewrite Hs.
  - destruct (key req) as [k|]; [|done].
    destruct (cluster_write_as_persist (store.EDelete k) o delivers n
                (encode_response true JNull None)) as [-> ->].
    destruct (server_write_as_persist (store.delete k false o)
                (store.EDelete k) o (cluster_node.store_ n) _
                (encode_response true JNull None)
                (delete_eq k false o (cluster_node.store_ n))) as [-> ->].
    rewrite Hft. cbn [fmap option_fmap option_map store.apply_entry]. by rewrite Hs.
  - destruct (items req) as [|kv its]; [done|].
    destruct (cluster_write_as_persist (store.EBulk (kv :: its)) o delivers n
                (encode_response true JNull None)) as [-> ->].
    destruct (server_write_as_persist (store.bulk_set (kv :: its) false o)
                (store.EBulk (kv :: its)) o (cluster_node.store_ n) _
                (encode_response true JNull None)
                (bulk_set_eq kv its false o (cluster_node.store_ n))) as [-> ->].
    rewrite Hft. cbn [fmap option_fmap option_map store.apply_entry]. by rewrite Hs.
Qed.

Lemma primary_as_standalone_witness :
  let req := request_of "set" (Some "k") (JNum 2) [] true in
  (cluster_node.handle_request req snapshot_skipped (λ _, true) primary0).1
  = (server.handle_request (without_debug req) snapshot_skipped []
       (cluster_node.store_ primary0)).1
  ∧ cluster_node.store_
      (cluster_node.handle_request req snapshot_skipped (λ _, true) primary0).2
    = (server.handle_request (without_debug req) snapshot_skipped []
         (cluster_node.store_ primary0)).2.
Proof.
  apply primary_serves_as_standalone; reflexivity.
Defined.

(** ** masterless_node.py *)

Lemma dead_conns_snoc sendall conns c :
  masterless_node.dead_conns sendall (conns ++ [c])
  = masterless_node.dead_conns sendall conns
    ++ (if sendall (length conns) then [] else [length conns]).
Proof.
  unfold masterless_node.dead_conns. rewrite length_app. cbn [length].
  rewrite seq_app, filter_app. cbn [seq Nat.add]. f_equal.
  destruct (sendall (length conns)) eqn:E.
  - rewrite filter_cons_False; [done|]. by rewrite E.
  - by rewrite filter_cons_True.
Qed.

Lemma survivors_snoc sendall conns c :
  survivors sendall (conns ++ [c])
  = survivors sendall conns ++ (if sendall (length conns) then [c] else []).
Proof.
  unfold survivors. rewrite imap_app, join_app. f_equal. cbn.
  rewrite Nat.add_0_r, app_nil_r. done.
Qed.

Lemma delete_dead_conns sendall conns extra :
  foldl (λ cs i, base.delete i cs) (conns ++ extra)
    (reverse (masterless_node.dead_conns sendall conns))
  = survivors sendall conns ++ extra.
Proof.
  revert extra. induction conns as [|c conns IH] using rev_ind; intros extra; [done|].
  rewrite dead_conns_snoc, survivors_snoc, reverse_app, <- !app_assoc.
  destruct (sendall (length conns)).
  - cbn [reverse app]. apply IH.
  - rewrite reverse_singleton. cbn [app foldl]. rewrite delete_middle. apply IH.
Qed.

(** [broadcast] drops exactly the connections whose send failed and keeps
    the others in their order: deleting the dead indices from the highest
    down shifts none of those still to delete.  No connection is added. *)
Theorem broadcast_drops_the_dead_connections (sendall : nat → bool)
    (b : masterless_node.ReplicationBroadcaster) :
  masterless_node._conns (masterless_node.broadcast sendall b)
  = survivors sendall (masterless_node._conns b)
  ∧ masterless_node._peers (masterless_node.broadcast sendall b)
    = masterless_node._peers b.
Proof.
  split; [|done]. cbn.
  pose proof (delete_dead_conns sendall (masterless_node._conns b) []) as H.
  by rewrite !app_nil_r in H.
Qed.

Lemma restart_of_consistent ix (s : store.KVStore) :
  consistent s → ∃ s', store.restart ix s = Ok s' ∧ store._data s' = store._data s.
Proof.
  intros (es & Hlog & Hdata & j & Hsnap).
  unfold store.restart, store.__init__, store._recover.
  rewrite (replay_wal_clean _ es) by done.
  eexists. split; [reflexivity|]. cbn [store._data].
  by rewrite Hsnap, replay_over_prefix, Hdata.
Qed.

Lemma receive_entry_done e (s : store.KVStore) :
  consistent s →
  ∃ s', masterless_node.receive_entry e store.AppendDone s = (Ok tt, s')
        ∧ consistent s'
        ∧ store._data s' = store.apply_entry e (store._data s).
Proof.
  intros (es & Hlog & Hdata & j & Hsnap).
  eexists. split; [reflexivity|]. split; [|done].
  exists (es ++ [e]). cbn. split; [by apply append_done_clean|].
  split; [by rewrite Hdata, replay_app|].
  exists (j `min` length es)%nat. rewrite Hsnap, (take_min es j).
  by rewrite take_app_le by lia.
Qed.

Lemma receive_entries_done es (s : store.KVStore) :
  consistent s →
  ∃ s', masterless_node.receive_entries ((λ e, (e, store.AppendDone)) <$> es) s = (Ok tt, s')
        ∧ consistent s'
        ∧ store._data s' = replay es (store._data s).
Proof.
  revert s. induction es as [|e es IH]; intros s Hs.
  - by exists s.
  - destruct (receive_entry_done e s Hs) as (s1 & Hr & Hc & Hd).
    destruct (IH s1 Hc) as (s' & Hr' & Hc' & Hd').
    exists s'. cbn [fmap list_fmap masterless_node.receive_entries].
    unfold bind. rewrite Hr, Hr'. split; [done|]. split; [done|].
    by rewrite Hd', Hd.
Qed.

(** The entries a master-less node receives from its peers are appended to
    its own log: after a connection whose appends completed, on a store that
    was consistent, a restart gives the map back, replicated entries
    included. *)
Theorem masterless_received_entries_survive_restart (es : list store.entry)
    (s : store.KVStore) (enable_indexes : bool) :
  consistent s →
  let r := masterless_node.receive_entries ((λ e, (e, store.AppendDone)) <$> es) s in
  r.1 = Ok tt
  ∧ store._data r.2 = replay es (store._data s)
  ∧ ∃ s', store.restart enable_indexes r.2 = Ok s' ∧ store._data s' = store._data r.2.
Proof.
  intros Hs. destruct (receive_entries_done es s Hs) as (s1 & Hr & Hc & Hd).
  cbn zeta. rewrite Hr. cbn [fst snd]. split; [done|]. split; [done|].
  by apply restart_of_consistent.
Qed.

Lemma masterless_received_witness :
  let r := masterless_node.receive_entries
             ((λ e, (e, store.AppendDone)) <$> some_log)
             (store.mkKVStore ∅ None None None) in
  r.1 = Ok tt
  ∧ store._data r.2 = replay some_log (store._data (store.mkKVStore ∅ None None None))
  ∧ ∃ s', store.restart false r.2 = Ok s' ∧ store._data s' = store._data r.2.
Proof.
  apply masterless_received_entries_survive_restart. apply fresh_store_is_consistent.
Defined.

Lemma apply_and_broadcast_eq e o sendall (n : masterless_node.node) :
  masterless_node.apply_and_broadcast e o sendall n
  = match persist e false o
            (store.set_data (store.apply_entry e (store._data (masterless_node.store_ n)))
               (masterless_node.store_ n)) with
    | (Raise x, s') => (Raise x, masterless_node.mkNode s' (masterless_node.broadcaster n))
    | (Ok _, s') =>
        (Ok tt, masterless_node.mkNode s'
                  (masterless_node.broadcast sendall (masterless_node.broadcaster n)))
    end.
Proof. reflexivity. Qed.

Lemma failed_broadcast e o sendall msg (n : masterless_node.node) (resp : response) :
  raises_with false o msg →
  let r := (masterless_node.apply_and_broadcast e o sendall ;; ret resp) n in
  r.1 = Raise (OSError msg)
  ∧ store._data (masterless_node.store_ r.2)
    = store.apply_entry e (store._data (masterless_node.store_ n))
  ∧ masterless_node.broadcaster r.2 = masterless_node.broadcaster n.
Proof.
  intros Hio. cbn zeta. unfold bind. rewrite apply_and_broadcast_eq.
  match goal with |- context [persist e false o ?x] =>
    pose proof (persist_spec e false o x) as P end.
  cbn zeta in P. destruct P as (Pd & _ & Pr & _). specialize (Pr msg Hio).
  destruct (persist e false o _) as [[[]|x] s']; cbn in Pr; [discriminate|].
  injection Pr as ->. cbn in *. by rewrite Pd.
Qed.

(** On a master-less node a write whose append or snapshot write raises
    gets no response: the exception leaves [handle_client], which closes the
    connection.  The map holds the write all the same, and the entry is not
    broadcast to the peers. *)
Theorem masterless_failed_write_gets_no_response (k : string) (v : json)
    (its : list (string * json)) (dbg : bool) (o : store.io) (sendall : nat → bool)
    (n : masterless_node.node) (msg : string) :
  raises_with false o msg →
  let failed (e : store.entry) (r : result response * masterless_node.node) :=
    r.1 = Raise (OSError msg)
    ∧ store._data (masterless_node.store_ r.2)
      = store.apply_entry e (store._data (masterless_node.store_ n))
    ∧ masterless_node.broadcaster r.2 = masterless_node.broadcaster n in
  failed (store.ESet k v)
    (masterless_node.handle_request (request_of "set" (Some k) v its dbg) o sendall n)
  ∧ failed (store.EDelete k)
      (masterless_node.handle_request (request_of "delete" (Some k) v its dbg) o sendall n)
  ∧ (its ≠ [] →
     failed (store.EBulk its)
       (masterless_node.handle_request (request_of "bulk_set" (Some k) v its dbg) o sendall n)).
Proof.
  intros Hio failed. subst failed. cbn beta. split; [|split].
  - exact (failed_broadcast (store.ESet k v) o sendall msg n _ Hio).
  - exact (failed_broadcast (store.EDelete k) o sendall msg n _ Hio).
  - intros Hne. destruct its as [|kv its]; [done|].
    exact (failed_broadcast (store.EBulk (kv :: its)) o sendall msg n _ Hio).
Qed.

Lemma masterless_failed_write_witness :
  let failed (e : store.entry) (r : result response * masterless_node.node) :=
    r.1 = Raise (OSError "No space left on device")
    ∧ store._data (masterless_node.store_ r.2)
      = store.apply_entry e (store._data (masterless_node.store_ masterless1))
    ∧ masterless_node.broadcaster r.2 = masterless_node.broadcaster masterless1 in
  failed (store.ESet "k" (JNum 2))
    (masterless_node.handle_request
       (request_of "set" (Some "k") (JNum 2) [("x", JNum 1)] false)
       disk_full (λ _, true) masterless1)
  ∧ failed (store.EDelete "k")
      (masterless_node.handle_request
         (request_of "delete" (Some "k") (JNum 2) [("x", JNum 1)] false)
         disk_full (λ _, true) masterless1)
  ∧ ([("x", JNum 1)] ≠ [] →
     failed (store.EBulk [("x", JNum 1)])
       (masterless_node.handle_request
          (request_of "bulk_set" (Some "k") (JNum 2) [("x", JNum 1)] false)
          disk_full (λ _, true) masterless1)).
Proof.
  apply (masterless_failed_write_gets_no_response "k" (JNum 2) [("x", JNum 1)] false
           disk_full (λ _, true) masterless1 "No space left on device").
  left. by eexists.
Defined.

(** ** client.py *)

(** [KVClient.Get(key)] against the standalone server returns what
    [store.get(key)] returns there, [None] for a key that is absent and for
    one stored with null alike, and [KVClient.Search(query)] returns the
    keys [store.search_fulltext(query)] lists; neither raises, and neither
    changes the store. *)
Theorem client_reads_return_what_the_store_returns (key query : string)
    (o : store.io) (scores : list json) (s : store.KVStore) :
  client.Get (standalone o scores) key s = (Ok (store.get key s), s)
  ∧ client.Search (standalone o scores) query s
    = (Ok (JArr (JStr <$> store.search_fulltext query s)), s).
Proof.
  split.
  - unfold client.Get, client._request, standalone, bind.
    change (mkRequest (Some "get") (Some key) JNull [] false EmptyString)
      with (request_of "get" (Some key) JNull [] false).
    rewrite server_get_response. unfold client.check.
    rewrite field_ok_encode, encode_response_value_field. cbn.
    by destruct (store.get key s).
  - reflexivity.
Qed.

Lemma client_write_outcome (c : M store.KVStore unit) fallback (s : store.KVStore) :
  (let (r, s') :=
     let '(resp, s') :=
       match (c ;; ret (encode_response true JNull None)) s with
       | (Ok resp, s') => (resp, s')
       | (Raise e, s') => (encode_response false JNull (Some (str_exn e)), s')
       end in
     (Ok resp, s') in
   match r with
   | Ok a => (client.check fallback a, s')
   | Raise e => (Raise e, s')
   end)
  = client_outcome (c s).
Proof. unfold bind. by destruct (c s) as [[[]|e] s']. Qed.

(** [Set], [Delete] and [BulkSet] of the client return when the call of the
    store returned, and raise [RuntimeError] with the text of the
    exception when it raised; the store is left as that call left it.
    [BulkSet([])] sends nothing. *)
Theorem client_write_raises_what_the_store_raised (k : string) (v : json)
    (its : list (string * json)) (dbg : bool) (o : store.io) (scores : list json)
    (s : store.KVStore) :
  client.Set_ (standalone o scores) k v dbg s = client_outcome (store.set k v dbg o s)
  ∧ client.Delete (standalone o scores) k dbg s = client_outcome (store.delete k dbg o s)
  ∧ client.BulkSet (standalone o scores) its dbg s
    = client_outcome (store.bulk_set its dbg o s).
Proof.
  split; [|split].
  - unfold client.Set_, client._request, standalone. unfold bind at 1.
    change (mkRequest (Some "set") (Some k) v [] dbg EmptyString)
      with (request_of "set" (Some k) v [] dbg).
    rewrite server_set_eq. apply (client_write_outcome (store.set k v dbg o)).
  - unfold client.Delete, client._request, standalone. unfold bind at 1.
    change (mkRequest (Some "delete") (Some k) JNull [] dbg EmptyString)
      with (request_of "delete" (Some k) JNull [] dbg).
    rewrite server_delete_eq. apply (client_write_outcome (store.delete k dbg o)).
  - destruct its as [|kv its]; [done|].
    unfold client.BulkSet, client._request, standalone. unfold bind at 1.
    change (mkRequest (Some "bulk_set") None JNull (kv :: its) dbg EmptyString)
      with (request_of "bulk_set" None JNull (kv :: its) dbg).
    rewrite server_bulk_set_eq. apply (client_write_outcome (store.bulk_set (kv :: its) dbg o)).
Qed.

(** ** cluster_client.py *)

Lemma scan_ports_spec loads (probes : Z → cluster_client.probe) ports :
  match cluster_client.scan_ports loads probes ports with
  | cluster_client.Found p =>
      ∃ l1 l2, ports = l1 ++ p :: l2
               ∧ Forall (λ q, cluster_client.probe_port loads (probes q)
                              = cluster_client.NotPrimary) l1
               ∧ cluster_client.probe_port loads (probes p) = cluster_client.IsPrimary
  | cluster_client.Hangs =>
      ∃ l1 p l2, ports = l1 ++ p :: l2
                 ∧ Forall (λ q, cluster_client.probe_port loads (probes q)
                                = cluster_client.NotPrimary) l1
                 ∧ cluster_client.probe_port loads (probes p) = cluster_client.NeverEnds
  | cluster_client.NoPrimary =>
      Forall (λ q, cluster_client.probe_port loads (probes q)
                   = cluster_client.NotPrimary) ports
  end.
Proof.
  induction ports as [|q ports IH]; [constructor|]. cbn.
  destruct (cluster_client.probe_port loads (probes q)) eqn:E.
  - exists [], ports. by repeat split.
  - destruct (cluster_client.scan_ports loads probes ports) as [p| |].
    + destruct IH as (l1 & l2 & -> & H1 & Hp). exists (q :: l1), l2.
      split; [done|]. split; [by constructor | done].
    + by constructor.
    + destruct IH as (l1 & p & l2 & -> & H1 & Hp). exists (q :: l1), p, l2.
      split; [done|]. split; [by constructor | done].
  - exists [], q, ports. by repeat split.
Qed.

Lemma attempts_spec n a0 loads (probes : nat → Z → cluster_client.probe) ports :
  let outcome a q := cluster_client.probe_port loads (probes a q) in
  let quiet a := Forall (λ q, outcome a q = cluster_client.NotPrimary) ports in
  match cluster_client.attempts n a0 loads probes ports with
  | Some (Ok p) =>
      ∃ a l1 l2, (a0 ≤ a < a0 + n)%nat
                 ∧ ports = l1 ++ p :: l2
                 ∧ Forall (λ q, outcome a q = cluster_client.NotPrimary) l1
                 ∧ outcome a p = cluster_client.IsPrimary
                 ∧ ∀ a', (a0 ≤ a' < a)%nat → quiet a'
  | Some (Raise e) =>
      e = RuntimeError "No primary found in cluster"
      ∧ ∀ a, (a0 ≤ a < a0 + n)%nat → quiet a
  | None =>
      ∃ a l1 p l2, (a0 ≤ a < a0 + n)%nat
                   ∧ ports = l1 ++ p :: l2
                   ∧ Forall (λ q, outcome a q = cluster_client.NotPrimary) l1
                   ∧ outcome a p = cluster_client.NeverEnds
                   ∧ ∀ a', (a0 ≤ a' < a)%nat → quiet a'
  end.
Proof.
  cbn zeta. revert a0. induction n as [|n IH]; intros a0; cbn.
  - split; [done|]. intros a Ha. lia.
  - pose proof (scan_ports_spec loads (probes a0) ports) as Hs.
    destruct (cluster_client.scan_ports loads (probes a0) ports) as [p| |].
    + destruct Hs as (l1 & l2 & Hp & H1 & Hprim). exists a0, l1, l2.
      split; [lia|]. split; [done|]. split; [done|]. split; [done|]. intros a' Ha'. lia.
    + specialize (IH (S a0)).
      destruct (cluster_client.attempts n (S a0) loads probes ports) as [[p|e]|].
      * destruct IH as (a & l1 & l2 & Ha & Hp & H1 & Hprim & Hbefore).
        exists a, l1, l2. split; [lia|]. split; [done|]. split; [done|]. split; [done|].
        intros a' Ha'. destruct (decide (a' = a0)) as [->|Hne]; [done|].
        apply Hbefore. lia.
      * destruct IH as [-> Hall]. split; [done|]. intros a Ha.
        destruct (decide (a = a0)) as [->|Hne]; [done|]. apply Hall. lia.
      * destruct IH as (a & l1 & p & l2 & Ha & Hp & H1 & Hspin & Hbefore).
        exists a, l1, p, l2. split; [lia|]. split; [done|]. split; [done|].
        split; [done|].
        intros a' Ha'. destruct (decide (a' = a0)) as [->|Hne]; [done|].
        apply Hbefore. lia.
    + destruct Hs as (l1 & p & l2 & Hp & H1 & Hspin). exists a0, l1, p, l2.
      split; [lia|]. split; [done|]. split; [done|]. split; [done|]. intros a' Ha'. lia.
Qed.

Lemma read_reply_spins buf chunks :
  Forall (λ chunk, chunk ≠ EmptyString) chunks →
  buf +:+ stream chunks ≠ EmptyString →
  has_newline (buf +:+ stream chunks) = false →
  cluster_client.read_reply buf (Data <$> chunks) = cluster_client.ReadSpins.
Proof.
  revert buf. induction chunks as [|chunk chunks IH]; intros buf Hne Hbuf Hnl.
  - cbn [stream foldr] in *. rewrite string_app_nil_r in *. cbn. rewrite Hnl.
    by rewrite bool_decide_eq_false_2.
  - apply Forall_cons in Hne as [Hc Hne]. cbn [stream foldr] in *.
    fold (stream chunks) in *. rewrite <- string_app_assoc in *.
    assert (has_newline buf = false) as Hb.
    { rewrite !has_newline_app in Hnl. by destruct (has_newline buf). }
    cbn [fmap list_fmap cluster_client.read_reply]. rewrite Hb.
    rewrite bool_decide_eq_false_2 by done. by apply IH.
Qed.

(** [_discover_primary] returns the first port, in the order of the list,
    whose probe finds a primary in the first of ten rounds in which one
    does (where two nodes both claim the role, the one listed first), and
    raises when every probe of the ten rounds ends without one.  It never
    returns when, before that, the probe of a port never ends; and a probe
    never ends when the peer sends bytes without a newline and closes: the
    reading loop then goes round on the empty [recv]. *)
Theorem discover_primary_returns_first_primary (loads : string → probe_result)
    (probes : nat → Z → cluster_client.probe) (kv_ports : list Z) :
  let outcome a q := cluster_client.probe_port loads (probes a q) in
  let quiet a := Forall (λ q, outcome a q = cluster_client.NotPrimary) kv_ports in
  match cluster_client._discover_primary loads probes kv_ports with
  | Some (Ok p) =>
      ∃ a l1 l2, (a < 10)%nat
                 ∧ kv_ports = l1 ++ p :: l2
                 ∧ Forall (λ q, outcome a q = cluster_client.NotPrimary) l1
                 ∧ outcome a p = cluster_client.IsPrimary
                 ∧ ∀ a', (a' < a)%nat → quiet a'
  | Some (Raise e) =>
      e = RuntimeError "No primary found in cluster" ∧ ∀ a, (a < 10)%nat → quiet a
  | None =>
      ∃ a l1 p l2, (a < 10)%nat
                   ∧ kv_ports = l1 ++ p :: l2
                   ∧ Forall (λ q, outcome a q = cluster_client.NotPrimary) l1
                   ∧ outcome a p = cluster_client.NeverEnds
                   ∧ ∀ a', (a' < a)%nat → quiet a'
  end
  ∧ ∀ chunks, Forall (λ chunk, chunk ≠ EmptyString) chunks →
              chunks ≠ [] →
              has_newline (stream chunks) = false →
              cluster_client.probe_port loads (cluster_client.Connected (Data <$> chunks))
              = cluster_client.NeverEnds.
Proof.
  cbn zeta. split.
  - unfold cluster_client._discover_primary.
    pose proof (attempts_spec 10 0 loads probes kv_ports) as H. cbn zeta in H.
    destruct (cluster_client.attempts 10 0 loads probes kv_ports) as [[p|e]|].
    + destruct H as (a & l1 & l2 & Ha & Hp & H1 & Hprim & Hbefore).
      exists a, l1, l2. split; [lia|]. split; [done|]. split; [done|]. split; [done|].
      intros a' Ha'. apply Hbefore. lia.
    + destruct H as [-> Hall]. split; [done|]. intros a Ha. apply Hall. lia.
    + destruct H as (a & l1 & p & l2 & Ha & Hp & H1 & Hspin & Hbefore).
      exists a, l1, p, l2. split; [lia|]. split; [done|]. split; [done|].
      split; [done|]. intros a' Ha'. apply Hbefore. lia.
  - intros chunks Hne Hnil Hnl. unfold cluster_client.probe_port.
    rewrite read_reply_spins; [done | done | | done].
    change (EmptyString +:+ ?x) with x.
    destruct chunks as [|chunk chunks]; [done|].
    apply Forall_cons in Hne as [Hc _]. cbn [stream foldr].
    destruct chunk; [done|]. rewrite string_app_cons. discriminate.
Qed.

(** ** replication.py *)

Lemma replication_step_keeps_files (st : replication.step) (n : replication.ClusterNode) :
  store._wal (replication._store (replication.do_step st n))
  = store._wal (replication._store n)
  ∧ store._snapshot (replication._store (replication.do_step st n))
    = store._snapshot (replication._store n).
Proof.
  destruct st; cbn.
  - unfold replication.start. by destruct (replication._is_primary n).
  - done.
  - unfold replication._election_loop, replication._run_election.
    by repeat case_match.
  - unfold replication._run_election. by repeat case_match.
  - done.
  - unfold replication._apply_entry. by repeat case_match.
  - unfold replication.apply_and_replicate. by repeat case_match.
Qed.

(** Nothing a [ClusterNode] of replication.py does writes the log or the
    snapshot of its store: [apply_and_replicate] and the receiver change
    the map in memory only, so what is written through them is gone after a
    restart. *)
Theorem cluster_node_never_writes_files (steps : list replication.step)
    (n : replication.ClusterNode) :
  store._wal (replication._store (replication.run steps n))
  = store._wal (replication._store n)
  ∧ store._snapshot (replication._store (replication.run steps n))
    = store._snapshot (replication._store n).
Proof.
  unfold replication.run. revert n. induction steps as [|st steps IH]; intros n; [done|].
  cbn [foldl]. destruct (IH (replication.do_step st n)) as [-> ->].
  apply replication_step_keeps_files.
Qed.
